(** * SmartRoute planner: trip matching, match acceptance and route costing

    A shallow embedding of the request handlers
    [src/app/api/trips/route.ts] (trip creation, the matching pass and the
    list of a user's trips), the accept-match handler, the handler that
    deletes a trip, the handler that creates a group, and
    [src/app/api/route/route.ts] (route cost and the route handler), with
    the properties of the matching engine proved about them.

    JavaScript numbers are IEEE 754 binary64 values: they are modelled by
    Rocq's primitive floats, whose operations are the same ones.  Integer
    quantities that the code only ever adds small constants to (scores, row
    ids) are modelled in [Z]. *)

From Stdlib Require Import Floats ZArith List String Ascii Bool Lia.
From Stdlib Require Import Permutation Sorted.
Import ListNotations.
Set Warnings "-inexact-float,-register-all".

Local Open Scope string_scope.
Local Open Scope Z_scope.

(** * Part I: the model *)

(** ** The JavaScript runtime the handlers rely on

    [Math.sin], [Math.cos] and [Math.atan2] are implementation-approximated
    in ECMAScript, and [parseFloat], [parseInt], [Number#toString],
    [String#toLowerCase] and [String#trim] are built-ins: the development is
    parametric in them. *)

Inductive json : Type :=
| JUndefined
| JNull
| JBool (b : bool)
| JNum (x : float)
| JStr (s : string)
| JArr (items : list json)
| JObj (fields : list (string * json)).

Record JSRuntime : Type := {
  Math_sin : float -> float;
  Math_cos : float -> float;
  Math_atan2 : float -> float -> float;
  parseFloat : string -> float;
  (** [parseInt v]: [None] stands for [NaN]. *)
  parseInt : json -> option Z;
  numberToString : float -> string;
  toLowerCase : string -> string;
  trim : string -> string
}.

Definition Math_PI : float := 3.141592653589793%float.
Definition Math_sqrt : float -> float := PrimFloat.sqrt.

(** JavaScript truthiness. *)
Definition truthy (v : json) : bool :=
  match v with
  | JUndefined | JNull => false
  | JBool b => b
  | JNum x => negb (PrimFloat.eqb x 0 || PrimFloat.is_nan x)
  | JStr s => negb (String.eqb s "")
  | JArr _ | JObj _ => true
  end.

Definition truthy_string (s : string) : bool := negb (String.eqb s "").

(** The double-quote character, as a string. *)
Definition dquote : string := String (Ascii.ascii_of_nat 34) EmptyString.

(** [s.split(',')]. *)
Fixpoint split_comma_from (cur : string) (s : string) : list string :=
  match s with
  | EmptyString => [cur]
  | String c rest =>
      if Ascii.eqb c ","%char then cur :: split_comma_from "" rest
      else split_comma_from (cur ++ String c "") rest
  end.

Definition split_comma (s : string) : list string := split_comma_from "" s.

(** ** Geodesy utilities ([trips/route.ts], lines 103-140) *)

Module Geo.

(** A coordinate pair [[lat, lon]]. *)
Definition point : Type := (float * float)%type.

Section Geodesy.
Context (js : JSRuntime).
Local Open Scope float_scope.

Definition toRad (degrees : float) : float := degrees * (Math_PI / 180).

(** Haversine formula. *)
Definition calculateDistance (start end_ : point) : float :=
  let R := 6371 in
  let dLat := toRad (fst end_ - fst start) in
  let dLon := toRad (snd end_ - snd start) in
  let lat1 := toRad (fst start) in
  let lat2 := toRad (fst end_) in
  let a :=
    Math_sin js (dLat / 2) * Math_sin js (dLat / 2) +
    Math_sin js (dLon / 2) * Math_sin js (dLon / 2)
      * Math_cos js lat1 * Math_cos js lat2 in
  let c := 2 * Math_atan2 js (Math_sqrt a) (Math_sqrt (1 - a)) in
  R * c.

(** One iteration of the [for ... of] loop of [distanceToRoute]. *)
Definition distanceToRoute_step (pt : point) (minDistance : float)
    (routePoint : point) : float :=
  let distance := calculateDistance pt routePoint in
  if distance <? minDistance then distance else minDistance.

Definition distanceToRoute (pt : point) (routeCoordinates : list point)
    : float :=
  fold_left (distanceToRoute_step pt) routeCoordinates infinity.

Definition isAlongRoute (pt : point) (routeCoordinates : list point)
    (thresholdKm : float) : bool :=
  let distance := distanceToRoute pt routeCoordinates in
  distance <=? thresholdKm.

(** The declared default of the [thresholdKm] parameter. *)
Definition defaultThresholdKm : float := 5.

Definition isAlongRoute_default (pt : point) (routeCoordinates : list point)
    : bool :=
  isAlongRoute pt routeCoordinates defaultThresholdKm.

(** [text.split(',').map(parseFloat) as [number, number]]; reading a missing
    component gives [undefined], which arithmetic turns into [NaN]. *)
Definition parseCoordinates (text : string) : point :=
  let parts := map (parseFloat js) (split_comma text) in
  (nth 0 parts nan, nth 1 parts nan).

End Geodesy.

End Geo.

(** ** Rows of the database ([db/schema]) *)

Module Trip.
Record t : Type := {
  id : Z;
  userId : string;
  source : string;
  destination : string;
  sourceCoordinates : option string;
  destinationCoordinates : option string;
  travelDate : string;
  travelTime : string;
  transportMode : string;
  optimizationMode : string;
  status : string;
  routeData : json;
  (** JSON column: [null] or the list of [[lat, lon]] pairs. *)
  routeGeometry : option (list Geo.point);
  createdAt : string;
  updatedAt : string
}.

Definition with_id (row : t) (i : Z) : t :=
  {| id := i; userId := userId row; source := source row;
     destination := destination row;
     sourceCoordinates := sourceCoordinates row;
     destinationCoordinates := destinationCoordinates row;
     travelDate := travelDate row; travelTime := travelTime row;
     transportMode := transportMode row;
     optimizationMode := optimizationMode row; status := status row;
     routeData := routeData row; routeGeometry := routeGeometry row;
     createdAt := createdAt row; updatedAt := updatedAt row |}.
End Trip.

Module TripMatch.
Record t : Type := {
  id : Z;
  tripId : Z;
  matchedTripId : Z;
  matchScore : Z;
  status : string;
  createdAt : string
}.

Definition with_id (row : t) (i : Z) : t :=
  {| id := i; tripId := tripId row; matchedTripId := matchedTripId row;
     matchScore := matchScore row; status := status row;
     createdAt := createdAt row |}.

Definition with_status (row : t) (s : string) : t :=
  {| id := id row; tripId := tripId row; matchedTripId := matchedTripId row;
     matchScore := matchScore row; status := s;
     createdAt := createdAt row |}.
End TripMatch.

Module Group.
Record t : Type := {
  id : Z;
  name : string;
  tripId : option Z;
  createdBy : string;
  status : string;
  createdAt : string;
  updatedAt : string
}.

Definition with_id (row : t) (i : Z) : t :=
  {| id := i; name := name row; tripId := tripId row;
     createdBy := createdBy row; status := status row;
     createdAt := createdAt row; updatedAt := updatedAt row |}.

Definition with_tripId (row : t) (ti : option Z) : t :=
  {| id := id row; name := name row; tripId := ti;
     createdBy := createdBy row; status := status row;
     createdAt := createdAt row; updatedAt := updatedAt row |}.
End Group.

Module GroupMember.
Record t : Type := {
  id : Z;
  groupId : Z;
  userId : string;
  role : string;
  joinedAt : string
}.

Definition with_id (row : t) (i : Z) : t :=
  {| id := i; groupId := groupId row; userId := userId row;
     role := role row; joinedAt := joinedAt row |}.
End GroupMember.

(** ** The store and its statements

    Tables are lists of rows in insertion order; the [seq_] fields are the
    AUTOINCREMENT counters.  The schema declares no uniqueness constraint on
    [trip_matches] or [group_members] (only primary keys and foreign keys),
    so inserts append. *)

Module Store.
Record t : Type := {
  trips : list Trip.t;
  tripMatches : list TripMatch.t;
  groups : list Group.t;
  groupMembers : list GroupMember.t;
  seq_trips : Z;
  seq_tripMatches : Z;
  seq_groups : Z;
  seq_groupMembers : Z
}.

(** [db.insert(trips).values(v).returning()] *)
Definition insertTrip (v : Trip.t) (s : t) : list Trip.t * t :=
  let row := Trip.with_id v (seq_trips s + 1) in
  ([row],
   {| trips := trips s ++ [row]; tripMatches := tripMatches s;
      groups := groups s; groupMembers := groupMembers s;
      seq_trips := seq_trips s + 1; seq_tripMatches := seq_tripMatches s;
      seq_groups := seq_groups s;
      seq_groupMembers := seq_groupMembers s |}).

(** Rows get consecutive ids after [from]. *)
Fixpoint number_matches (from : Z) (rows : list TripMatch.t)
    : list TripMatch.t :=
  match rows with
  | [] => []
  | r :: rest => TripMatch.with_id r (from + 1) :: number_matches (from + 1) rest
  end.

(** [db.insert(tripMatches).values(rows)] *)
Definition insertTripMatches (rows : list TripMatch.t) (s : t) : unit * t :=
  (tt,
   {| trips := trips s;
      tripMatches :=
        tripMatches s ++ number_matches (seq_tripMatches s) rows;
      groups := groups s; groupMembers := groupMembers s;
      seq_trips := seq_trips s;
      seq_tripMatches := seq_tripMatches s + Z.of_nat (List.length rows);
      seq_groups := seq_groups s;
      seq_groupMembers := seq_groupMembers s |}).

(** [db.update(tripMatches).set({status}).where(and(eq(tripId, a),
    eq(matchedTripId, b)))] *)
Definition setMatchStatus (a b : Z) (newStatus : string) (s : t) : unit * t :=
  (tt,
   {| trips := trips s;
      tripMatches :=
        map (fun r =>
               if (TripMatch.tripId r =? a) && (TripMatch.matchedTripId r =? b)
               then TripMatch.with_status r newStatus else r)
            (tripMatches s);
      groups := groups s; groupMembers := groupMembers s;
      seq_trips := seq_trips s; seq_tripMatches := seq_tripMatches s;
      seq_groups := seq_groups s;
      seq_groupMembers := seq_groupMembers s |}).

(** [db.insert(groups).values(v).returning()] *)
Definition insertGroup (v : Group.t) (s : t) : list Group.t * t :=
  let row := Group.with_id v (seq_groups s + 1) in
  ([row],
   {| trips := trips s; tripMatches := tripMatches s;
      groups := groups s ++ [row]; groupMembers := groupMembers s;
      seq_trips := seq_trips s; seq_tripMatches := seq_tripMatches s;
      seq_groups := seq_groups s + 1;
      seq_groupMembers := seq_groupMembers s |}).

(** [db.insert(groupMembers).values(v)] *)
Definition insertGroupMember (v : GroupMember.t) (s : t) : unit * t :=
  let row := GroupMember.with_id v (seq_groupMembers s + 1) in
  (tt,
   {| trips := trips s; tripMatches := tripMatches s;
      groups := groups s; groupMembers := groupMembers s ++ [row];
      seq_trips := seq_trips s; seq_tripMatches := seq_tripMatches s;
      seq_groups := seq_groups s;
      seq_groupMembers := seq_groupMembers s + 1 |}).

(** A [select]: the rows satisfying [p], the store unchanged. *)
Definition select {A R : Type} (table : t -> list A) (p : A -> bool)
    (k : list A -> R) (s : t) : R * t :=
  (k (filter p (table s)), s).

(** [.limit(1)] *)
Definition limit1 {A : Type} (rows : list A) : list A := firstn 1 rows.

(** [db.delete(trips).where(eq(trips.id, i))] with the schema's foreign
    keys: matches of the trip are deleted (ON DELETE cascade) and groups
    keep going with a null trip id (ON DELETE set null). *)
Definition deleteTrip (i : Z) (s : t) : list Trip.t * t :=
  (filter (fun r => Trip.id r =? i) (trips s),
   {| trips := filter (fun r => negb (Trip.id r =? i)) (trips s);
      tripMatches :=
        filter (fun r => negb ((TripMatch.tripId r =? i)
                               || (TripMatch.matchedTripId r =? i)))
               (tripMatches s);
      groups :=
        map (fun g => match Group.tripId g with
                      | Some j => if j =? i then Group.with_tripId g None
                                  else g
                      | None => g
                      end) (groups s);
      groupMembers := groupMembers s;
      seq_trips := seq_trips s; seq_tripMatches := seq_tripMatches s;
      seq_groups := seq_groups s;
      seq_groupMembers := seq_groupMembers s |}).
End Store.


(** ** Responses, completions and the handler monad *)

Inductive body : Type :=
| ErrorBody (error : string) (code : option string)
| TripBody (trip : Trip.t)
| GroupBody (group : Group.t) (members : list GroupMember.t).

Record Response : Type := { status : Z; payload : body }.

(** [NextResponse.json({ error, code }, { status })] *)
Definition errorResponse (error code : string) (st : Z) : Response :=
  {| status := st; payload := ErrorBody error (Some code) |}.

(** How the evaluation of a statement completes: normally, by a [return]
    of the enclosing function, or by a [throw]. *)
Inductive completion (A : Type) : Type :=
| Normal (value : A)
| Return (response : Response)
| Throw (message : string).

Arguments Normal {A} value.
Arguments Return {A} response.
Arguments Throw {A} message.

(** The result of a call that gives a value or throws. *)
Inductive result (A : Type) : Type :=
| Ok (value : A)
| Err (message : string).

Arguments Ok {A} value.
Arguments Err {A} message.

Record Session : Type := { session_user : option string }.

(** A route of the routing service's reply, already in [[lat, lon]] order
    ([calculateRouteGeometry] swaps the GeoJSON pairs). *)
Record RouteGeometry : Type := {
  coordinates : list Geo.point;
  distance : float;
  duration : float
}.

(** What a request meets outside the handler: the session service, the
    request body and path, the geocoding and routing services, the clock, and
    the database driver, any call of which may throw. *)
Record World : Type := {
  (** [auth.api.getSession]: the session and its [user.id], if any. *)
  getSession : result (option Session);
  (** [request.json()] *)
  requestJson : result json;
  (** [request.nextUrl.pathname.split('/')[3]] *)
  pathPart3 : option string;
  (** [geocode]: a coordinate pair, or [null] on any failure. *)
  geocode : string -> option Geo.point;
  (** [calculateRouteGeometry]: the first route, or [null] on any failure. *)
  calculateRouteGeometry :
    Geo.point -> Geo.point -> string -> option RouteGeometry;
  (** [new Date().toISOString()], by the number of earlier readings. *)
  clock : nat -> string;
  (** The [n]-th database call of the request throws this error. *)
  dbFault : nat -> option string
}.

Record HState : Type := {
  db : Store.t;
  dbCalls : nat;
  clockTicks : nat
}.

Definition initial (s : Store.t) : HState :=
  {| db := s; dbCalls := 0; clockTicks := 0 |}.

Definition Handler (A : Type) : Type := HState -> completion A * HState.

Definition ret {A : Type} (a : A) : Handler A := fun st => (Normal a, st).

Definition bind {A B : Type} (m : Handler A) (k : A -> Handler B)
    : Handler B :=
  fun st =>
    match m st with
    | (Normal a, st') => k a st'
    | (Return r, st') => (Return r, st')
    | (Throw e, st') => (Throw e, st')
    end.

Declare Scope handler_scope.
Delimit Scope handler_scope with handler.
Notation "x <- m ;; k" := (bind m (fun x => k))
  (at level 61, m at next level, right associativity) : handler_scope.
Notation "m ;;; k" := (bind m (fun _ => k))
  (at level 61, right associativity) : handler_scope.

(** [return r;] *)
Definition return_ {A : Type} (r : Response) : Handler A :=
  fun st => (Return r, st).

(** [await call], [call()]: the value, or the error thrown. *)
Definition lift {A : Type} (r : result A) : Handler A :=
  fun st =>
    match r with
    | Ok a => (Normal a, st)
    | Err e => (Throw e, st)
    end.

(** [if (c) return r;] *)
Definition returnIf (c : bool) (r : Response) : Handler unit :=
  if c then return_ r else ret tt.

(** [try { body } catch (e) { handler }]: a [return] inside the block leaves
    the function, a [throw] enters the handler with the state as it is. *)
Definition tryCatch {A : Type} (block : Handler A)
    (handler : string -> Handler A) : Handler A :=
  fun st =>
    match block st with
    | (Throw e, st') => handler e st'
    | other => other
    end.

(** [await db.<statement>]: the statement runs on the store unless the driver
    throws; a statement that throws leaves the store as it was. *)
Definition dbCall {A : Type} (w : World) (stmt : Store.t -> A * Store.t)
    : Handler A :=
  fun st =>
    let st1 := {| db := db st; dbCalls := S (dbCalls st);
                  clockTicks := clockTicks st |} in
    match dbFault w (dbCalls st) with
    | Some e => (Throw e, st1)
    | None =>
        let (a, s') := stmt (db st) in
        (Normal a, {| db := s'; dbCalls := S (dbCalls st);
                      clockTicks := clockTicks st |})
    end.

(** [new Date().toISOString()] *)
Definition now (w : World) : Handler string :=
  fun st =>
    (Normal (clock w (clockTicks st)),
     {| db := db st; dbCalls := dbCalls st;
        clockTicks := S (clockTicks st) |}).

(** The result of calling an async handler whose body is [block]: what it
    returned, or the error it threw. *)
Definition call (block : Handler Response) (st : HState)
    : completion Response * HState :=
  match block st with
  | (Normal r, st') => (Normal r, st')
  | (Return r, st') => (Normal r, st')
  | (Throw e, st') => (Throw e, st')
  end.

(** Property access on a parsed body: [undefined] where there is none. *)
Definition getField (key : string) (v : json) : json :=
  match v with
  | JObj fields =>
      match find (fun kv => String.eqb (fst kv) key) fields with
      | Some kv => snd kv
      | None => JUndefined
      end
  | _ => JUndefined
  end.

(** How a primitive value reads in the message of a [TypeError]. *)
Definition primitiveText (js : JSRuntime) (v : json) : string :=
  match v with
  | JUndefined => "undefined"
  | JNull => "null"
  | JBool true => "true"
  | JBool false => "false"
  | JNum x => numberToString js x
  | JStr s => s
  | JArr _ | JObj _ => ""
  end.

(** [key in v], for the two keys the handler asks about (neither is an
    array index or a property of [Object.prototype]): a [TypeError] when [v]
    is not an object. *)
Definition hasKey (js : JSRuntime) (key : string) (v : json) : result bool :=
  match v with
  | JObj fields => Ok (existsb (fun kv => String.eqb (fst kv) key) fields)
  | JArr _ => Ok false
  | _ =>
      Err ("Cannot use 'in' operator to search for '" ++ key ++ "' in "
           ++ primitiveText js v)
  end.

(** [v.trim()]: a [TypeError] unless [v] is a string. *)
Definition callTrim (js : JSRuntime) (name : string) (v : json)
    : result string :=
  match v with
  | JStr s => Ok (trim js s)
  | _ => Err (name ++ ".trim is not a function")
  end.

(** The reply of a handler whose successful payload is not one of [body]:
    the payload with its status, or one of the error responses. *)
Inductive reply (A : Type) : Type :=
| Success (status : Z) (value : A)
| Failure (response : Response).

Arguments Success {A} status value.
Arguments Failure {A} response.

(** The result of calling an async handler whose body is [block] and whose
    last statement is [return NextResponse.json(value, { status })]: the
    block completes normally with [value]; an earlier [return] gives an error
    response. *)
Definition answer {A : Type} (okStatus : Z) (block : Handler A) (st : HState)
    : completion (reply A) * HState :=
  match block st with
  | (Normal a, st') => (Normal (Success okStatus a), st')
  | (Return r, st') => (Normal (Failure r), st')
  | (Throw e, st') => (Throw e, st')
  end.

(** [await Promise.all(rows.map(async (row) => f(row)))], for callbacks that
    only read: the calls are started in the order of the rows, and the first
    one that throws rejects the whole. *)
Fixpoint promiseAllMap {A B : Type} (f : A -> Handler B) (rows : list A)
    : Handler (list B) :=
  match rows with
  | [] => ret []
  | row :: rest =>
      bind (f row) (fun b =>
      bind (promiseAllMap f rest) (fun bs =>
      ret (b :: bs)))
  end.

(** ** Trip creation and the matching pass ([trips/route.ts], [POST]) *)

Module TripsRoute.

Record SanitizedData : Type := {
  source : string;
  destination : string;
  travelDate : string;
  travelTime : string;
  transportMode : string;
  optimizationMode : string;
  routeData : json
}.

(** The loop variables [matchScore] and [matchReason]. *)
Record Scoring : Type := { matchScore : Z; matchReason : string }.

(** [matchReason ? matchReason + ',tag' : 'tag'] *)
Definition addReason (matchReason tag : string) : string :=
  if truthy_string matchReason then matchReason ++ "," ++ tag else tag.

Section Matching.
Context (js : JSRuntime).

(** [text ? text.split(',').map(parseFloat) : null] *)
Definition parseStoredCoordinates (text : option string)
    : option Geo.point :=
  match text with
  | Some s => if truthy_string s then Some (Geo.parseCoordinates js s) else None
  | None => None
  end.

(** [coords && geometry && geometry.length > 0 && isAlongRoute(coords,
    geometry, 5)], the guard of rules 2 to 4 with its inner test. *)
Definition routeRuleFires (coords : option Geo.point)
    (geometry : option (list Geo.point)) : bool :=
  match coords, geometry with
  | Some c, Some g =>
      if (0 <? Z.of_nat (List.length g))
      then Geo.isAlongRoute js c g 5%float
      else false
  | _, _ => false
  end.

(** The body of the loop over [potentialMatches], up to the threshold test:
    the six rules in the order of the source, each updating the two loop
    variables. *)
Definition scoreCandidate (sanitizedData : SanitizedData)
    (sourceCoords destCoords : option Geo.point)
    (routeGeometry : option (list Geo.point))
    (potentialMatch : Trip.t) : Scoring :=
  let s0 := {| matchScore := 0; matchReason := "" |} in
  let potentialSourceCoords :=
    parseStoredCoordinates (Trip.sourceCoordinates potentialMatch) in
  (* potentialDestCoords is parsed as well and never read *)
  let potentialRouteGeometry := Trip.routeGeometry potentialMatch in
  (* Rule 1: same destination *)
  let s1 :=
    if String.eqb (toLowerCase js (destination sanitizedData))
                  (toLowerCase js (Trip.destination potentialMatch))
    then {| matchScore := matchScore s0 + 50;
            matchReason := "same_destination" |}
    else s0 in
  (* Rule 2: source within 5km of their route *)
  let s2 :=
    if routeRuleFires sourceCoords potentialRouteGeometry
    then {| matchScore := matchScore s1 + 40;
            matchReason := addReason (matchReason s1) "pickup_along_route" |}
    else s1 in
  (* Rule 3: destination along their route *)
  let s3 :=
    if routeRuleFires destCoords potentialRouteGeometry
    then {| matchScore := matchScore s2 + 40;
            matchReason := addReason (matchReason s2) "dropoff_along_route" |}
    else s2 in
  (* Rule 4: their source is near our route *)
  let s4 :=
    if routeRuleFires potentialSourceCoords routeGeometry
    then {| matchScore := matchScore s3 + 30;
            matchReason := addReason (matchReason s3) "routes_overlap" |}
    else s3 in
  (* Rule 5: same travel date *)
  let s5 :=
    if String.eqb (Trip.travelDate potentialMatch) (travelDate sanitizedData)
    then {| matchScore := matchScore s4 + 30; matchReason := matchReason s4 |}
    else s4 in
  (* Rule 6: compatible transport mode *)
  if String.eqb (toLowerCase js (Trip.transportMode potentialMatch))
                (toLowerCase js (transportMode sanitizedData))
  then {| matchScore := matchScore s5 + 20; matchReason := matchReason s5 |}
  else s5.

(** The two records pushed for a candidate that passed. *)
Definition bidirectionalMatches (createdTripId : Z) (matchTimestamp : string)
    (potentialMatch : Trip.t) (score : Z) : list TripMatch.t :=
  [ {| TripMatch.id := 0;
       TripMatch.tripId := createdTripId;
       TripMatch.matchedTripId := Trip.id potentialMatch;
       TripMatch.matchScore := score;
       TripMatch.status := "pending";
       TripMatch.createdAt := matchTimestamp |};
    {| TripMatch.id := 0;
       TripMatch.tripId := Trip.id potentialMatch;
       TripMatch.matchedTripId := createdTripId;
       TripMatch.matchScore := score;
       TripMatch.status := "pending";
       TripMatch.createdAt := matchTimestamp |} ].

(** One iteration of the loop: score, then push if [matchScore > 50]. *)
Definition matchingStep (sanitizedData : SanitizedData)
    (sourceCoords destCoords : option Geo.point)
    (routeGeometry : option (list Geo.point))
    (createdTripId : Z) (matchTimestamp : string)
    (matchInserts : list TripMatch.t) (potentialMatch : Trip.t)
    : list TripMatch.t :=
  let score :=
    matchScore (scoreCandidate sanitizedData sourceCoords destCoords
                  routeGeometry potentialMatch) in
  if 50 <? score
  then matchInserts
         ++ bidirectionalMatches createdTripId matchTimestamp potentialMatch
              score
  else matchInserts.

(** What one candidate contributes to [matchInserts]. *)
Definition emitted (sanitizedData : SanitizedData)
    (sourceCoords destCoords : option Geo.point)
    (routeGeometry : option (list Geo.point))
    (createdTripId : Z) (matchTimestamp : string)
    (potentialMatch : Trip.t) : list TripMatch.t :=
  matchingStep sanitizedData sourceCoords destCoords routeGeometry
    createdTripId matchTimestamp [] potentialMatch.

(** The whole loop, from [matchInserts = []]. *)
Definition buildMatchInserts (sanitizedData : SanitizedData)
    (sourceCoords destCoords : option Geo.point)
    (routeGeometry : option (list Geo.point))
    (createdTripId : Z) (matchTimestamp : string)
    (potentialMatches : list Trip.t) : list TripMatch.t :=
  fold_left
    (matchingStep sanitizedData sourceCoords destCoords routeGeometry
       createdTripId matchTimestamp)
    potentialMatches [].

End Matching.

(** What the matching pass reads from the first half of the handler. *)
Record Created : Type := {
  createdTrip : Trip.t;
  sessionUserId : string;
  sanitizedData : SanitizedData;
  sourceCoords : Geo.point;
  destCoords : Geo.point;
  routeGeometry : option (list Geo.point)
}.

(** An element of the list that [GET] answers: [{ ...trip, matchCount }]. *)
Record TripWithMatchCount : Type := { trip : Trip.t; matchCount : Z }.

(** [.orderBy(desc(trips.createdAt))]: the column is text, compared byte by
    byte.  SQL leaves the order of rows with equal keys open; here they keep
    the order of the table. *)
Fixpoint insertByCreatedAtDesc (t : Trip.t) (rows : list Trip.t)
    : list Trip.t :=
  match rows with
  | [] => [t]
  | r :: rest =>
      if String.ltb (Trip.createdAt t) (Trip.createdAt r)
      then r :: insertByCreatedAtDesc t rest
      else t :: r :: rest
  end.

Definition orderByCreatedAtDesc (rows : list Trip.t) : list Trip.t :=
  fold_right insertByCreatedAtDesc [] rows.

Section Handler.
Context (js : JSRuntime) (w : World).
Local Open Scope handler_scope.

(** Lines 144-161: the session, the body, and the [userId] check. *)
Definition authenticate : Handler (string * json) :=
  session <- lift (getSession w) ;;
  match session with
  | Some {| session_user := Some userId |} =>
      requestBody <- lift (requestJson w) ;;
      hasUserId <- lift (hasKey js "userId" requestBody) ;;
      hasUser_id <- (if hasUserId then ret true
                     else lift (hasKey js "user_id" requestBody)) ;;
      returnIf hasUser_id
        (errorResponse "User ID cannot be provided in request body"
           "USER_ID_NOT_ALLOWED" 400) ;;;
      ret (userId, requestBody)
  | _ =>
      return_ (errorResponse "Authentication required"
                 "AUTHENTICATION_REQUIRED" 401)
  end.

(** Lines 163-190: required fields and sanitization. *)
Definition sanitize (requestBody : json) : Handler SanitizedData :=
  let source := getField "source" requestBody in
  let destination := getField "destination" requestBody in
  let travelDate := getField "travelDate" requestBody in
  let travelTime := getField "travelTime" requestBody in
  let transportMode := getField "transportMode" requestBody in
  let optimizationMode := getField "optimizationMode" requestBody in
  let routeData := getField "routeData" requestBody in
  returnIf
    (negb (truthy source) || negb (truthy destination)
     || negb (truthy travelDate) || negb (truthy travelTime)
     || negb (truthy transportMode) || negb (truthy optimizationMode))
    (errorResponse
       "Missing required fields: source, destination, travelDate, travelTime, transportMode, optimizationMode"
       "MISSING_REQUIRED_FIELDS" 400) ;;;
  src <- lift (callTrim js "source" source) ;;
  dst <- lift (callTrim js "destination" destination) ;;
  date <- lift (callTrim js "travelDate" travelDate) ;;
  time <- lift (callTrim js "travelTime" travelTime) ;;
  mode <- lift (callTrim js "transportMode" transportMode) ;;
  opt <- lift (callTrim js "optimizationMode" optimizationMode) ;;
  ret {| source := src; destination := dst; travelDate := date;
         travelTime := time; transportMode := mode; optimizationMode := opt;
         routeData := if truthy routeData then routeData else JNull |}.

(** [`${c[0]},${c[1]}`] *)
Definition formatCoordinates (c : Geo.point) : string :=
  numberToString js (fst c) ++ "," ++ numberToString js (snd c).

(** Lines 192-238: geocoding, routing and the insertion of the trip. *)
Definition createTrip (userId : string) (sd : SanitizedData)
    : Handler Created :=
  let sourceCoords := geocode w (source sd) in
  let destCoords := geocode w (destination sd) in
  match sourceCoords, destCoords with
  | Some sc, Some dc =>
      let route := calculateRouteGeometry w sc dc (transportMode sd) in
      let routeGeometry :=
        match route with
        | Some r => Some (coordinates r)
        | None => None
        end in
      timestamp <- now w ;;
      newTrip <- dbCall w (Store.insertTrip
        {| Trip.id := 0;
           Trip.userId := userId;
           Trip.source := source sd;
           Trip.destination := destination sd;
           Trip.sourceCoordinates := Some (formatCoordinates sc);
           Trip.destinationCoordinates := Some (formatCoordinates dc);
           Trip.travelDate := travelDate sd;
           Trip.travelTime := travelTime sd;
           Trip.transportMode := transportMode sd;
           Trip.optimizationMode := optimizationMode sd;
           Trip.status := "active";
           Trip.routeData := routeData sd;
           Trip.routeGeometry := routeGeometry;
           Trip.createdAt := timestamp;
           Trip.updatedAt := timestamp |}) ;;
      match newTrip with
      | [] =>
          return_ (errorResponse "Failed to create trip" "CREATION_FAILED" 500)
      | created :: _ =>
          ret {| createdTrip := created; sessionUserId := userId;
                 sanitizedData := sd; sourceCoords := sc; destCoords := dc;
                 routeGeometry := routeGeometry |}
      end
  | _, _ =>
      return_ (errorResponse
        ("Unable to geocode source or destination. Please provide more specific location names (e.g., "
         ++ dquote ++ "New York, NY" ++ dquote ++ " instead of just "
         ++ dquote ++ "New York" ++ dquote ++ ")")
        "GEOCODING_FAILED" 400)
  end.

(** [and(eq(trips.status, 'active'), ne(trips.userId, session.user.id))] *)
Definition isPotentialMatch (userId : string) (t : Trip.t) : bool :=
  String.eqb (Trip.status t) "active"
  && negb (String.eqb (Trip.userId t) userId).

(** Lines 242-336, the block of the inner [try]. *)
Definition matchingPass (c : Created) : Handler unit :=
  potentialMatches <- dbCall w (Store.select Store.trips
    (isPotentialMatch (sessionUserId c)) (fun rows => rows)) ;;
  matchTimestamp <- now w ;;
  let matchInserts :=
    buildMatchInserts js (sanitizedData c) (Some (sourceCoords c))
      (Some (destCoords c)) (routeGeometry c) (Trip.id (createdTrip c))
      matchTimestamp potentialMatches in
  if 0 <? Z.of_nat (List.length matchInserts)
  then dbCall w (Store.insertTripMatches matchInserts)
  else ret tt.

(** The candidates the pass loads from store [s], and the records it builds
    from them in state [st]. *)
Definition candidatesOf (c : Created) (s : Store.t) : list Trip.t :=
  filter (isPotentialMatch (sessionUserId c)) (Store.trips s).

Definition insertsOf (c : Created) (st : HState) : list TripMatch.t :=
  buildMatchInserts js (sanitizedData c) (Some (sourceCoords c))
    (Some (destCoords c)) (routeGeometry c) (Trip.id (createdTrip c))
    (clock w (clockTicks st)) (candidatesOf c (db st)).

(** Lines 144-238, everything before the matching pass: it completes
    normally when the trip row has been inserted, and returns or throws
    otherwise. *)
Definition insertedTrip : Handler Created :=
  auth <- authenticate ;;
  sd <- sanitize (snd auth) ;;
  createTrip (fst auth) sd.

(** The handler: the outer [try] around everything, the inner one around
    the matching pass, whose [catch] only logs. *)
Definition POST : HState -> completion Response * HState :=
  call
    (tryCatch
       (c <- insertedTrip ;;
        tryCatch (matchingPass c) (fun matchError => ret tt) ;;;
        return_ {| status := 201; payload := TripBody (createdTrip c) |})
       (fun error =>
          return_ {| status := 500;
                     payload := ErrorBody ("Internal server error: " ++ error)
                                  None |})).

(** *** The list of the user's trips ([trips/route.ts], [GET]) *)

(** [and(eq(trips.userId, userId), eq(trips.status, statusFilter))] when the
    [status] parameter is truthy, [eq(trips.userId, userId)] otherwise. *)
Definition listedFor (userId : string) (statusFilter : option string)
    (t : Trip.t) : bool :=
  match statusFilter with
  | Some s =>
      if truthy_string s
      then String.eqb (Trip.userId t) userId && String.eqb (Trip.status t) s
      else String.eqb (Trip.userId t) userId
  | None => String.eqb (Trip.userId t) userId
  end.

(** [and(eq(tripMatches.tripId, trip.id), eq(tripMatches.status, 'pending'))] *)
Definition pendingMatchOf (tripId : Z) (m : TripMatch.t) : bool :=
  (TripMatch.tripId m =? tripId) && String.eqb (TripMatch.status m) "pending".

(** The callback of [userTrips.map]: the count query and
    [matchCountResult[0]?.count || 0]. *)
Definition withMatchCount (trip : Trip.t) : Handler TripWithMatchCount :=
  matchCountResult <- dbCall w (Store.select Store.tripMatches
    (pendingMatchOf (Trip.id trip))
    (fun rows => [Z.of_nat (List.length rows)])) ;;
  ret {| trip := trip;
         matchCount :=
           match matchCountResult with
           | count :: _ => if count =? 0 then 0 else count
           | [] => 0
           end |}.

(** Lines 353-404; [statusFilter] is [searchParams.get('status')]. *)
Definition listTrips (statusFilter : option string)
    : Handler (list TripWithMatchCount) :=
  session <- lift (getSession w) ;;
  match session with
  | Some {| session_user := Some userId |} =>
      userTrips <- dbCall w (Store.select Store.trips
        (listedFor userId statusFilter) orderByCreatedAtDesc) ;;
      promiseAllMap withMatchCount userTrips
  | _ =>
      return_ (errorResponse "Authentication required"
                 "AUTHENTICATION_REQUIRED" 401)
  end.

Definition GET (statusFilter : option string)
    : HState -> completion (reply (list TripWithMatchCount)) * HState :=
  answer 200
    (tryCatch (listTrips statusFilter)
       (fun error =>
          return_ {| status := 500;
                     payload := ErrorBody ("Internal server error: " ++ error)
                                  None |})).

End Handler.

End TripsRoute.

(** ** Accepting a match (the accept-match handler, [POST]) *)

Module AcceptRoute.

Section Handler.
Context (js : JSRuntime) (w : World).
Local Open Scope handler_scope.

(** [!v || isNaN(parseInt(v))] *)
Definition invalidInt (v : json) : bool :=
  negb (truthy v) || match parseInt js v with None => true | Some _ => false end.

Definition parsedInt (v : json) : Z :=
  match parseInt js v with Some n => n | None => 0 end.

(** [const { matchId } = body]: a [TypeError] on [null]. *)
Definition destructure (key : string) (v : json) : result json :=
  match v with
  | JNull =>
      Err ("Cannot destructure property '" ++ key
           ++ "' of 'body' as it is null.")
  | JUndefined =>
      Err ("Cannot destructure property '" ++ key
           ++ "' of 'body' as it is undefined.")
  | _ => Ok (getField key v)
  end.

(** What the checks of lines 9-143 establish for the rest of the handler. *)
Record Accepted : Type := {
  userId : string;
  tripId : Z;
  trip : Trip.t;
  matchedTripId : Z;
  matchedUserId : string
}.

(** Lines 9-100: authentication, the two ids, ownership of the trip and the
    match record. *)
Definition resolveMatch : Handler (string * Z * Trip.t * TripMatch.t) :=
  session <- lift (getSession w) ;;
  match session with
  | Some {| session_user := Some userId |} =>
      if negb (truthy_string userId)
      then return_ (errorResponse "Authentication required"
                      "AUTHENTICATION_REQUIRED" 401)
      else
      let tripIdParam :=
        match pathPart3 w with Some s => JStr s | None => JUndefined end in
      returnIf (invalidInt tripIdParam)
        (errorResponse "Valid trip ID is required" "INVALID_TRIP_ID" 400) ;;;
      let tripId := parsedInt tripIdParam in
      body <- lift (requestJson w) ;;
      matchId <- lift (destructure "matchId" body) ;;
      returnIf (invalidInt matchId)
        (errorResponse "Valid match ID is required" "INVALID_MATCH_ID" 400) ;;;
      let matchIdInt := parsedInt matchId in
      userTrip <- dbCall w (Store.select Store.trips
        (fun t => (Trip.id t =? tripId) && String.eqb (Trip.userId t) userId)
        Store.limit1) ;;
      match userTrip with
      | [] =>
          tripExists <- dbCall w (Store.select Store.trips
            (fun t => Trip.id t =? tripId) Store.limit1) ;;
          match tripExists with
          | [] => return_ (errorResponse "Trip not found" "TRIP_NOT_FOUND" 404)
          | _ :: _ =>
              return_ (errorResponse
                "You do not have permission to accept matches for this trip"
                "FORBIDDEN" 403)
          end
      | trip :: _ =>
          match_ <- dbCall w (Store.select Store.tripMatches
            (fun m => TripMatch.id m =? matchIdInt) Store.limit1) ;;
          match match_ with
          | [] =>
              return_ (errorResponse "Trip match not found"
                         "MATCH_NOT_FOUND" 404)
          | matchRecord :: _ =>
              returnIf (negb (TripMatch.tripId matchRecord =? tripId))
                (errorResponse "Match does not belong to this trip"
                   "MATCH_MISMATCH" 400) ;;;
              ret (userId, tripId, trip, matchRecord)
          end
      end
  | _ =>
      return_ (errorResponse "Authentication required"
                 "AUTHENTICATION_REQUIRED" 401)
  end.

(** Lines 104-127: the two updates, one per direction. *)
Definition acceptBothDirections (tripId matchedTripId : Z) : Handler unit :=
  dbCall w (Store.setMatchStatus tripId matchedTripId "accepted") ;;;
  dbCall w (Store.setMatchStatus matchedTripId tripId "accepted").

(** Lines 129-143: the owner of the matched trip. *)
Definition findMatchedUser (matchedTripId : Z) : Handler string :=
  matchedTrip <- dbCall w (Store.select Store.trips
    (fun t => Trip.id t =? matchedTripId) Store.limit1) ;;
  match matchedTrip with
  | [] =>
      return_ (errorResponse "Matched trip not found"
                 "MATCHED_TRIP_NOT_FOUND" 404)
  | t :: _ => ret (Trip.userId t)
  end.

Definition groupOfTrip (tripId matchedTripId : Z) (g : Group.t) : bool :=
  match Group.tripId g with
  | Some i => (i =? tripId) || (i =? matchedTripId)
  | None => false
  end.

Definition membersOf (groupId : Z) (m : GroupMember.t) : bool :=
  GroupMember.groupId m =? groupId.

(** Lines 145-243: join the group of either trip, or create one. *)
Definition provisionGroup (a : Accepted) : Handler Response :=
  existingGroup <- dbCall w (Store.select Store.groups
    (groupOfTrip (tripId a) (matchedTripId a)) Store.limit1) ;;
  match existingGroup with
  | group :: _ =>
      existingMember <- dbCall w (Store.select Store.groupMembers
        (fun m => (GroupMember.groupId m =? Group.id group)
                  && String.eqb (GroupMember.userId m) (userId a))
        Store.limit1) ;;
      match existingMember with
      | [] =>
          joinedAt <- now w ;;
          dbCall w (Store.insertGroupMember
            {| GroupMember.id := 0;
               GroupMember.groupId := Group.id group;
               GroupMember.userId := userId a;
               GroupMember.role := "member";
               GroupMember.joinedAt := joinedAt |})
      | _ :: _ => ret tt
      end ;;;
      members <- dbCall w (Store.select Store.groupMembers
        (membersOf (Group.id group)) (fun rows => rows)) ;;
      return_ {| status := 200; payload := GroupBody group members |}
  | [] =>
      let groupName :=
        "Trip to " ++ Trip.destination (trip a) ++ " - "
          ++ Trip.travelDate (trip a) in
      createdAt <- now w ;;
      updatedAt <- now w ;;
      newGroup <- dbCall w (Store.insertGroup
        {| Group.id := 0;
           Group.name := groupName;
           Group.tripId := Some (tripId a);
           Group.createdBy := userId a;
           Group.status := "active";
           Group.createdAt := createdAt;
           Group.updatedAt := updatedAt |}) ;;
      match newGroup with
      | [] => lift (Err "Cannot read properties of undefined (reading 'id')")
      | group :: _ =>
          joinedAt1 <- now w ;;
          dbCall w (Store.insertGroupMember
            {| GroupMember.id := 0;
               GroupMember.groupId := Group.id group;
               GroupMember.userId := userId a;
               GroupMember.role := "admin";
               GroupMember.joinedAt := joinedAt1 |}) ;;;
          joinedAt2 <- now w ;;
          dbCall w (Store.insertGroupMember
            {| GroupMember.id := 0;
               GroupMember.groupId := Group.id group;
               GroupMember.userId := matchedUserId a;
               GroupMember.role := "member";
               GroupMember.joinedAt := joinedAt2 |}) ;;;
          members <- dbCall w (Store.select Store.groupMembers
            (membersOf (Group.id group)) (fun rows => rows)) ;;
          return_ {| status := 201; payload := GroupBody group members |}
      end
  end.

(** Lines 9-143, everything before the group: it completes normally when
    the match is resolved, both directions are updated and the owner of the
    matched trip is found. *)
Definition accepted : Handler Accepted :=
  r <- resolveMatch ;;
  let '(userId, tripId, trip, matchRecord) := r in
  let matchedTripId := TripMatch.matchedTripId matchRecord in
  acceptBothDirections tripId matchedTripId ;;;
  matchedUserId <- findMatchedUser matchedTripId ;;
  ret {| userId := userId; tripId := tripId; trip := trip;
         matchedTripId := matchedTripId;
         matchedUserId := matchedUserId |}.

(** The handler. *)
Definition POST : HState -> completion Response * HState :=
  call
    (tryCatch
       (a <- accepted ;;
        provisionGroup a)
       (fun error =>
          return_ {| status := 500;
                     payload := ErrorBody ("Internal server error: " ++ error)
                                  None |})).

End Handler.

End AcceptRoute.

(** ** Route cost ([api/route/route.ts]) *)

Module RouteRoute.

Local Open Scope float_scope.

(** The result of reading a property of an object literal. *)
Inductive property : Type :=
| Own (x : float)
| Inherited
| Missing.

(** The properties every object literal inherits from [Object.prototype]. *)
Definition objectPrototypeKeys : list string :=
  [ "constructor"; "hasOwnProperty"; "isPrototypeOf"; "propertyIsEnumerable";
    "toLocaleString"; "toString"; "valueOf"; "__proto__";
    "__defineGetter__"; "__defineSetter__"; "__lookupGetter__";
    "__lookupSetter__" ]%string.

(** [costPerKm[mode]] *)
Definition costPerKm (mode : string) : property :=
  if String.eqb mode "car" then Own 0.5
  else if String.eqb mode "cycling" then Own 0
  else if String.eqb mode "walking" then Own 0
  else if String.eqb mode "bus" then Own 0.15
  else if String.eqb mode "train" then Own 0.25
  else if String.eqb mode "flight" then Own 0.8
  else if existsb (String.eqb mode) objectPrototypeKeys then Inherited
  else Missing.

(** [const rate = costPerKm[mode] || 0.3; return distanceKm * rate;]
    A number is falsy when it is zero or [NaN]; an inherited property is a
    function or an object, which is truthy and multiplies to [NaN]. *)
Definition estimateCost (distanceKm : float) (mode : string) : float :=
  match costPerKm mode with
  | Own x =>
      let rate := if (x =? 0) || is_nan x then 0.3 else x in
      distanceKm * rate
  | Inherited => distanceKm * nan
  | Missing =>
      let rate := 0.3 in
      distanceKm * rate
  end.

(** Lines 235-242: the cost of the main route. *)
Definition mainRouteCost (mainRoute : RouteGeometry)
    (transportMode optimizationMode : string) : float :=
  let distance := distance mainRoute in
  let cost := estimateCost (distance / 1000) transportMode in
  if String.eqb optimizationMode "cheapest" then cost * 0.8 else cost.

(** *** The route handler ([api/route/route.ts], [POST])

    The handler is modelled on bodies of the declared type [RouteRequest]:
    a field is absent (or null) or has the declared type. *)

Record RouteRequest : Type := {
  boardingPoints : option (list string);
  destination : option string;
  transportMode : option string;
  optimizationMode : option string
}.

(** A coordinate pair [[lon, lat]], the order this file's [geocode] gives. *)
Definition lonLat : Type := (float * float)%type.

(** What [calculateRoute] gives: the route and its turn-by-turn
    instructions, which the handler passes on unread. *)
Record CalculatedRoute : Type := {
  geometry : RouteGeometry;
  instructions : json
}.

(** An element of [routes]. *)
Record RouteData : Type := {
  route : RouteGeometry;
  cost : float;
  mode : option string;
  routeInstructions : json
}.

(** What the handler meets outside: the request body and the two services,
    whose answers may differ from one call to the next. *)
Record RouteWorld : Type := {
  (** [request.json()] and the destructuring of the body, which throws on
      [null]. *)
  routeRequest : result RouteRequest;
  (** [geocode], by the number of earlier calls: a pair, or [null] on any
      failure. *)
  geocodeAt : nat -> string -> option lonLat;
  (** [calculateRoute], by the number of earlier calls: the first route, or
      [null] on any failure. *)
  calculateRouteAt :
    nat -> lonLat -> lonLat -> option string -> option CalculatedRoute
}.

(** The key that [costPerKm[mode]] looks up: [undefined] reads the property
    named so, which there is none of. *)
Definition propertyKey (mode : option string) : string :=
  match mode with
  | Some s => s
  | None => "undefined"%string
  end.

Definition truthy_field (v : option string) : bool :=
  match v with
  | Some s => truthy_string s
  | None => false
  end.

Definition errorOnly (error : string) (st : Z) : Response :=
  {| status := st; payload := ErrorBody error None |}.

Section Handler.
Context (w : RouteWorld).

(** Lines 233-252: the route from the first boarding point. *)
Definition mainRoutes (startCoords destCoords : lonLat)
    (transportMode optimizationMode : option string) : list RouteData :=
  match calculateRouteAt w 0 startCoords destCoords transportMode with
  | Some mainRoute =>
      [ {| route := geometry mainRoute;
           cost :=
             (* [optimizationMode === "cheapest"] *)
             mainRouteCost (geometry mainRoute) (propertyKey transportMode)
               (match optimizationMode with Some s => s | None => "" end);
           mode := transportMode;
           routeInstructions := instructions mainRoute |} ]
  | None => []
  end.

(** Lines 255-270: the loop over the other boarding points; [geocodeCalls]
    and [routeCalls] count the calls made so far. *)
Fixpoint additionalRoutes (destCoords : lonLat) (transportMode : option string)
    (points : list string) (geocodeCalls routeCalls : nat)
    (routes : list RouteData) : list RouteData :=
  match points with
  | [] => routes
  | point :: rest =>
      match geocodeAt w geocodeCalls point with
      | Some pointCoords =>
          match calculateRouteAt w routeCalls pointCoords destCoords
                  transportMode with
          | Some r =>
              additionalRoutes destCoords transportMode rest
                (S geocodeCalls) (S routeCalls)
                (routes ++
                 [ {| route := geometry r;
                      cost := estimateCost (distance (geometry r) / 1000)
                                (propertyKey transportMode);
                      mode := transportMode;
                      routeInstructions := instructions r |} ])
          | None =>
              additionalRoutes destCoords transportMode rest
                (S geocodeCalls) (S routeCalls) routes
          end
      | None =>
          additionalRoutes destCoords transportMode rest
            (S geocodeCalls) routeCalls routes
      end
  end.

Definition POST : reply (list RouteData) :=
  match routeRequest w with
  | Err _ =>
      Failure (errorOnly "An error occurred while calculating the route" 500)
  | Ok body =>
      match boardingPoints body with
      | None | Some [] =>
          Failure (errorOnly "At least one boarding point is required" 400)
      | Some (first :: others) =>
          match destination body with
          | Some dest =>
              if negb (truthy_string dest)
              then Failure (errorOnly "Destination is required" 400)
              else
              match geocodeAt w 0 first, geocodeAt w 1 dest with
              | Some startCoords, Some destCoords =>
                  let routes :=
                    additionalRoutes destCoords (transportMode body) others
                      2 1
                      (mainRoutes startCoords destCoords (transportMode body)
                         (optimizationMode body)) in
                  match routes with
                  | [] =>
                      Failure (errorOnly
                        "Unable to calculate route. Please try different locations or transport mode."
                        400)
                  | _ :: _ => Success 200 routes
                  end
              | _, _ =>
                  Failure (errorOnly
                    "Unable to find one or more locations. Please use more specific addresses (e.g., 'New York, NY, USA')"
                    400)
              end
          | None => Failure (errorOnly "Destination is required" 400)
          end
      end
  end.

End Handler.

End RouteRoute.

(** ** Deleting a trip ([api/trips/[id]/route.ts], [DELETE]) *)

Module TripRoute.

Section Handler.
Context (js : JSRuntime) (w : World).
Local Open Scope handler_scope.

(** Lines 258-314 of the handler; [id] is
    [request.nextUrl.pathname.split('/').slice(-1)[0]]. *)
Definition deleteOwnTrip (id : string) : Handler (string * option Trip.t) :=
  session <- lift (getSession w) ;;
  match session with
  | Some {| session_user := Some userId |} =>
      if negb (truthy_string userId)
      then return_ (errorResponse "Authentication required" "UNAUTHORIZED" 401)
      else
      returnIf (AcceptRoute.invalidInt js (JStr id))
        (errorResponse "Valid trip ID is required" "INVALID_ID" 400) ;;;
      let tripId := AcceptRoute.parsedInt js (JStr id) in
      existingTrip <- dbCall w (Store.select Store.trips
        (fun t => Trip.id t =? tripId) Store.limit1) ;;
      match existingTrip with
      | [] => return_ (errorResponse "Trip not found" "TRIP_NOT_FOUND" 404)
      | existing :: _ =>
          returnIf (negb (String.eqb (Trip.userId existing) userId))
            (errorResponse "Forbidden: You do not own this trip"
               "FORBIDDEN" 403) ;;;
          deletedTrip <- dbCall w (Store.deleteTrip tripId) ;;
          ret ("Trip deleted successfully"%string, hd_error deletedTrip)
      end
  | _ =>
      return_ (errorResponse "Authentication required" "UNAUTHORIZED" 401)
  end.

Definition DELETE (id : string)
    : HState -> completion (reply (string * option Trip.t)) * HState :=
  answer 200
    (tryCatch (deleteOwnTrip id)
       (fun error =>
          return_ {| status := 500;
                     payload := ErrorBody ("Internal server error: " ++ error)
                                  None |})).

End Handler.

End TripRoute.

(** ** Creating a group (the groups handler, [POST /api/groups]) *)

Module GroupsRoute.

Section Handler.
Context (js : JSRuntime) (w : World).
Local Open Scope handler_scope.

(** [!name || typeof name !== 'string' || name.trim() === ''] *)
Definition invalidName (name : json) : bool :=
  negb (truthy name) ||
  match name with
  | JStr s => String.eqb (trim js s) ""
  | _ => true
  end.

(** [tripId !== undefined && tripId !== null && isNaN(parseInt(tripId))] *)
Definition invalidTripId (tripId : json) : bool :=
  match tripId with
  | JUndefined | JNull => false
  | _ => match parseInt js tripId with None => true | Some _ => false end
  end.

(** [tripId ? parseInt(tripId) : null]; after the check above a truthy
    [tripId] parses to a number. *)
Definition groupTripId (tripId : json) : option Z :=
  if truthy tripId then parseInt js tripId else None.

(** Lines 9-71, the block of the [try]. *)
Definition createGroup : Handler Group.t :=
  session <- lift (getSession w) ;;
  match session with
  | Some {| session_user := Some userId |} =>
      body <- lift (requestJson w) ;;
      name <- lift (AcceptRoute.destructure "name" body) ;;
      let tripId := getField "tripId" body in
      returnIf (invalidName name)
        (errorResponse "Name is required and must be a non-empty string"
           "MISSING_NAME" 400) ;;;
      returnIf (invalidTripId tripId)
        (errorResponse "Trip ID must be a valid integer" "INVALID_TRIP_ID"
           400) ;;;
      timestamp <- now w ;;
      trimmed <- lift (callTrim js "name" name) ;;
      newGroup <- dbCall w (Store.insertGroup
        {| Group.id := 0;
           Group.name := trimmed;
           Group.tripId := groupTripId tripId;
           Group.createdBy := userId;
           Group.status := "active";
           Group.createdAt := timestamp;
           Group.updatedAt := timestamp |}) ;;
      match newGroup with
      | [] =>
          return_ (errorResponse "Failed to create group" "CREATE_FAILED" 500)
      | group :: _ =>
          dbCall w (Store.insertGroupMember
            {| GroupMember.id := 0;
               GroupMember.groupId := Group.id group;
               GroupMember.userId := userId;
               GroupMember.role := "admin";
               GroupMember.joinedAt := timestamp |}) ;;;
          ret group
      end
  | _ =>
      return_ (errorResponse "Authentication required" "UNAUTHENTICATED" 401)
  end.

Definition POST : HState -> completion (reply Group.t) * HState :=
  answer 201
    (tryCatch createGroup
       (fun error =>
          return_ {| status := 500;
                     payload := ErrorBody ("Internal server error: " ++ error)
                                  None |})).

End Handler.

End GroupsRoute.

(** ** What the specification says, in its own words

    These definitions follow the specification's sentences, not the code;
    the theorems of Part II compare the code with them. *)

Module Spec.

(** "rule | condition | points": the sum of the points of the rules whose
    condition holds. *)
Definition totalPoints (rules : list (Z * bool)) : Z :=
  fold_right
    (fun (rule : Z * bool) acc => if snd rule then fst rule + acc else acc)
    0 rules.

(** The text of a stored coordinate is "lat,lon": what stands before the
    first comma, and what follows it, if there is a comma. *)
Fixpoint upToComma (text : string) : string :=
  match text with
  | EmptyString => EmptyString
  | String c rest =>
      if Ascii.eqb c ","%char then EmptyString else String c (upToComma rest)
  end.

Fixpoint afterComma (text : string) : option string :=
  match text with
  | EmptyString => None
  | String c rest =>
      if Ascii.eqb c ","%char then Some rest else afterComma rest
  end.

Section Rules.
Context (js : JSRuntime).

(** "haversine great-circle distance using Earth radius 6371 km", between
    two points given in degrees: with
    a = sin^2(dLat / 2) + sin^2(dLon / 2) * cos(lat1) * cos(lat2),
    the distance is 6371 * 2 * atan2(sqrt(a), sqrt(1 - a)). *)
Definition radians (degrees : float) : float :=
  (degrees * (Math_PI / 180))%float.

Definition sinSquared (angle : float) : float :=
  (Math_sin js angle * Math_sin js angle)%float.

Definition greatCircleKm (p q : Geo.point) : float :=
  let a :=
    (sinSquared (radians (fst q - fst p) / 2) +
     sinSquared (radians (snd q - snd p) / 2)
       * Math_cos js (radians (fst p)) * Math_cos js (radians (fst q)))%float
  in
  (6371 * (2 * Math_atan2 js (Math_sqrt a) (Math_sqrt (1 - a))))%float.

(** "[coordinate] lies within 5 km of [the] non-empty route polyline": some
    vertex of the polyline is at most 5 km away from the coordinate (the
    distance to a polyline is "the minimum over every vertex"); a rule whose
    coordinate or polyline is missing, or whose polyline is empty, does not
    hold. *)
Definition within5km (coordinate : option Geo.point)
    (polyline : option (list Geo.point)) : bool :=
  match coordinate, polyline with
  | Some p, Some vertices =>
      existsb (fun v => PrimFloat.leb (greatCircleKm p v) 5%float) vertices
  | _, _ => false
  end.

(** The candidate's "source coordinate": the latitude and the longitude
    that the stored text "lat,lon" holds; a trip stored without the text,
    or with an empty one, has none, and a text without a comma holds no
    longitude. *)
Definition storedCoordinate (text : option string) : option Geo.point :=
  match text with
  | None => None
  | Some EmptyString => None
  | Some s =>
      Some (parseFloat js (upToComma s),
            match afterComma s with
            | Some rest => parseFloat js (upToComma rest)
            | None => nan
            end)
  end.

(** Equality of two texts "case-insensitively". *)
Definition sameText (a b : string) : bool :=
  String.eqb (toLowerCase js a) (toLowerCase js b).

(** The rule table of section 4.3, rows in the order of the table. *)
Definition ruleTable (subjectDestination subjectDate subjectMode : string)
    (subjectSource subjectDest : option Geo.point)
    (subjectRoute : option (list Geo.point))
    (candidate : Trip.t) : list (Z * bool) :=
  [ (50, sameText subjectDestination (Trip.destination candidate));
    (40, within5km subjectSource (Trip.routeGeometry candidate));
    (40, within5km subjectDest (Trip.routeGeometry candidate));
    (30, within5km (storedCoordinate (Trip.sourceCoordinates candidate))
           subjectRoute);
    (30, String.eqb subjectDate (Trip.travelDate candidate));
    (20, sameText subjectMode (Trip.transportMode candidate)) ].

End Rules.

(** "the minimum of [distance(point, v)] over every vertex": [m] is the
    distance of some vertex and no vertex is closer. *)
Definition isMinimumOf (m : float) (distances : list float) : Prop :=
  In m distances /\ forall d, In d distances -> PrimFloat.leb m d = true.

(** The pair of trips a match record relates. *)
Definition pairOf (m : TripMatch.t) : Z * Z :=
  (TripMatch.tripId m, TripMatch.matchedTripId m).

(** "for every accepted or pending match between trip A and trip B there
    exists a mirror record (candidate trip id and subject trip id swapped)
    carrying the same score". *)
Definition mirrorOf (m m' : TripMatch.t) : Prop :=
  TripMatch.tripId m' = TripMatch.matchedTripId m /\
  TripMatch.matchedTripId m' = TripMatch.tripId m /\
  TripMatch.matchScore m' = TripMatch.matchScore m.

Definition mirrored (matches : list TripMatch.t) : Prop :=
  forall m, In m matches ->
    TripMatch.status m = "pending"%string \/
    TripMatch.status m = "accepted"%string ->
    exists m', In m' matches /\ mirrorOf m m'.

(** "Set status=accepted on both mirror records (the one just resolved and
    its reverse)": of a record that was not accepted before the acceptance
    and is accepted after it, every record in the other direction (trip id
    and matched trip id swapped) is accepted after it. *)
Definition acceptsBothDirections (before after : list TripMatch.t) : Prop :=
  forall i m0 m,
    nth_error before i = Some m0 -> nth_error after i = Some m ->
    TripMatch.status m0 <> "accepted"%string ->
    TripMatch.status m = "accepted"%string ->
    forall m', In m' after ->
      pairOf m' = (TripMatch.matchedTripId m, TripMatch.tripId m) ->
      TripMatch.status m' = "accepted"%string.

End Spec.

(** ** Notions used to state the properties *)

(** Every match record has its mirror, whatever its status: the form of
    the mirror invariant that the operations maintain step by step. *)
Definition allMirrored (matches : list TripMatch.t) : Prop :=
  forall m, In m matches -> exists m', In m' matches /\ Spec.mirrorOf m m'.

(** A handler is stable for a relation on stores when every run of it, however
    it completes, takes the store to a related one. *)
Definition stable {A : Type} (R : Store.t -> Store.t -> Prop)
    (m : Handler A) : Prop :=
  forall st, R (db st) (db (snd (m st))).

(** Every trip of the later store was there before or belongs to the user
    of the session. *)
Definition ownedBySession (w : World) (s s' : Store.t) : Prop :=
  forall t, In t (Store.trips s') ->
    In t (Store.trips s) \/
    getSession w = Ok (Some {| session_user := Some (Trip.userId t) |}).

(** Memberships refer to groups that exist or existed: their group ids are
    at most the AUTOINCREMENT counter of the groups (the foreign key of
    [group_members.group_id]). *)
Definition membersReferToGroups (s : Store.t) : Prop :=
  forall m, In m (Store.groupMembers s) ->
    GroupMember.groupId m <= Store.seq_groups s.


(** Whether a user is in a group. *)
Definition isMember (userId : string) (groupId : Z) (s : Store.t) : bool :=
  existsb (fun m => (GroupMember.groupId m =? groupId)
                    && String.eqb (GroupMember.userId m) userId)
    (Store.groupMembers s).

(** The number of records of a table for a pair of trips. *)
Definition countPair (pair : Z * Z) (matches : list TripMatch.t) : nat :=
  List.length
    (filter (fun m => (fst (Spec.pairOf m) =? fst pair)
                      && (snd (Spec.pairOf m) =? snd pair)) matches).

(** The tags of the rules that fire for a candidate, in the order of the
    rules; only rules 1 to 4 have one. *)
Definition firedTags (js : JSRuntime) (sd : TripsRoute.SanitizedData)
    (sourceCoords destCoords : option Geo.point)
    (routeGeometry : option (list Geo.point)) (candidate : Trip.t)
    : list string :=
  ((if String.eqb (toLowerCase js (TripsRoute.destination sd))
                  (toLowerCase js (Trip.destination candidate))
    then ["same_destination"] else [])
   ++ (if TripsRoute.routeRuleFires js sourceCoords
            (Trip.routeGeometry candidate)
       then ["pickup_along_route"] else [])
   ++ (if TripsRoute.routeRuleFires js destCoords
            (Trip.routeGeometry candidate)
       then ["dropoff_along_route"] else [])
   ++ (if TripsRoute.routeRuleFires js
            (TripsRoute.parseStoredCoordinates js
               (Trip.sourceCoordinates candidate))
            routeGeometry
       then ["routes_overlap"] else []))%list.

(** A text without a comma. *)
Fixpoint commaFree (s : string) : bool :=
  match s with
  | EmptyString => true
  | String c rest => negb (Ascii.eqb c ","%char) && commaFree rest
  end.

(** The request has no authenticated user. *)
Definition noSessionUser (w : World) : Prop :=
  getSession w = Ok None \/
  getSession w = Ok (Some {| session_user := None |}).

(** The six fields that trip creation requires. *)
Definition requiredFields : list string :=
  ["source"; "destination"; "travelDate"; "travelTime"; "transportMode";
   "optimizationMode"].

(** An error response with a code. *)
Definition isError (r : Response) (st : Z) (code : string) : Prop :=
  status r = st /\ exists message, payload r = ErrorBody message (Some code).

(** Every response that a handler returns early satisfies [P]. *)
Definition returnsOnly {A : Type} (P : Response -> Prop) (m : Handler A)
    : Prop :=
  forall st r st', m st = (Return r, st') -> P r.

(** A trip that is not older than another: its creation time is not before
    the other's. *)
Definition notOlder (a b : Trip.t) : Prop :=
  String.leb (Trip.createdAt b) (Trip.createdAt a) = true.

(** The number of pending match records of a trip. *)
Definition pendingCount (tripId : Z) (s : Store.t) : Z :=
  Z.of_nat
    (List.length
       (filter (TripsRoute.pendingMatchOf tripId) (Store.tripMatches s))).

(** Whether a candidate passes the threshold of the matching pass. *)
Definition passes (js : JSRuntime) (c : TripsRoute.Created)
    (candidate : Trip.t) : bool :=
  50 <? TripsRoute.matchScore
          (TripsRoute.scoreCandidate js (TripsRoute.sanitizedData c)
             (Some (TripsRoute.sourceCoords c))
             (Some (TripsRoute.destCoords c)) (TripsRoute.routeGeometry c)
             candidate).

(** Row ids and the trip ids that match records carry are at most the
    AUTOINCREMENT counters: the next id is fresh. *)
Definition keysWithinCounters (s : Store.t) : Prop :=
  (forall t, In t (Store.trips s) -> Trip.id t <= Store.seq_trips s) /\
  (forall m, In m (Store.tripMatches s) ->
     TripMatch.id m <= Store.seq_tripMatches s /\
     TripMatch.tripId m <= Store.seq_trips s /\
     TripMatch.matchedTripId m <= Store.seq_trips s) /\
  (forall g, In g (Store.groups s) -> Group.id g <= Store.seq_groups s) /\
  (forall m, In m (Store.groupMembers s) ->
     GroupMember.id m <= Store.seq_groupMembers s).

(** Every value with which a handler completes normally satisfies [Q]. *)
Definition completesOnly {A : Type} (Q : A -> Prop) (m : Handler A) : Prop :=
  forall st a st', m st = (Normal a, st') -> Q a.

(** A match record as it was, or with its status set to accepted. *)
Definition acceptedOrSame (m m' : TripMatch.t) : Prop :=
  m' = m \/ m' = TripMatch.with_status m "accepted".

(** What an acceptance may do to the store: the trips stay, the match
    records stay in place and may become accepted, and groups and
    memberships are only added. *)
Definition grownByAcceptance (s s' : Store.t) : Prop :=
  Store.trips s' = Store.trips s /\
  Forall2 acceptedOrSame (Store.tripMatches s) (Store.tripMatches s') /\
  (exists more, Store.groups s' = (Store.groups s ++ more)%list) /\
  (exists more,
     Store.groupMembers s' = (Store.groupMembers s ++ more)%list).

(** An error response of status 400, 401, 403 or 404, with its code. *)
Definition clientError (r : Response) : Prop :=
  (status r = 400 \/ status r = 401 \/ status r = 403 \/ status r = 404) /\
  exists message code, payload r = ErrorBody message (Some code).

(** A response of status 200 or 201 that carries a group. *)
Definition groupAnswer (r : Response) : Prop :=
  (status r = 200 \/ status r = 201) /\
  exists g members, payload r = GroupBody g members.

(** The primary keys: no two rows of a table have the same id. *)
Definition keysUnique (s : Store.t) : Prop :=
  NoDup (map Trip.id (Store.trips s)) /\
  NoDup (map TripMatch.id (Store.tripMatches s)) /\
  NoDup (map Group.id (Store.groups s)) /\
  NoDup (map GroupMember.id (Store.groupMembers s)).

(** The foreign keys of [trip_matches]: both trips of a match record
    exist. *)
Definition matchesReferToTrips (s : Store.t) : Prop :=
  forall m, In m (Store.tripMatches s) ->
    (exists t, In t (Store.trips s) /\ Trip.id t = TripMatch.tripId m) /\
    (exists t, In t (Store.trips s) /\ Trip.id t = TripMatch.matchedTripId m).

Definition consistent (s : Store.t) : Prop :=
  keysUnique s /\ keysWithinCounters s /\ matchesReferToTrips s.

(** The trips that the groups of the store belong to. *)
Definition groupTrips (s : Store.t) : list Z :=
  flat_map (fun g => match Group.tripId g with
                     | Some i => [i]
                     | None => []
                     end) (Store.groups s).

(** No trip has two groups. *)
Definition oneGroupPerTrip (s : Store.t) : Prop := NoDup (groupTrips s).

(** Who is in which group: the [(groupId, userId)] pairs of the
    memberships. *)
Definition memberships (s : Store.t) : list (Z * string) :=
  map (fun m => (GroupMember.groupId m, GroupMember.userId m))
    (Store.groupMembers s).

(** Nobody is in the same group twice. *)
Definition noDoubleMembership (s : Store.t) : Prop := NoDup (memberships s).

(** Match records relate trips of two different users. *)
Definition matchesBetweenUsers (s : Store.t) : Prop :=
  forall m t1 t2,
    In m (Store.tripMatches s) ->
    In t1 (Store.trips s) -> In t2 (Store.trips s) ->
    Trip.id t1 = TripMatch.tripId m ->
    Trip.id t2 = TripMatch.matchedTripId m ->
    Trip.userId t1 <> Trip.userId t2.

(** The state in which the handlers keep the memberships free of
    doubles. *)
Definition membershipsSound (s : Store.t) : Prop :=
  consistent s /\ membersReferToGroups s /\ matchesBetweenUsers s /\
  noDoubleMembership s.

(** ** A runtime to run the model on

    An instance of [JSRuntime] for evaluating the handlers on concrete
    requests.  Letter case and white space are handled for ASCII; sine,
    cosine and arc tangent are truncated power series, good to about ten
    digits for the angles that coordinates give; [parseFloat] reads plain
    decimals ([-12.5]); [numberToString] prints a number whose fraction is a
    short binary one ([12.5], [77.25]) the way JavaScript does; [parseInt]
    reads a number or the decimal digits at the start of a string.  The theorems of
    Part II hold for every runtime; this one only supplies closed examples. *)

Module Runtime.

Local Open Scope float_scope.

Definition sinSeries (x : float) : float :=
  let x2 := x * x in
  x * (1 - x2 / 6 * (1 - x2 / 20 * (1 - x2 / 42 * (1 - x2 / 72
    * (1 - x2 / 110 * (1 - x2 / 156 * (1 - x2 / 210))))))).

Definition cosSeries (x : float) : float :=
  let x2 := x * x in
  1 - x2 / 2 * (1 - x2 / 12 * (1 - x2 / 30 * (1 - x2 / 56
    * (1 - x2 / 90 * (1 - x2 / 132 * (1 - x2 / 182)))))).

Definition atanSeries (t : float) : float :=
  let t2 := t * t in
  t * (1 - t2 * (1 / 3 - t2 * (1 / 5 - t2 * (1 / 7 - t2 * (1 / 9
    - t2 * (1 / 11 - t2 / 13)))))).

(** [tan (a / 2)] from [tan a]. *)
Definition halfAngle (t : float) : float := t / (1 + sqrt (1 + t * t)).

Definition atan (t : float) : float :=
  8 * atanSeries (halfAngle (halfAngle (halfAngle t))).

Definition atan2 (y x : float) : float :=
  if x =? 0 then
    if y =? 0 then 0 else if 0 <? y then Math_PI / 2 else - (Math_PI / 2)
  else if 0 <? x then atan (y / x)
  else if y <? 0 then atan (y / x) - Math_PI
  else atan (y / x) + Math_PI.

Local Open Scope Z_scope.

Definition floatOfZ (z : Z) : float :=
  if z <? 0 then PrimFloat.opp (PrimFloat.of_uint63 (Uint63.of_Z (- z)))
  else PrimFloat.of_uint63 (Uint63.of_Z z).

(** The integer part, towards zero; [None] for [NaN] and the infinities. *)
Definition truncate (x : float) : option Z :=
  match Prim2SF x with
  | S754_zero _ => Some 0
  | S754_finite s m e =>
      let magnitude :=
        if 0 <=? e then Z.pos m * 2 ^ e else Z.pos m / 2 ^ (- e) in
      Some (if s then - magnitude else magnitude)
  | _ => None
  end.

Definition digitValue (c : ascii) : option Z :=
  let n := Z.of_nat (nat_of_ascii c) in
  if (48 <=? n) && (n <=? 57) then Some (n - 48) else None.

(** The decimal digits at the start of [s]: their value, how many there
    are, and what follows them. *)
Fixpoint readDigits (s : string) (acc : Z) (count : nat)
    : Z * nat * string :=
  match s with
  | String c rest =>
      match digitValue c with
      | Some d => readDigits rest (10 * acc + d) (S count)
      | None => (acc, count, s)
      end
  | EmptyString => (acc, count, s)
  end.

Definition isSpace (c : ascii) : bool :=
  let n := nat_of_ascii c in
  (Nat.eqb n 32 || (Nat.leb 9 n && Nat.leb n 13))%bool.

Fixpoint trimStart (s : string) : string :=
  match s with
  | String c rest => if isSpace c then trimStart rest else s
  | EmptyString => EmptyString
  end.

Fixpoint trimEnd (s : string) : string :=
  match s with
  | String c rest =>
      match trimEnd rest with
      | EmptyString => if isSpace c then EmptyString else String c EmptyString
      | kept => String c kept
      end
  | EmptyString => EmptyString
  end.

Definition trim (s : string) : string := trimEnd (trimStart s).

Definition lowerChar (c : ascii) : ascii :=
  let n := nat_of_ascii c in
  if (Nat.leb 65 n && Nat.leb n 90)%bool then ascii_of_nat (n + 32) else c.

Fixpoint toLowerCase (s : string) : string :=
  match s with
  | String c rest => String (lowerChar c) (toLowerCase rest)
  | EmptyString => EmptyString
  end.

(** An optional minus sign. *)
Definition readSign (s : string) : bool * string :=
  match s with
  | String "-"%char rest => (true, rest)
  | String "+"%char rest => (false, rest)
  | _ => (false, s)
  end.

Definition parseFloat (s : string) : float :=
  let (negative, s1) := readSign (trimStart s) in
  let '(whole, n1, s2) := readDigits s1 0 0%nat in
  let '(fraction, n2, _) :=
    match s2 with
    | String "."%char rest => readDigits rest 0 0%nat
    | _ => (0, 0%nat, s2)
    end in
  if (Nat.eqb n1 0 && Nat.eqb n2 0)%bool then nan
  else
    let scale := 10 ^ Z.of_nat n2 in
    let magnitude :=
      PrimFloat.div (floatOfZ (whole * scale + fraction)) (floatOfZ scale) in
    if negative then PrimFloat.opp magnitude else magnitude.

Definition parseInt (v : json) : option Z :=
  match v with
  | JStr s =>
      let (negative, s1) := readSign (trimStart s) in
      let '(whole, n1, _) := readDigits s1 0 0%nat in
      if Nat.eqb n1 0 then None
      else Some (if negative then - whole else whole)
  | JNum x => truncate x
  | _ => None
  end.

Definition digitChar (d : Z) : ascii := ascii_of_nat (Z.to_nat (48 + d)).

Fixpoint printDigits (fuel : nat) (n : Z) (acc : string) : string :=
  match fuel with
  | O => acc
  | S fuel' =>
      let acc' := String (digitChar (n mod 10)) acc in
      if n / 10 =? 0 then acc' else printDigits fuel' (n / 10) acc'
  end.

Definition printZ (n : Z) : string :=
  if n <? 0 then String "-"%char (printDigits 400 (- n) EmptyString)
  else printDigits 400 n EmptyString.

(** The digits of a fraction in [0, 1), until it is used up. *)
Fixpoint printFraction (fuel : nat) (f : float) : string :=
  match fuel with
  | O => EmptyString
  | S fuel' =>
      if PrimFloat.eqb f 0 then EmptyString
      else
        let scaled := PrimFloat.mul f 10 in
        match truncate scaled with
        | Some d =>
            String (digitChar d)
              (printFraction fuel' (PrimFloat.sub scaled (floatOfZ d)))
        | None => EmptyString
        end
  end.

Definition numberToString (x : float) : string :=
  match truncate x with
  | None =>
      if PrimFloat.is_nan x then "NaN"%string
      else if PrimFloat.ltb x 0 then "-Infinity"%string else "Infinity"%string
  | Some whole =>
      let magnitude := PrimFloat.abs x in
      let fraction :=
        printFraction 20 (PrimFloat.sub magnitude (floatOfZ (Z.abs whole))) in
      let sign :=
        if PrimFloat.ltb x 0 then "-"%string else EmptyString in
      match fraction with
      | EmptyString => (sign ++ printZ (Z.abs whole))%string
      | _ => (sign ++ printZ (Z.abs whole) ++ "." ++ fraction)%string
      end
  end.

Definition js : JSRuntime :=
  Build_JSRuntime sinSeries cosSeries atan2 parseFloat parseInt
    numberToString toLowerCase trim.

End Runtime.

(** ** A scenario

    Four stored trips and the request of a fifth, on the runtime above:
    Dave asks for Bangalore to Chennai by car on 2025-01-10.  Alice's trip
    shares only the destination; Bob's shares the destination and the date
    and runs along the same road; Dave's own earlier trip and Carol's
    completed one are no candidates. *)

Module Scenario.

Import TripsRoute.
Local Open Scope float_scope.

Definition mkTrip (id : Z) (userId source destination : string)
    (sourceCoordinates : option string) (travelDate transportMode : string)
    (status : string) (routeGeometry : option (list Geo.point)) : Trip.t :=
  {| Trip.id := id; Trip.userId := userId; Trip.source := source;
     Trip.destination := destination;
     Trip.sourceCoordinates := sourceCoordinates;
     Trip.destinationCoordinates := None;
     Trip.travelDate := travelDate; Trip.travelTime := "09:00";
     Trip.transportMode := transportMode;
     Trip.optimizationMode := "fastest"; Trip.status := status;
     Trip.routeData := JNull; Trip.routeGeometry := routeGeometry;
     Trip.createdAt := "2025-01-01T00:00:00.000Z";
     Trip.updatedAt := "2025-01-01T00:00:00.000Z" |}.

Definition tripAlice : Trip.t :=
  mkTrip 1 "alice" "Mysore" "chennai" None "2025-02-01" "bus" "active" None.

Definition tripBob : Trip.t :=
  mkTrip 2 "bob" "Hosur" "Chennai" (Some "13,78.5") "2025-01-10" "train"
    "active" (Some [(13, 78.5); (13, 80.25)]).

Definition tripDave : Trip.t :=
  mkTrip 3 "dave" "Bangalore" "Chennai" None "2025-01-10" "car" "active" None.

Definition tripCarol : Trip.t :=
  mkTrip 4 "carol" "Bangalore" "Chennai" None "2025-01-10" "car" "completed"
    None.

Definition store0 : Store.t :=
  {| Store.trips := [tripAlice; tripBob; tripDave; tripCarol];
     Store.tripMatches := []; Store.groups := []; Store.groupMembers := [];
     Store.seq_trips := 4; Store.seq_tripMatches := 0;
     Store.seq_groups := 0; Store.seq_groupMembers := 0 |}.

Definition requestBody : json :=
  JObj [ ("source", JStr "  Bangalore ");
         ("destination", JStr "Chennai");
         ("travelDate", JStr "2025-01-10");
         ("travelTime", JStr "08:30");
         ("transportMode", JStr "car");
         ("optimizationMode", JStr "fastest") ]%string.

Definition road : list Geo.point := [(13, 77.5); (13, 78.5); (13, 80.25)].

Definition geocoder (location : string) : option Geo.point :=
  if String.eqb location "Bangalore" then Some (13, 77.5)
  else if String.eqb location "Chennai" then Some (13, 80.25)
  else None.

Definition clockAt (n : nat) : string :=
  ("2025-01-05T10:00:0" ++ Runtime.printZ (Z.of_nat n) ++ ".000Z")%string.

Definition world : World :=
  {| getSession := Ok (Some {| session_user := Some "dave"%string |});
     requestJson := Ok requestBody;
     pathPart3 := None;
     geocode := geocoder;
     calculateRouteGeometry := fun _ _ _ =>
       Some {| coordinates := road; distance := 300000; duration := 18000 |};
     clock := clockAt;
     dbFault := fun _ => None |}.

(** The same request when the routing service gives no route. *)
Definition worldNoRoute : World :=
  {| getSession := getSession world; requestJson := requestJson world;
     pathPart3 := None; geocode := geocoder;
     calculateRouteGeometry := fun _ _ _ => None;
     clock := clockAt; dbFault := fun _ => None |}.

(** The same request when the second database call, the loading of the
    candidates, throws. *)
Definition worldSelectFails : World :=
  {| getSession := getSession world; requestJson := requestJson world;
     pathPart3 := None; geocode := geocoder;
     calculateRouteGeometry := calculateRouteGeometry world;
     clock := clockAt;
     dbFault := fun n => if Nat.eqb n 1 then Some "SQLITE_BUSY"%string
                         else None |}.

(** The same request with a destination the geocoder does not know. *)
Definition worldUnknownPlace : World :=
  {| getSession := getSession world;
     requestJson := Ok (JObj [ ("source", JStr "Bangalore");
                                   ("destination", JStr "Atlantis");
                                   ("travelDate", JStr "2025-01-10");
                                   ("travelTime", JStr "08:30");
                                   ("transportMode", JStr "car");
                                   ("optimizationMode", JStr "fastest") ]%string);
     pathPart3 := None; geocode := geocoder;
     calculateRouteGeometry := calculateRouteGeometry world;
     clock := clockAt; dbFault := fun _ => None |}.

(** The same request with a [userId] in the body. *)
Definition worldWithUserId : World :=
  {| getSession := getSession world;
     requestJson := Ok (JObj [ ("source", JStr "Bangalore");
                                   ("destination", JStr "Chennai");
                                   ("travelDate", JStr "2025-01-10");
                                   ("travelTime", JStr "08:30");
                                   ("transportMode", JStr "car");
                                   ("optimizationMode", JStr "fastest");
                                   ("userId", JStr "alice") ]%string);
     pathPart3 := None; geocode := geocoder;
     calculateRouteGeometry := calculateRouteGeometry world;
     clock := clockAt; dbFault := fun _ => None |}.

Definition sanitized : SanitizedData :=
  {| source := "Bangalore"; destination := "Chennai";
     travelDate := "2025-01-10"; travelTime := "08:30";
     transportMode := "car"; optimizationMode := "fastest";
     routeData := JNull |}.

(** The row of the new trip, and what the first half of the handler hands
    to the matching pass. *)
Definition newTrip : Trip.t :=
  {| Trip.id := 5; Trip.userId := "dave"; Trip.source := "Bangalore";
     Trip.destination := "Chennai";
     Trip.sourceCoordinates := Some "13,77.5"%string;
     Trip.destinationCoordinates := Some "13,80.25"%string;
     Trip.travelDate := "2025-01-10"; Trip.travelTime := "08:30";
     Trip.transportMode := "car"; Trip.optimizationMode := "fastest";
     Trip.status := "active"; Trip.routeData := JNull;
     Trip.routeGeometry := Some road;
     Trip.createdAt := clockAt 0; Trip.updatedAt := clockAt 0 |}.

Definition created0 : Created :=
  {| createdTrip := newTrip; sessionUserId := "dave";
     sanitizedData := sanitized; sourceCoords := (13, 77.5);
     destCoords := (13, 80.25); routeGeometry := Some road |}.

Definition store1 : Store.t :=
  {| Store.trips := [tripAlice; tripBob; tripDave; tripCarol; newTrip];
     Store.tripMatches := []; Store.groups := []; Store.groupMembers := [];
     Store.seq_trips := 5; Store.seq_tripMatches := 0;
     Store.seq_groups := 0; Store.seq_groupMembers := 0 |}.

Definition st1 : HState := {| db := store1; dbCalls := 1; clockTicks := 1 |}.

(** Later: Erin has a trip too, the matches of Dave's trip with Bob's and
    with Erin's are stored, and Dave accepts them one after the other. *)
Definition tripErin : Trip.t :=
  mkTrip 6 "erin" "Vellore" "Chennai" None "2025-01-10" "car" "active" None.

Definition mkMatch (id tripId matchedTripId matchScore : Z) : TripMatch.t :=
  {| TripMatch.id := id; TripMatch.tripId := tripId;
     TripMatch.matchedTripId := matchedTripId;
     TripMatch.matchScore := matchScore; TripMatch.status := "pending";
     TripMatch.createdAt := clockAt 1 |}.

Definition store2 : Store.t :=
  {| Store.trips :=
       [tripAlice; tripBob; tripDave; tripCarol; newTrip; tripErin];
     Store.tripMatches :=
       [mkMatch 1 5 2 150; mkMatch 2 2 5 150;
        mkMatch 3 5 6 100; mkMatch 4 6 5 100];
     Store.groups := []; Store.groupMembers := [];
     Store.seq_trips := 6; Store.seq_tripMatches := 4;
     Store.seq_groups := 0; Store.seq_groupMembers := 0 |}.

(** [POST /api/trips/5/accept-match] with [{ matchId: id }], by Dave. *)
Definition worldAccept (matchId : json) : World :=
  {| getSession := Ok (Some {| session_user := Some "dave"%string |});
     requestJson := Ok (JObj [("matchId"%string, matchId)]);
     pathPart3 := Some "5"%string;
     geocode := geocoder;
     calculateRouteGeometry := fun _ _ _ => None;
     clock := clockAt;
     dbFault := fun _ => None |}.

(** The store once Dave has accepted the match with Bob's trip. *)
Definition store3 : Store.t :=
  Eval vm_compute in
    db (snd (AcceptRoute.POST Runtime.js (worldAccept (JNum 1))
               (initial store2))).

(** The same acceptance when the fourth database call of the request, the
    second of the two updates, throws. *)
Definition worldSecondUpdateFails : World :=
  {| getSession := getSession (worldAccept (JNum 1));
     requestJson := requestJson (worldAccept (JNum 1));
     pathPart3 := Some "5"%string;
     geocode := geocoder;
     calculateRouteGeometry := fun _ _ _ => None;
     clock := clockAt;
     dbFault := fun n => if Nat.eqb n 3 then Some "SQLITE_BUSY"%string
                         else None |}.

(** A trip of Frank's that shares neither destination, date nor mode with
    Dave's request, but starts 3.5 km north of Dave's source and passes
    there: its source is a thirty-second of a degree of latitude away, its
    first route vertex twice as far (7 km). *)
Definition tripNearby : Trip.t :=
  mkTrip 7 "frank" "Yelahanka" "Mysore" (Some "13.03125,77.5") "2025-03-01"
    "bus" "active" (Some [(13.0625, 77.5); (13.03125, 77.5)]).

(** Dave's request with another body. *)
Definition worldOf (body : json) : World :=
  {| getSession := getSession world; requestJson := Ok body;
     pathPart3 := None; geocode := geocoder;
     calculateRouteGeometry := calculateRouteGeometry world;
     clock := clockAt; dbFault := fun _ => None |}.

(** A request without a session, whose body cannot be parsed. *)
Definition worldAnonymous : World :=
  {| getSession := Ok None;
     requestJson := Err "Unexpected end of JSON input";
     pathPart3 := Some "5"%string; geocode := geocoder;
     calculateRouteGeometry := calculateRouteGeometry world;
     clock := clockAt; dbFault := fun _ => None |}.

(** A body with an empty travel time, and one whose source is a number. *)
Definition bodyWithoutTime : json :=
  JObj [ ("source", JStr "Bangalore");
         ("destination", JStr "Chennai");
         ("travelDate", JStr "2025-01-10");
         ("travelTime", JStr "");
         ("transportMode", JStr "car");
         ("optimizationMode", JStr "fastest") ]%string.

Definition bodyWithNumber : json :=
  JObj [ ("source", JNum 560001);
         ("destination", JStr "Chennai");
         ("travelDate", JStr "2025-01-10");
         ("travelTime", JStr "08:30");
         ("transportMode", JStr "car");
         ("optimizationMode", JStr "fastest") ]%string.

(** A body whose travel time is white space. *)
Definition bodyWithBlankTime : json :=
  JObj [ ("source", JStr "Bangalore");
         ("destination", JStr "Chennai");
         ("travelDate", JStr "2025-01-10");
         ("travelTime", JStr "   ");
         ("transportMode", JStr "car");
         ("optimizationMode", JStr "fastest") ]%string.

(** Dave's listing of the trips of [store2]. *)
Definition listed2 : list TripWithMatchCount :=
  [ {| trip := newTrip; matchCount := 2 |};
    {| trip := tripDave; matchCount := 0 |} ].

(** A route request from three boarding points, the second of which the
    geocoder does not know. *)
Definition routeWorld : RouteRoute.RouteWorld :=
  {| RouteRoute.routeRequest :=
       Ok {| RouteRoute.boardingPoints :=
               Some ["Bangalore"; "Atlantis"; "Hosur"]%string;
             RouteRoute.destination := Some "Chennai"%string;
             RouteRoute.transportMode := Some "car"%string;
             RouteRoute.optimizationMode := Some "cheapest"%string |};
     RouteRoute.geocodeAt := fun _ location =>
       if String.eqb location "Bangalore" then Some (77.5, 13)
       else if String.eqb location "Hosur" then Some (77.75, 12.75)
       else if String.eqb location "Chennai" then Some (80.25, 13)
       else None;
     RouteRoute.calculateRouteAt := fun n _ _ _ =>
       Some {| RouteRoute.geometry :=
                 {| coordinates := road;
                    distance := if Nat.eqb n 0 then 300000 else 260000;
                    duration := 18000 |};
               RouteRoute.instructions := JArr [] |} |}.

(** [POST /api/groups] with [{ name: " Second group ", tripId: 5 }], by
    Dave. *)
Definition worldSecondGroup : World :=
  {| getSession := getSession world;
     requestJson := Ok (JObj [ ("name", JStr " Second group ");
                               ("tripId", JNum 5) ]%string);
     pathPart3 := None; geocode := geocoder;
     calculateRouteGeometry := calculateRouteGeometry world;
     clock := clockAt; dbFault := fun _ => None |}.

End Scenario.

(** * Part II: properties *)

(** ** Order facts on binary64 values *)

Module FloatOrder.

Local Open Scope float_scope.

Lemma pos_cont_lt_trans (a b c : positive) :
  Pos.compare_cont Eq a b = Lt -> Pos.compare_cont Eq b c = Lt ->
  Pos.compare_cont Eq a c = Lt.
Proof.
  change (Pos.compare_cont Eq a b) with (Pos.compare a b).
  change (Pos.compare_cont Eq b c) with (Pos.compare b c).
  change (Pos.compare_cont Eq a c) with (Pos.compare a c).
  rewrite !Pos.compare_lt_iff. lia.
Qed.

Lemma pos_cont_gt_trans (a b c : positive) :
  Pos.compare_cont Eq a b = Gt -> Pos.compare_cont Eq b c = Gt ->
  Pos.compare_cont Eq a c = Gt.
Proof.
  change (Pos.compare_cont Eq a b) with (Pos.compare a b).
  change (Pos.compare_cont Eq b c) with (Pos.compare b c).
  change (Pos.compare_cont Eq a c) with (Pos.compare a c).
  rewrite !Pos.compare_gt_iff. lia.
Qed.

Lemma SFcompare_refl (x : spec_float) :
  x <> S754_nan -> SFcompare x x = Some Eq.
Proof.
  destruct x as [s|s| |s m e]; simpl; intros Hx.
  - reflexivity.
  - destruct s; reflexivity.
  - congruence.
  - change (Pos.compare_cont Eq m m) with (Pos.compare m m).
    rewrite Z.compare_refl, Pos.compare_refl. destruct s; reflexivity.
Qed.

Lemma SFcompare_Lt_trans (x y z : spec_float) :
  SFcompare x y = Some Lt -> SFcompare y z = Some Lt ->
  SFcompare x z = Some Lt.
Proof.
  destruct x as [sx|sx| |sx mx ex], y as [sy|sy| |sy my ey],
           z as [sz|sz| |sz mz ez];
    simpl; try discriminate;
    try destruct sx; try destruct sy; try destruct sz;
    simpl; try discriminate; try reflexivity.
  - destruct (Z.compare_spec ex ey), (Z.compare_spec ey ez);
      try discriminate; subst.
    + rewrite Z.compare_refl.
      destruct (Pos.compare_cont Eq mx my) eqn:E1; try discriminate.
      destruct (Pos.compare_cont Eq my mz) eqn:E2; try discriminate.
      intros _ _. now rewrite (pos_cont_gt_trans _ _ _ E1 E2).
    + intros _ _. destruct (Z.compare_spec ey ez); try lia. reflexivity.
    + intros _ _. destruct (Z.compare_spec ex ez); try lia. reflexivity.
    + intros _ _. destruct (Z.compare_spec ex ez); try lia. reflexivity.
  - destruct (Z.compare_spec ex ey), (Z.compare_spec ey ez);
      try discriminate; subst.
    + rewrite Z.compare_refl.
      destruct (Pos.compare_cont Eq mx my) eqn:E1; try discriminate.
      destruct (Pos.compare_cont Eq my mz) eqn:E2; try discriminate.
      intros _ _. now rewrite (pos_cont_lt_trans _ _ _ E1 E2).
    + intros _ _. destruct (Z.compare_spec ey ez); try lia. reflexivity.
    + intros _ _. destruct (Z.compare_spec ex ez); try lia. reflexivity.
    + intros _ _. destruct (Z.compare_spec ex ez); try lia. reflexivity.
Qed.

Lemma SFcompare_antisym (x y : spec_float) :
  SFcompare y x = option_map CompOpp (SFcompare x y).
Proof.
  destruct x as [sx|sx| |sx mx ex], y as [sy|sy| |sy my ey];
    simpl; try reflexivity;
    try destruct sx; try destruct sy; simpl; try reflexivity;
    rewrite (Z.compare_antisym ex ey);
    destruct (Z.compare ex ey); simpl; try reflexivity;
    change (Pos.compare_cont Eq my mx) with (Pos.compare my mx);
    change (Pos.compare_cont Eq mx my) with (Pos.compare mx my);
    rewrite (Pos.compare_antisym mx my);
    destruct (Pos.compare mx my); reflexivity.
Qed.

Lemma is_nan_spec (x : float) :
  is_nan x = false <-> Prim2SF x <> S754_nan.
Proof.
  unfold is_nan. rewrite FloatAxioms.eqb_spec. unfold SFeqb. split.
  - intros H E. rewrite E in H. discriminate.
  - intros H. now rewrite (SFcompare_refl _ H).
Qed.

Lemma ltb_irrefl (x : float) : (x <? x) = false.
Proof.
  rewrite ltb_spec. unfold SFltb.
  destruct (Prim2SF x) eqn:E; try reflexivity;
    rewrite SFcompare_refl; try reflexivity; discriminate.
Qed.

Lemma ltb_trans (x y z : float) :
  (x <? y) = true -> (y <? z) = true -> (x <? z) = true.
Proof.
  rewrite !ltb_spec. unfold SFltb. intros Hxy Hyz.
  destruct (SFcompare (Prim2SF x) (Prim2SF y)) as [[| |]|] eqn:E1;
    try discriminate.
  destruct (SFcompare (Prim2SF y) (Prim2SF z)) as [[| |]|] eqn:E2;
    try discriminate.
  now rewrite (SFcompare_Lt_trans _ _ _ E1 E2).
Qed.

Lemma ltb_asym (x y : float) : (x <? y) = true -> (y <? x) = false.
Proof.
  intros H. destruct (y <? x) eqn:E; [|reflexivity].
  pose proof (ltb_trans _ _ _ H E) as C. now rewrite ltb_irrefl in C.
Qed.

(** Among numbers, "not below" is "at least". *)
Lemma not_ltb_leb (x y : float) :
  is_nan x = false -> is_nan y = false ->
  (x <? y) = false -> (y <=? x) = true.
Proof.
  rewrite !is_nan_spec, ltb_spec, leb_spec. unfold SFltb, SFleb.
  intros Hx Hy. rewrite (SFcompare_antisym (Prim2SF x) (Prim2SF y)).
  destruct (SFcompare (Prim2SF x) (Prim2SF y)) as [[| |]|] eqn:E;
    simpl; try reflexivity; try discriminate.
  destruct (Prim2SF x), (Prim2SF y); simpl in E; try discriminate;
    congruence.
Qed.

(** Only infinity is not below infinity. *)
Lemma not_below_infinity (x : float) :
  is_nan x = false -> (x <? infinity) = false -> x = infinity.
Proof.
  rewrite is_nan_spec, ltb_spec. unfold SFltb. intros Hx H.
  apply Prim2SF_inj.
  change (Prim2SF infinity) with (S754_infinity false) in *.
  destruct (Prim2SF x) as [s|s| |s m e]; simpl in H;
    try destruct s; try discriminate; try reflexivity; congruence.
Qed.

End FloatOrder.

Module FloatPreorder.
Import FloatOrder.
Local Open Scope float_scope.

(** The comparison is a total preorder on the values that are numbers: if
    [x] is not above [y] and [y] is not above [z], then [x] is not above
    [z], and it is below [z] as soon as one of the two steps is strict. *)
Lemma SFcompare_not_Gt_trans (x y z : spec_float) (c1 c2 : comparison) :
  SFcompare x y = Some c1 -> SFcompare y z = Some c2 ->
  c1 <> Gt -> c2 <> Gt ->
  exists c3, SFcompare x z = Some c3 /\ c3 <> Gt /\
             (c1 = Lt \/ c2 = Lt -> c3 = Lt).
Proof.
  intros H1 H2 N1 N2.
  destruct c1, c2; try congruence; clear N1 N2;
  revert H1 H2;
  destruct x as [sx|sx| |sx mx ex], y as [sy|sy| |sy my ey],
           z as [sz|sz| |sz mz ez];
    simpl; try discriminate;
    try destruct sx; try destruct sy; try destruct sz;
    simpl; try discriminate;
    try (intros _ _; eexists; split; [reflexivity|split; [discriminate|tauto]]);
    try (intros _ _; eexists; split;
         [reflexivity|split; [discriminate|intros; reflexivity]]).
  all: repeat match goal with
         | |- context [Pos.compare_cont Eq ?a ?b] =>
             change (Pos.compare_cont Eq a b) with (Pos.compare a b)
         end.
  all: destruct (Z.compare_spec ex ey); subst; try discriminate;
       destruct (Z.compare_spec ey ez); subst; try discriminate;
       try destruct (Pos.compare_spec mx my); subst; try discriminate;
       try destruct (Pos.compare_spec my mz); subst; try discriminate;
       intros _ _.
  all: try (destruct (Z.compare_spec ex ez); subst; try lia).
  all: try (destruct (Z.compare_spec ez ez); subst; try lia).
  all: try (destruct (Pos.compare_spec mx mz); subst; try lia).
  all: try (destruct (Pos.compare_spec mz mz); subst; try lia).
  all: try (eexists; split;
            [reflexivity|split; [discriminate|intros; try reflexivity; tauto]]).
Qed.

Lemma ltb_not_nan (x y : float) :
  (x <? y) = true -> is_nan x = false /\ is_nan y = false.
Proof.
  rewrite !is_nan_spec, ltb_spec. unfold SFltb.
  destruct (Prim2SF x), (Prim2SF y); simpl; try discriminate;
    intros _; split; discriminate.
Qed.

Lemma leb_not_nan (x y : float) :
  (x <=? y) = true -> is_nan x = false /\ is_nan y = false.
Proof.
  rewrite !is_nan_spec, leb_spec. unfold SFleb.
  destruct (Prim2SF x), (Prim2SF y); simpl; try discriminate;
    intros _; split; discriminate.
Qed.

Lemma leb_trans (x y z : float) :
  (x <=? y) = true -> (y <=? z) = true -> (x <=? z) = true.
Proof.
  rewrite !leb_spec. unfold SFleb. intros Hxy Hyz.
  destruct (SFcompare (Prim2SF x) (Prim2SF y)) as [c1|] eqn:E1;
    [|discriminate].
  destruct (SFcompare (Prim2SF y) (Prim2SF z)) as [c2|] eqn:E2;
    [|discriminate].
  destruct (SFcompare_not_Gt_trans _ _ _ _ _ E1 E2) as (c3 & E3 & N3 & _).
  - intros ->. discriminate.
  - intros ->. discriminate.
  - rewrite E3. destruct c3; congruence.
Qed.

(** Among numbers, [x < z] puts any third number above [x] or below [z]. *)
Lemma ltb_between (x y z : float) :
  is_nan y = false -> (x <? z) = true ->
  (x <? y) = true \/ (y <? z) = true.
Proof.
  intros Hy Hxz.
  destruct (ltb_not_nan _ _ Hxz) as [Hx Hz].
  destruct (x <? y) eqn:Hxy; [now left|].
  destruct (y <? z) eqn:Hyz; [now right|]. exfalso.
  pose proof (not_ltb_leb _ _ Hx Hy Hxy) as L1.
  pose proof (not_ltb_leb _ _ Hy Hz Hyz) as L2.
  pose proof (leb_trans _ _ _ L2 L1) as L3.
  revert Hxz L3. rewrite ltb_spec, leb_spec. unfold SFltb, SFleb.
  rewrite (SFcompare_antisym (Prim2SF x) (Prim2SF z)).
  destruct (SFcompare (Prim2SF x) (Prim2SF z)) as [[| |]|]; simpl;
    discriminate.
Qed.

Lemma infinity_not_below (y : float) : (infinity <? y) = false.
Proof.
  rewrite ltb_spec. unfold SFltb.
  change (Prim2SF infinity) with (S754_infinity false).
  destruct (Prim2SF y) as [[|]|[|]| |[|] ? ?]; reflexivity.
Qed.

Lemma below_infinity (x y : float) : (x <? y) = true -> (x <? infinity) = true.
Proof.
  intros H. destruct (ltb_not_nan _ _ H) as [Hx Hy].
  destruct (x <? infinity) eqn:E; [reflexivity|].
  rewrite (not_below_infinity _ Hx E) in H.
  now rewrite infinity_not_below in H.
Qed.

End FloatPreorder.

(** ** Geodesy *)

Section GeodesyFacts.
Context (js : JSRuntime).
Local Open Scope float_scope.

(** The loop of [distanceToRoute], from any starting value [m0]: the result
    is [m0] or the distance of a vertex, it is [m0] or below it, and no
    vertex is below the result. *)
Lemma distanceToRoute_loop (pt : Geo.point) (L : list Geo.point) :
  forall m0,
    let r := fold_left (Geo.distanceToRoute_step js pt) L m0 in
    (r = m0 \/ exists v, In v L /\ Geo.calculateDistance js pt v = r) /\
    (r = m0 \/ (r <? m0) = true) /\
    (forall v, In v L -> (Geo.calculateDistance js pt v <? r) = false).
Proof.
  induction L as [|v L IH]; intros m0; simpl.
  - repeat split; auto. intros v [].
  - specialize (IH (Geo.distanceToRoute_step js pt m0 v)).
    remember (Geo.distanceToRoute_step js pt m0 v) as m1 eqn:Hm1.
    destruct IH as (Ha & Hb & Hc).
    set (r := fold_left (Geo.distanceToRoute_step js pt) L m1) in *.
    unfold Geo.distanceToRoute_step in Hm1.
    set (d := Geo.calculateDistance js pt v) in *.
    destruct (d <? m0) eqn:Hd; subst m1.
    + repeat split.
      * right. destruct Ha as [Ha | (v' & Hin & Hv')].
        -- exists v. split; [now left | now symmetry].
        -- exists v'. split; [now right | assumption].
      * right. destruct Hb as [Hb | Hb].
        -- now rewrite Hb.
        -- exact (FloatOrder.ltb_trans _ _ _ Hb Hd).
      * intros v' [<- | Hin]; [|now apply Hc].
        fold d. destruct Hb as [Hb | Hb].
        -- rewrite Hb. apply FloatOrder.ltb_irrefl.
        -- now apply FloatOrder.ltb_asym.
    + repeat split.
      * destruct Ha as [Ha | (v' & Hin & Hv')]; [now left|].
        right. exists v'. split; [now right | assumption].
      * assumption.
      * intros v' [<- | Hin]; [|now apply Hc].
        fold d. destruct Hb as [Hb | Hb].
        -- now rewrite Hb.
        -- destruct (d <? r) eqn:E; [|reflexivity].
           now rewrite (FloatOrder.ltb_trans _ _ _ E Hb) in Hd.
Qed.

(** C8: the distance from a point to a route is infinity for an empty
    route and otherwise the minimum of the haversine distances
    ([calculateDistance], Earth radius 6371 km) from the point to the
    vertices: it is the distance of some vertex and at most the distance of
    every vertex (a vertex whose distance is not a number is passed over by
    the comparison, so no vertex is ever below the result); and
    [isAlongRoute] with threshold [t], 5 by default, holds exactly when that
    distance is at most [t]. *)
Theorem distanceToRoute_is_vertex_minimum
    (pt : Geo.point) (L : list Geo.point) (t : float) :
  Geo.distanceToRoute js pt [] = infinity /\
  (L <> [] ->
   (forall v, In v L -> is_nan (Geo.calculateDistance js pt v) = false) ->
   Spec.isMinimumOf (Geo.distanceToRoute js pt L)
     (map (Geo.calculateDistance js pt) L)) /\
  (forall v, In v L ->
     (Geo.calculateDistance js pt v <? Geo.distanceToRoute js pt L) = false) /\
  (Geo.isAlongRoute js pt L t = true <->
   (Geo.distanceToRoute js pt L <=? t) = true) /\
  Geo.isAlongRoute_default js pt L = (Geo.distanceToRoute js pt L <=? 5).
Proof.
  destruct (distanceToRoute_loop pt L infinity) as (Ha & Hb & Hc).
  fold (Geo.distanceToRoute js pt L) in Ha, Hb, Hc.
  split; [reflexivity|]. split; [|split; [exact Hc|split; [tauto|reflexivity]]].
  intros Hne Hnum.
  assert (Hin : exists v, In v L /\
            Geo.calculateDistance js pt v = Geo.distanceToRoute js pt L).
  { destruct Ha as [Ha | Ha]; [|exact Ha].
    destruct L as [|v L']; [congruence|].
    exists v. split; [now left|].
    rewrite Ha. apply FloatOrder.not_below_infinity.
    - apply Hnum. now left.
    - rewrite <- Ha. apply Hc. now left. }
  destruct Hin as (v0 & Hv0 & Hd0). split.
  - rewrite <- Hd0. now apply in_map.
  - intros d Hd. apply in_map_iff in Hd. destruct Hd as (v & <- & Hv).
    apply FloatOrder.not_ltb_leb.
    + now apply Hnum.
    + rewrite <- Hd0. now apply Hnum.
    + now apply Hc.
Qed.

Lemma distanceToRoute_step_not_nan (pt v : Geo.point) (m : float) :
  is_nan m = false -> is_nan (Geo.distanceToRoute_step js pt m v) = false.
Proof.
  intros Hm. unfold Geo.distanceToRoute_step.
  destruct (Geo.calculateDistance js pt v <? m) eqn:E; [|assumption].
  now destruct (FloatPreorder.ltb_not_nan _ _ E).
Qed.

Lemma distanceToRoute_loop_not_nan (pt : Geo.point) (L : list Geo.point) :
  forall m0, is_nan m0 = false ->
    is_nan (fold_left (Geo.distanceToRoute_step js pt) L m0) = false.
Proof.
  induction L as [|v L IH]; intros m0 Hm; simpl; [assumption|].
  apply IH. now apply distanceToRoute_step_not_nan.
Qed.

Lemma distanceToRoute_not_nan (pt : Geo.point) (L : list Geo.point) :
  is_nan (Geo.distanceToRoute js pt L) = false.
Proof. now apply distanceToRoute_loop_not_nan. Qed.

(** For a threshold below infinity, the loop's minimum is within the
    threshold exactly when the distance to one of the vertices is. *)
Lemma distanceToRoute_within (pt : Geo.point) (L : list Geo.point)
    (t : float) :
  (infinity <=? t) = false ->
  (Geo.distanceToRoute js pt L <=? t) =
  existsb (fun v => Geo.calculateDistance js pt v <=? t) L.
Proof.
  intros Ht. apply Bool.eq_true_iff_eq. rewrite existsb_exists.
  destruct (distanceToRoute_loop pt L infinity) as (Hsome & _ & Hleast).
  fold (Geo.distanceToRoute js pt L) in Hsome, Hleast.
  pose proof (distanceToRoute_not_nan pt L) as Hnum.
  split.
  - intros Hle. destruct Hsome as [Hinf | (v & Hv & Hd)].
    + rewrite Hinf in Hle. congruence.
    + exists v. rewrite Hd. auto.
  - intros (v & Hv & Hd).
    destruct (FloatPreorder.leb_not_nan _ _ Hd) as [Hdn _].
    apply (FloatPreorder.leb_trans _ (Geo.calculateDistance js pt v));
      [|exact Hd].
    apply FloatOrder.not_ltb_leb; auto.
Qed.

End GeodesyFacts.

(** One degree of longitude on the equator is 6371 * pi / 180 km; of the
    three vertices the nearest to the origin is the second, half a degree
    away, which is not within 5 km. *)
Lemma distanceToRoute_is_vertex_minimum_witness :
  Geo.calculateDistance Runtime.js (0, 0)%float (0, 1)%float
    = 111.19492664455876%float /\
  Spec.isMinimumOf
    (Geo.distanceToRoute Runtime.js (0, 0)%float
       [(0, 1); (0, 0.5); (1, 1)]%float)
    (map (Geo.calculateDistance Runtime.js (0, 0)%float)
       [(0, 1); (0, 0.5); (1, 1)]%float) /\
  Geo.distanceToRoute Runtime.js (0, 0)%float
    [(0, 1); (0, 0.5); (1, 1)]%float = 55.597463322279388%float /\
  Geo.isAlongRoute Runtime.js (0, 0)%float
    [(0, 1); (0, 0.5); (1, 1)]%float 5 = false.
Proof.
  pose proof (distanceToRoute_is_vertex_minimum Runtime.js (0, 0)%float
                [(0, 1); (0, 0.5); (1, 1)]%float 5%float)
    as (_ & Hmin & _).
  split; [vm_compute; reflexivity|]. split; [|split; vm_compute; reflexivity].
  apply Hmin.
  - discriminate.
  - intros v [<- | [<- | [<- | []]]]; vm_compute; reflexivity.
Defined.

(** ** The scoring engine *)

Section ScoringFacts.
Context (js : JSRuntime).
Import TripsRoute.

(** The code's [calculateDistance] computes the haversine distance for the
    radius 6371, with degrees converted to radians. *)
Lemma calculateDistance_greatCircleKm (p q : Geo.point) :
  Geo.calculateDistance js p q = Spec.greatCircleKm js p q.
Proof. reflexivity. Qed.

(** The guard of a route rule and its inner test are the specification's
    "within 5 km of the non-empty polyline". *)
Lemma routeRuleFires_within5km (coords : option Geo.point)
    (geometry : option (list Geo.point)) :
  routeRuleFires js coords geometry = Spec.within5km js coords geometry.
Proof.
  destruct coords as [c|], geometry as [[|v g]|]; try reflexivity.
  unfold routeRuleFires, Spec.within5km, Geo.isAlongRoute.
  change (0 <? Z.of_nat (List.length (v :: g))) with true. cbv iota.
  rewrite (distanceToRoute_within js c (v :: g) 5%float eq_refl).
  induction (v :: g) as [|x l IH]; [reflexivity|]. simpl.
  now rewrite IH, calculateDistance_greatCircleKm.
Qed.

Lemma string_app_empty (s : string) : (s ++ "")%string = s.
Proof. induction s as [|c s IH]; simpl; [reflexivity|now rewrite IH]. Qed.

Lemma string_app_char (s : string) (c : ascii) (rest : string) :
  ((s ++ String c "") ++ rest)%string = (s ++ String c rest)%string.
Proof. induction s as [|d s IH]; simpl; [reflexivity|now rewrite IH]. Qed.

(** [split(',')] cuts the text at its first comma and goes on with what
    follows. *)
Lemma split_comma_from_first (text : string) :
  forall cur,
    split_comma_from cur text =
    (cur ++ Spec.upToComma text)%string ::
    match Spec.afterComma text with
    | Some rest => split_comma_from "" rest
    | None => []
    end.
Proof.
  induction text as [|c text IH]; intros cur; simpl.
  - now rewrite string_app_empty.
  - destruct (Ascii.eqb c ","); [now rewrite string_app_empty|].
    now rewrite IH, string_app_char.
Qed.

(** What the code reads from the stored text of the candidate's source is
    the candidate's source coordinate. *)
Lemma parseStoredCoordinates_storedCoordinate (text : option string) :
  parseStoredCoordinates js text = Spec.storedCoordinate js text.
Proof.
  destruct text as [[|c s]|]; try reflexivity.
  unfold parseStoredCoordinates, Spec.storedCoordinate, Geo.parseCoordinates,
    split_comma.
  change (truthy_string (String c s)) with true. cbv iota.
  rewrite (split_comma_from_first (String c s) "").
  cbn [map nth append].
  destruct (Spec.afterComma (String c s)) as [rest|]; [|reflexivity].
  now rewrite (split_comma_from_first rest "").
Qed.

(** Row by row, the conditions of the rule table are the tests of the
    loop body. *)
Lemma ruleTable_conditions
    (sd : SanitizedData) (sourceCoords destCoords : option Geo.point)
    (routeGeometry : option (list Geo.point)) (candidate : Trip.t) :
  map snd
    (Spec.ruleTable js (destination sd) (travelDate sd) (transportMode sd)
       sourceCoords destCoords routeGeometry candidate) =
  [ String.eqb (toLowerCase js (destination sd))
      (toLowerCase js (Trip.destination candidate));
    routeRuleFires js sourceCoords (Trip.routeGeometry candidate);
    routeRuleFires js destCoords (Trip.routeGeometry candidate);
    routeRuleFires js
      (parseStoredCoordinates js (Trip.sourceCoordinates candidate))
      routeGeometry;
    String.eqb (Trip.travelDate candidate) (travelDate sd);
    String.eqb (toLowerCase js (Trip.transportMode candidate))
      (toLowerCase js (transportMode sd)) ].
Proof.
  unfold Spec.ruleTable, Spec.sameText. cbn [map snd].
  rewrite !routeRuleFires_within5km, parseStoredCoordinates_storedCoordinate.
  rewrite (String.eqb_sym (Trip.travelDate candidate) (travelDate sd)).
  rewrite (String.eqb_sym (toLowerCase js (Trip.transportMode candidate))
             (toLowerCase js (transportMode sd))).
  reflexivity.
Qed.

(** The imperative accumulation equals the sum over the rule table. *)
Lemma scoreCandidate_totalPoints
    (sd : SanitizedData) (sourceCoords destCoords : option Geo.point)
    (routeGeometry : option (list Geo.point)) (candidate : Trip.t) :
  matchScore (scoreCandidate js sd sourceCoords destCoords routeGeometry
                candidate) =
  Spec.totalPoints
    (Spec.ruleTable js (destination sd) (travelDate sd) (transportMode sd)
       sourceCoords destCoords routeGeometry candidate).
Proof.
  unfold scoreCandidate, Spec.ruleTable, Spec.totalPoints, Spec.sameText.
  rewrite !routeRuleFires_within5km, parseStoredCoordinates_storedCoordinate.
  rewrite (String.eqb_sym (Trip.travelDate candidate) (travelDate sd)).
  rewrite (String.eqb_sym (toLowerCase js (Trip.transportMode candidate))
             (toLowerCase js (transportMode sd))).
  destruct (String.eqb (toLowerCase js (destination sd)) _),
    (Spec.within5km js sourceCoords _),
    (Spec.within5km js destCoords _),
    (Spec.within5km js _ routeGeometry),
    (String.eqb (travelDate sd) _),
    (String.eqb (toLowerCase js (transportMode sd)) _); reflexivity.
Qed.

(** The points of the table add up to at most 210. *)
Lemma ruleTable_bounds (a b c d e f : bool) :
  0 <= Spec.totalPoints [(50, a); (40, b); (40, c); (30, d); (30, e); (20, f)]
    <= 210.
Proof. destruct a, b, c, d, e, f; simpl; lia. Qed.

(** C1: the score the loop body computes for a subject and a candidate is
    the sum of the points of exactly the rules of the table whose condition
    holds (50 same destination, 40 pickup along route, 40 dropoff along
    route, 30 routes overlap, 30 same date, 20 same mode).  The conditions
    are those of the specification: "within 5 km of the polyline" is "some
    vertex is at most 5 km away", by the haversine distance for the radius
    6371, and the candidate's source coordinate is the pair that its stored
    text holds.  Row by row they are the tests of the loop body; a rule
    whose coordinate or polyline is missing, or whose polyline is empty,
    adds nothing; and the score lies between 0 and 210. *)
Theorem scoreCandidate_sums_rule_points
    (sd : SanitizedData) (sourceCoords destCoords : option Geo.point)
    (routeGeometry : option (list Geo.point)) (candidate : Trip.t) :
  let score :=
    matchScore (scoreCandidate js sd sourceCoords destCoords routeGeometry
                  candidate) in
  let table :=
    Spec.ruleTable js (destination sd) (travelDate sd) (transportMode sd)
      sourceCoords destCoords routeGeometry candidate in
  score = Spec.totalPoints table
  /\ map fst table = [50; 40; 40; 30; 30; 20]
  /\ map snd table =
       [ String.eqb (toLowerCase js (destination sd))
           (toLowerCase js (Trip.destination candidate));
         routeRuleFires js sourceCoords (Trip.routeGeometry candidate);
         routeRuleFires js destCoords (Trip.routeGeometry candidate);
         routeRuleFires js
           (parseStoredCoordinates js (Trip.sourceCoordinates candidate))
           routeGeometry;
         String.eqb (Trip.travelDate candidate) (travelDate sd);
         String.eqb (toLowerCase js (Trip.transportMode candidate))
           (toLowerCase js (transportMode sd)) ]
  /\ (forall coordinate, Spec.within5km js coordinate None = false)
  /\ (forall coordinate, Spec.within5km js coordinate (Some []) = false)
  /\ (forall polyline, Spec.within5km js None polyline = false)
  /\ 0 <= score <= 210.
Proof.
  cbv zeta. rewrite scoreCandidate_totalPoints.
  split; [reflexivity|]. split; [reflexivity|].
  split; [apply ruleTable_conditions|].
  split; [now intros [c|]|]. split; [now intros [c|]|].
  split; [reflexivity|]. apply ruleTable_bounds.
Qed.

End ScoringFacts.

(** In the scenario Bob's trip scores 150: same destination (50), Dave's
    destination on Bob's route (40), Bob's stored source "13,78.5" on
    Dave's road (30) and the same date (30).  Frank's trip scores 70: Dave's
    source is 3.5 km from a vertex of Frank's route (40) and Frank's stored
    source 3.5 km from Dave's road (30).  One degree of longitude on the
    equator is 6371 * pi / 180 km, and a vertex 7 km away is not within
    5 km. *)
Lemma scoreCandidate_sums_rule_points_witness :
  TripsRoute.matchScore
    (TripsRoute.scoreCandidate Runtime.js Scenario.sanitized
       (Some (13, 77.5)%float) (Some (13, 80.25)%float) (Some Scenario.road)
       Scenario.tripBob) = 150 /\
  map snd
    (Spec.ruleTable Runtime.js "Chennai" "2025-01-10" "car"
       (Some (13, 77.5)%float) (Some (13, 80.25)%float) (Some Scenario.road)
       Scenario.tripBob) = [true; false; true; true; true; false] /\
  TripsRoute.matchScore
    (TripsRoute.scoreCandidate Runtime.js Scenario.sanitized
       (Some (13, 77.5)%float) (Some (13, 80.25)%float) (Some Scenario.road)
       Scenario.tripNearby) = 70 /\
  map snd
    (Spec.ruleTable Runtime.js "Chennai" "2025-01-10" "car"
       (Some (13, 77.5)%float) (Some (13, 80.25)%float) (Some Scenario.road)
       Scenario.tripNearby) = [false; true; false; true; false; false] /\
  Spec.storedCoordinate Runtime.js (Some "13.03125,77.5")
    = Some (13.03125, 77.5)%float /\
  Spec.greatCircleKm Runtime.js (0, 0)%float (0, 1)%float
    = 111.19492664455876%float /\
  Spec.within5km Runtime.js (Some (13, 77.5)%float)
    (Some [(13.03125, 77.5)%float]) = true /\
  Spec.within5km Runtime.js (Some (13, 77.5)%float)
    (Some [(13.0625, 77.5)%float]) = false.
Proof.
  pose proof (scoreCandidate_sums_rule_points Runtime.js Scenario.sanitized
                (Some (13, 77.5)%float) (Some (13, 80.25)%float)
                (Some Scenario.road) Scenario.tripBob) as HBob.
  pose proof (scoreCandidate_sums_rule_points Runtime.js Scenario.sanitized
                (Some (13, 77.5)%float) (Some (13, 80.25)%float)
                (Some Scenario.road) Scenario.tripNearby) as HFrank.
  cbv zeta in HBob, HFrank.
  destruct HBob as (HBob & _). destruct HFrank as (HFrank & _).
  split; [rewrite HBob; vm_compute; reflexivity|].
  split; [vm_compute; reflexivity|].
  split; [rewrite HFrank; vm_compute; reflexivity|].
  repeat split; vm_compute; reflexivity.
Defined.

(** ** The Match Set Builder *)

Section BuilderFacts.
Context (js : JSRuntime).
Import TripsRoute.

(** The loop pushes, candidate by candidate, what each one contributes. *)
Lemma buildMatchInserts_flat_map sd sc dc rg createdTripId ts candidates :
  buildMatchInserts js sd sc dc rg createdTripId ts candidates =
  flat_map (emitted js sd sc dc rg createdTripId ts) candidates.
Proof.
  unfold buildMatchInserts.
  assert (H : forall acc,
    fold_left (matchingStep js sd sc dc rg createdTripId ts) candidates acc =
    (acc ++ flat_map (emitted js sd sc dc rg createdTripId ts) candidates)%list).
  { induction candidates as [|c cs IH]; intros acc; simpl.
    - now rewrite app_nil_r.
    - rewrite IH. unfold emitted, matchingStep.
      destruct (50 <? _); simpl; [|reflexivity].
      now rewrite <- app_assoc. }
  apply (H []).
Qed.

Lemma in_number_matches (r : TripMatch.t) (rows : list TripMatch.t) :
  forall from,
    In r (Store.number_matches from rows) ->
    exists r0 i, In r0 rows /\ r = TripMatch.with_id r0 i.
Proof.
  induction rows as [|x rows IH]; intros from; simpl; [intros []|].
  intros [<- | H].
  - exists x, (from + 1). split; [now left | reflexivity].
  - destruct (IH _ H) as (r0 & i & Hin & ->).
    exists r0, i. split; [now right | reflexivity].
Qed.

Lemma number_matches_in (r0 : TripMatch.t) (rows : list TripMatch.t) :
  forall from,
    In r0 rows ->
    exists i, In (TripMatch.with_id r0 i) (Store.number_matches from rows).
Proof.
  induction rows as [|x rows IH]; intros from; simpl; [intros []|].
  intros [-> | H].
  - exists (from + 1). now left.
  - destruct (IH (from + 1) H) as (i & Hi). exists i. now right.
Qed.

Context (w : World).

(** Whatever the driver does, the pass touches the match table only, and
    either leaves it alone or appends the records it built. *)
Lemma matchingPass_store (c : Created) (st : HState) :
  let st' := snd (matchingPass js w c st) in
  Store.trips (db st') = Store.trips (db st) /\
  Store.groups (db st') = Store.groups (db st) /\
  Store.groupMembers (db st') = Store.groupMembers (db st) /\
  (Store.tripMatches (db st') = Store.tripMatches (db st) \/
   Store.tripMatches (db st') =
     (Store.tripMatches (db st)
        ++ Store.number_matches (Store.seq_tripMatches (db st))
             (insertsOf js w c st))%list).
Proof.
  unfold matchingPass, insertsOf, candidatesOf, bind, dbCall, now, ret,
    Store.select.
  destruct (dbFault w (dbCalls st)); simpl; [tauto|].
  destruct (0 <? _); simpl; [|tauto].
  destruct (dbFault w (S (dbCalls st))); simpl; tauto.
Qed.

(** With a driver that does not throw, the pass appends them. *)
Lemma matchingPass_ok (c : Created) (st : HState) :
  dbFault w (dbCalls st) = None ->
  dbFault w (S (dbCalls st)) = None ->
  fst (matchingPass js w c st) = Normal tt /\
  Store.tripMatches (db (snd (matchingPass js w c st))) =
    (Store.tripMatches (db st)
       ++ Store.number_matches (Store.seq_tripMatches (db st))
            (insertsOf js w c st))%list.
Proof.
  intros H0 H1.
  unfold matchingPass, insertsOf, candidatesOf, bind, dbCall, now, ret,
    Store.select.
  rewrite H0. simpl.
  destruct (buildMatchInserts _ _ _ _ _ _ _ _) as [|r rows] eqn:E; simpl.
  - now rewrite app_nil_r.
  - rewrite H1. simpl. split; reflexivity.
Qed.

End BuilderFacts.

Section BuilderThreshold.
Context (js : JSRuntime) (w : World).
Import TripsRoute.

(** Rows with distinct keys are determined by their key. *)
Lemma NoDup_map_eq {A B : Type} (f : A -> B) (l : list A) (a b : A) :
  NoDup (map f l) -> In a l -> In b l -> f a = f b -> a = b.
Proof.
  induction l as [|x l IH]; simpl; [intros _ []|].
  intros Hnd Ha Hb Hf. inversion Hnd as [|? ? Hx Hl]; subst.
  destruct Ha as [-> | Ha], Hb as [-> | Hb]; auto.
  - exfalso. apply Hx. rewrite Hf. now apply in_map.
  - exfalso. apply Hx. rewrite <- Hf. now apply in_map.
Qed.

(** The total depends on the two columns of the table. *)
Lemma totalPoints_columns (rules : list (Z * bool)) :
  Spec.totalPoints rules =
  Spec.totalPoints (combine (map fst rules) (map snd rules)).
Proof.
  induction rules as [|[p b] rules IH]; simpl; [reflexivity|].
  now rewrite IH.
Qed.

(** C2: during trip creation, with trip ids unique and a driver that does
    not throw, the pass stores a record from the new trip to a candidate,
    and one from the candidate to the new trip, if and only if the
    candidate's score is strictly above 50; a candidate for which only the
    same-destination rule holds scores exactly 50 and gets no record. *)
Theorem match_records_iff_score_above_50
    (c : Created) (st : HState) (candidate : Trip.t) :
  NoDup (map Trip.id (Store.trips (db st))) ->
  dbFault w (dbCalls st) = None ->
  dbFault w (S (dbCalls st)) = None ->
  In candidate (candidatesOf c (db st)) ->
  let score :=
    matchScore (scoreCandidate js (sanitizedData c) (Some (sourceCoords c))
                  (Some (destCoords c)) (routeGeometry c) candidate) in
  let new := Trip.id (createdTrip c) in
  exists created,
    Store.tripMatches (db (snd (matchingPass js w c st))) =
      (Store.tripMatches (db st) ++ created)%list /\
    ((exists r, In r created /\ TripMatch.tripId r = new /\
                TripMatch.matchedTripId r = Trip.id candidate)
     <-> 50 < score) /\
    ((exists r, In r created /\ TripMatch.tripId r = Trip.id candidate /\
                TripMatch.matchedTripId r = new)
     <-> 50 < score) /\
    (map snd
       (Spec.ruleTable js (destination (sanitizedData c))
          (travelDate (sanitizedData c)) (transportMode (sanitizedData c))
          (Some (sourceCoords c)) (Some (destCoords c)) (routeGeometry c)
          candidate)
     = [true; false; false; false; false; false] ->
     score = 50 /\
     ~ exists r, In r created /\
         ((TripMatch.tripId r = new /\
           TripMatch.matchedTripId r = Trip.id candidate) \/
          (TripMatch.tripId r = Trip.id candidate /\
           TripMatch.matchedTripId r = new))).
Proof.
  intros Hnd H0 H1 Hcand score new.
  destruct (matchingPass_ok js w c st H0 H1) as (_ & Hstore).
  exists (Store.number_matches (Store.seq_tripMatches (db st))
            (insertsOf js w c st)).
  split; [exact Hstore|].
  unfold insertsOf. rewrite buildMatchInserts_flat_map.
  set (ts := clock w (clockTicks st)).
  set (E := emitted js _ _ _ _ _ _).
  (* every stored record comes from a candidate that passed *)
  assert (Hfrom : forall r,
    In r (Store.number_matches (Store.seq_tripMatches (db st))
            (flat_map E (candidatesOf c (db st)))) ->
    exists c', In c' (candidatesOf c (db st)) /\
      50 < matchScore (scoreCandidate js (sanitizedData c)
                         (Some (sourceCoords c)) (Some (destCoords c))
                         (routeGeometry c) c') /\
      ((TripMatch.tripId r = new /\ TripMatch.matchedTripId r = Trip.id c')
       \/ (TripMatch.tripId r = Trip.id c' /\ TripMatch.matchedTripId r = new))).
  { intros r Hr. apply in_number_matches in Hr.
    destruct Hr as (r0 & i & Hr0 & ->). apply in_flat_map in Hr0.
    destruct Hr0 as (c' & Hc' & Hin). exists c'. split; [exact Hc'|].
    unfold E, emitted, matchingStep in Hin.
    destruct (50 <? _) eqn:Hs; [|destruct Hin].
    apply Z.ltb_lt in Hs. split; [exact Hs|].
    simpl in Hin. destruct Hin as [<- | [<- | []]]; simpl; auto. }
  (* a candidate that passed has both records stored *)
  assert (Hto : 50 < score ->
    (exists r, In r (Store.number_matches (Store.seq_tripMatches (db st))
                       (flat_map E (candidatesOf c (db st)))) /\
       TripMatch.tripId r = new /\
       TripMatch.matchedTripId r = Trip.id candidate) /\
    (exists r, In r (Store.number_matches (Store.seq_tripMatches (db st))
                       (flat_map E (candidatesOf c (db st)))) /\
       TripMatch.tripId r = Trip.id candidate /\
       TripMatch.matchedTripId r = new)).
  { intros Hs.
    assert (HE : E candidate =
              bidirectionalMatches new ts candidate score).
    { unfold E, emitted, matchingStep. fold score.
      apply Z.ltb_lt in Hs. now rewrite Hs. }
    split.
    - destruct (number_matches_in
        (nth 0 (bidirectionalMatches new ts candidate score)
           (TripMatch.Build_t 0 0 0 0 "" ""))
        (flat_map E (candidatesOf c (db st)))
        (Store.seq_tripMatches (db st))) as (i & Hi).
      { apply in_flat_map. exists candidate. split; [exact Hcand|].
        rewrite HE. now left. }
      eexists. split; [exact Hi|]. split; reflexivity.
    - destruct (number_matches_in
        (nth 1 (bidirectionalMatches new ts candidate score)
           (TripMatch.Build_t 0 0 0 0 "" ""))
        (flat_map E (candidatesOf c (db st)))
        (Store.seq_tripMatches (db st))) as (i & Hi).
      { apply in_flat_map. exists candidate. split; [exact Hcand|].
        rewrite HE. right. now left. }
      eexists. split; [exact Hi|]. split; reflexivity. }
  (* the candidate a record names is this one *)
  assert (Hsame : forall c', In c' (candidatesOf c (db st)) ->
                    Trip.id c' = Trip.id candidate -> c' = candidate).
  { intros c' Hc' Hid.
    apply (NoDup_map_eq Trip.id (Store.trips (db st))); auto.
    - unfold candidatesOf in Hc'. now apply filter_In in Hc'.
    - unfold candidatesOf in Hcand. now apply filter_In in Hcand. }
  assert (Hpass : forall c', In c' (candidatesOf c (db st)) ->
            Trip.id c' = Trip.id candidate ->
            50 < matchScore (scoreCandidate js (sanitizedData c)
                               (Some (sourceCoords c)) (Some (destCoords c))
                               (routeGeometry c) c') ->
            50 < score).
  { intros c' Hc' Hid Hs. rewrite (Hsame c' Hc' Hid) in Hs. exact Hs. }
  split; [|split].
  - split; [|intros Hs; apply (Hto Hs)].
    intros (r & Hr & Ht & Hm).
    destruct (Hfrom r Hr) as (c' & Hc' & Hs & [[_ Hid] | [Hid1 Hid2]]);
      apply (Hpass c' Hc'); congruence.
  - split; [|intros Hs; apply (Hto Hs)].
    intros (r & Hr & Ht & Hm).
    destruct (Hfrom r Hr) as (c' & Hc' & Hs & [[Hid1 Hid2] | [Hid _]]);
      apply (Hpass c' Hc'); congruence.
  - intros Hrules.
    assert (H50 : score = 50).
    { unfold score. rewrite scoreCandidate_totalPoints.
      rewrite totalPoints_columns, Hrules. reflexivity. }
    split; [exact H50|].
    intros (r & Hr & Hid).
    destruct (Hfrom r Hr) as (c' & Hc' & Hs & Hshape).
    assert (Hgt : 50 < score); [|lia].
    apply (Hpass c' Hc'); [|exact Hs].
    destruct Hid as [[Hi Hj] | [Hi Hj]], Hshape as [[Ha Hb] | [Ha Hb]];
      congruence.
Qed.

End BuilderThreshold.

(** In the scenario Bob's trip scores 150 and gets both records; Alice's
    trip, which shares only the destination, scores 50 and gets none. *)
Lemma match_records_iff_score_above_50_witness :
  (exists r,
     In r (Store.tripMatches
             (db (snd (TripsRoute.matchingPass Runtime.js Scenario.world
                         Scenario.created0 Scenario.st1)))) /\
     TripMatch.tripId r = 5 /\ TripMatch.matchedTripId r = 2 /\
     TripMatch.matchScore r = 150) /\
  TripsRoute.matchScore
    (TripsRoute.scoreCandidate Runtime.js Scenario.sanitized
       (Some (13, 77.5)%float) (Some (13, 80.25)%float) (Some Scenario.road)
       Scenario.tripAlice) = 50 /\
  ~ exists r,
      In r (Store.tripMatches
              (db (snd (TripsRoute.matchingPass Runtime.js Scenario.world
                          Scenario.created0 Scenario.st1)))) /\
      ((TripMatch.tripId r = 5 /\ TripMatch.matchedTripId r = 1) \/
       (TripMatch.tripId r = 1 /\ TripMatch.matchedTripId r = 5)).
Proof.
  assert (Hnd : NoDup (map Trip.id (Store.trips (db Scenario.st1)))).
  { repeat constructor; simpl; intuition discriminate. }
  assert (Hbob : In Scenario.tripBob
                   (TripsRoute.candidatesOf Scenario.created0
                      (db Scenario.st1))).
  { right. left. reflexivity. }
  assert (Halice : In Scenario.tripAlice
                     (TripsRoute.candidatesOf Scenario.created0
                        (db Scenario.st1))).
  { left. reflexivity. }
  destruct (match_records_iff_score_above_50 Runtime.js Scenario.world
              Scenario.created0 Scenario.st1 Scenario.tripBob
              Hnd eq_refl eq_refl Hbob) as (created & Hstore & Hfwd & _).
  destruct (match_records_iff_score_above_50 Runtime.js Scenario.world
              Scenario.created0 Scenario.st1 Scenario.tripAlice
              Hnd eq_refl eq_refl Halice)
    as (created' & Hstore' & _ & _ & Honly).
  split; [|split].
  - vm_compute. eexists. split; [left; reflexivity|].
    repeat split; reflexivity.
  - vm_compute. reflexivity.
  - rewrite Hstore'. simpl. apply Honly. vm_compute. reflexivity.
Defined.

(** ** Reasoning about handlers: relations every run maintains *)

Section Stability.
Context (R : Store.t -> Store.t -> Prop).
Hypothesis R_refl : forall s, R s s.
Hypothesis R_trans : forall s1 s2 s3, R s1 s2 -> R s2 s3 -> R s1 s3.

Lemma stable_ret {A : Type} (a : A) : stable R (ret a).
Proof. intros st. apply R_refl. Qed.

Lemma stable_return {A : Type} (r : Response) : stable R (@return_ A r).
Proof. intros st. apply R_refl. Qed.

Lemma stable_lift {A : Type} (c : result A) : stable R (lift c).
Proof. intros st. destruct c; apply R_refl. Qed.

Lemma stable_returnIf (b : bool) (r : Response) : stable R (returnIf b r).
Proof. intros st. destruct b; apply R_refl. Qed.

Lemma stable_now (w : World) : stable R (now w).
Proof. intros st. apply R_refl. Qed.

Lemma stable_bind {A B : Type} (m : Handler A) (k : A -> Handler B) :
  stable R m -> (forall a, stable R (k a)) -> stable R (bind m k).
Proof.
  intros Hm Hk st. unfold bind. specialize (Hm st).
  destruct (m st) as [[a | r | e] st1]; simpl in *; try exact Hm.
  exact (R_trans _ _ _ Hm (Hk a st1)).
Qed.

Lemma stable_tryCatch {A : Type} (m : Handler A) (h : string -> Handler A) :
  stable R m -> (forall e, stable R (h e)) -> stable R (tryCatch m h).
Proof.
  intros Hm Hh st. unfold tryCatch. specialize (Hm st).
  destruct (m st) as [[a | r | e] st1]; simpl in *; try exact Hm.
  exact (R_trans _ _ _ Hm (Hh e st1)).
Qed.

Lemma stable_dbCall {A : Type} (w : World) (stmt : Store.t -> A * Store.t) :
  (forall s, R s (snd (stmt s))) -> stable R (dbCall w stmt).
Proof.
  intros Hs st. unfold dbCall.
  destruct (dbFault w (dbCalls st)); simpl; [apply R_refl|].
  specialize (Hs (db st)). destruct (stmt (db st)); exact Hs.
Qed.

Lemma stable_select {A B : Type} (w : World) (table : Store.t -> list A)
    (p : A -> bool) (k : list A -> B) :
  stable R (dbCall w (Store.select table p k)).
Proof. apply stable_dbCall. intros s. apply R_refl. Qed.

Lemma stable_call (m : Handler Response) (st : HState) :
  stable R m -> R (db st) (db (snd (call m st))).
Proof.
  intros Hm. unfold call. specialize (Hm st).
  destruct (m st) as [[a | r | e] st1]; exact Hm.
Qed.

End Stability.

(** Breaks a handler into its statements. *)
Ltac stable_intro :=
  try assumption;
  try match goal with |- forall _, _ => intros ? end.

Ltac stable_step :=
  match goal with
  | |- stable _ (bind _ _) => apply stable_bind; stable_intro
  | |- stable _ (tryCatch _ _) => apply stable_tryCatch; stable_intro
  | |- stable _ (ret _) => apply stable_ret; assumption
  | |- stable _ (return_ _) => apply stable_return; assumption
  | |- stable _ (lift _) => apply stable_lift; assumption
  | |- stable _ (returnIf _ _) => apply stable_returnIf; assumption
  | |- stable _ (now _) => apply stable_now; assumption
  | |- stable _ (dbCall _ (Store.select _ _ _)) =>
      apply stable_select; assumption
  | |- stable _ (match ?x with _ => _ end) => destruct x
  end.

Section HandlerStability.
Context (js : JSRuntime) (w : World).
Context (R : Store.t -> Store.t -> Prop).
Hypothesis R_refl : forall s, R s s.
Hypothesis R_trans : forall s1 s2 s3, R s1 s2 -> R s2 s3 -> R s1 s3.

Lemma authenticate_stable : stable R (TripsRoute.authenticate js w).
Proof. unfold TripsRoute.authenticate. repeat stable_step. Qed.

Lemma sanitize_stable (requestBody : json) :
  stable R (TripsRoute.sanitize js requestBody).
Proof. unfold TripsRoute.sanitize. repeat stable_step. Qed.

Lemma createTrip_stable (userId : string) (sd : TripsRoute.SanitizedData) :
  (forall v s, Trip.userId v = userId -> R s (snd (Store.insertTrip v s))) ->
  stable R (TripsRoute.createTrip js w userId sd).
Proof.
  intros Hins. unfold TripsRoute.createTrip. repeat stable_step.
  apply stable_dbCall; auto.
Qed.

(** The trips handler maintains a relation that the insertion of a trip and
    the matching pass maintain. *)
Lemma trips_POST_stable (st : HState) :
  (forall v s, R s (snd (Store.insertTrip v s))) ->
  (forall c, stable R (TripsRoute.matchingPass js w c)) ->
  R (db st) (db (snd (TripsRoute.POST js w st))).
Proof.
  intros Hins Hpass. unfold TripsRoute.POST, TripsRoute.insertedTrip.
  apply stable_call; auto.
  repeat stable_step; auto using authenticate_stable, sanitize_stable.
  apply createTrip_stable; auto.
Qed.

(** The accept handler maintains a relation that its three kinds of write
    maintain. *)
Lemma accept_POST_stable (st : HState) :
  (forall a b x s, R s (snd (Store.setMatchStatus a b x s))) ->
  (forall v s, R s (snd (Store.insertGroup v s))) ->
  (forall v s, R s (snd (Store.insertGroupMember v s))) ->
  R (db st) (db (snd (AcceptRoute.POST js w st))).
Proof.
  intros Hset Hgroup Hmember. unfold AcceptRoute.POST, AcceptRoute.accepted.
  apply stable_call; auto.
  unfold AcceptRoute.resolveMatch, AcceptRoute.acceptBothDirections,
    AcceptRoute.findMatchedUser, AcceptRoute.provisionGroup.
  repeat (stable_step || (apply stable_dbCall; auto)).
Qed.

End HandlerStability.

(** ** The mirror invariant *)

Section MirrorFacts.
Context (js : JSRuntime) (w : World).
Import TripsRoute.

Lemma allMirrored_app (a b : list TripMatch.t) :
  allMirrored a -> allMirrored b -> allMirrored (a ++ b).
Proof.
  intros Ha Hb m Hm. apply in_app_or in Hm. destruct Hm as [Hm | Hm].
  - destruct (Ha m Hm) as (m' & Hin & Hmir).
    exists m'. split; [apply in_or_app; now left | exact Hmir].
  - destruct (Hb m Hm) as (m' & Hin & Hmir).
    exists m'. split; [apply in_or_app; now right | exact Hmir].
Qed.

Lemma allMirrored_spec (matches : list TripMatch.t) :
  allMirrored matches -> Spec.mirrored matches.
Proof. intros H m Hm _. exact (H m Hm). Qed.

(** Changing the status of records keeps every mirror. *)
Lemma allMirrored_map (f : TripMatch.t -> TripMatch.t)
    (matches : list TripMatch.t) :
  (forall m, Spec.pairOf (f m) = Spec.pairOf m /\
             TripMatch.matchScore (f m) = TripMatch.matchScore m) ->
  allMirrored matches -> allMirrored (map f matches).
Proof.
  intros Hf H m Hm. apply in_map_iff in Hm. destruct Hm as (m0 & <- & Hm0).
  destruct (H m0 Hm0) as (m' & Hin & Ha & Hb & Hc).
  exists (f m'). split; [now apply in_map|].
  destruct (Hf m0) as (Hp0 & Hs0), (Hf m') as (Hp' & Hs').
  unfold Spec.pairOf in *. injection Hp0 as E1 E2. injection Hp' as E3 E4.
  unfold Spec.mirrorOf. rewrite E1, E2, E3, E4, Hs0, Hs'. auto.
Qed.

Lemma allMirrored_number (rows : list TripMatch.t) (from : Z) :
  allMirrored rows -> allMirrored (Store.number_matches from rows).
Proof.
  intros H m Hm. apply in_number_matches in Hm.
  destruct Hm as (m0 & i & Hm0 & ->).
  destruct (H m0 Hm0) as (m' & Hin & Hmir).
  destruct (number_matches_in m' rows from Hin) as (j & Hj).
  exists (TripMatch.with_id m' j). split; [exact Hj | exact Hmir].
Qed.

(** In the batch the loop builds every record is pending, carries the
    timestamp of the pass, and stands next to its mirror, which does too. *)
Lemma buildMatchInserts_pairs sd sc dc rg newId ts candidates (r : TripMatch.t) :
  In r (buildMatchInserts js sd sc dc rg newId ts candidates) ->
  TripMatch.status r = "pending" /\ TripMatch.createdAt r = ts /\
  exists r',
    In r' (buildMatchInserts js sd sc dc rg newId ts candidates) /\
    Spec.mirrorOf r r' /\
    TripMatch.status r' = "pending" /\ TripMatch.createdAt r' = ts.
Proof.
  rewrite buildMatchInserts_flat_map. intros Hr.
  apply in_flat_map in Hr. destruct Hr as (c & Hc & Hr).
  assert (Hboth : forall x, In x (emitted js sd sc dc rg newId ts c) ->
            In x (flat_map (emitted js sd sc dc rg newId ts) candidates)).
  { intros x Hx. apply in_flat_map. now exists c. }
  unfold emitted, matchingStep in Hr, Hboth.
  destruct (50 <? _); [|destruct Hr]. simpl in Hr, Hboth.
  destruct Hr as [<- | [<- | []]]; simpl; repeat split.
  - eexists. split; [apply Hboth; right; left; reflexivity|].
    repeat split.
  - eexists. split; [apply Hboth; left; reflexivity|].
    repeat split.
Qed.

Lemma buildMatchInserts_allMirrored sd sc dc rg newId ts candidates :
  allMirrored (buildMatchInserts js sd sc dc rg newId ts candidates).
Proof.
  intros m Hm.
  destruct (buildMatchInserts_pairs _ _ _ _ _ _ _ _ Hm)
    as (_ & _ & m' & Hin & Hmir & _).
  now exists m'.
Qed.

Lemma setMatchStatus_allMirrored (a b : Z) (x : string) (s : Store.t) :
  allMirrored (Store.tripMatches s) ->
  allMirrored (Store.tripMatches (snd (Store.setMatchStatus a b x s))).
Proof.
  simpl. apply allMirrored_map. intros m.
  destruct (_ && _); split; reflexivity.
Qed.

Lemma deleteTrip_allMirrored (i : Z) (s : Store.t) :
  allMirrored (Store.tripMatches s) ->
  allMirrored (Store.tripMatches (snd (Store.deleteTrip i s))).
Proof.
  simpl. intros H m Hm. apply filter_In in Hm. destruct Hm as (Hm & Hkeep).
  destruct (H m Hm) as (m' & Hin & Ha & Hb & Hc).
  exists m'. split; [|repeat split; assumption].
  apply filter_In. split; [exact Hin|].
  rewrite Ha, Hb. now rewrite orb_comm.
Qed.

Lemma matchingPass_allMirrored (c : Created) :
  stable (fun s s' => allMirrored (Store.tripMatches s) ->
                      allMirrored (Store.tripMatches s'))
    (matchingPass js w c).
Proof.
  intros st H.
  destruct (matchingPass_store js w c st) as (_ & _ & _ & [-> | ->]);
    [exact H|].
  apply allMirrored_app; [exact H|]. apply allMirrored_number.
  apply buildMatchInserts_allMirrored.
Qed.

End MirrorFacts.

Section AcceptFacts.
Context (js : JSRuntime) (w : World).

(** With a driver that does not throw, the two updates leave every record
    between the two trips accepted, in both directions, and change nothing
    else. *)
Lemma acceptBothDirections_ok (a b : Z) (st : HState) :
  dbFault w (dbCalls st) = None ->
  dbFault w (S (dbCalls st)) = None ->
  let after :=
    Store.tripMatches (db (snd (AcceptRoute.acceptBothDirections w a b st))) in
  (forall m, In m after ->
     Spec.pairOf m = (a, b) \/ Spec.pairOf m = (b, a) ->
     TripMatch.status m = "accepted") /\
  map (fun m => (TripMatch.id m, Spec.pairOf m, TripMatch.matchScore m)) after
  = map (fun m => (TripMatch.id m, Spec.pairOf m, TripMatch.matchScore m))
      (Store.tripMatches (db st)).
Proof.
  intros H0 H1. unfold AcceptRoute.acceptBothDirections, bind, dbCall.
  rewrite H0. simpl. rewrite H1. simpl. split.
  - intros m Hm Hpair. rewrite map_map in Hm. apply in_map_iff in Hm.
    destruct Hm as (m0 & <- & _).
    destruct (TripMatch.tripId m0 =? a) eqn:Ea,
             (TripMatch.matchedTripId m0 =? b) eqn:Eb; simpl in *;
      try (destruct (_ && _); reflexivity);
      destruct (TripMatch.tripId m0 =? b) eqn:Ec,
               (TripMatch.matchedTripId m0 =? a) eqn:Ed; simpl in *;
      try reflexivity;
      unfold Spec.pairOf in Hpair;
      destruct Hpair as [Hp | Hp]; injection Hp as Hx Hy; subst;
      rewrite ?Z.eqb_refl in *; discriminate.
  - rewrite !map_map. apply map_ext. intros m.
    destruct ((TripMatch.tripId m =? a) && (TripMatch.matchedTripId m =? b));
      simpl; destruct (_ && _); reflexivity.
Qed.

End AcceptFacts.


(** ** Trip creation *)

Section CreationFacts.
Context (js : JSRuntime) (w : World).
Import TripsRoute.

Lemma bind_Normal {A B : Type} (m : Handler A) (k : A -> Handler B)
    (st st' : HState) (b : B) :
  bind m k st = (Normal b, st') ->
  exists a st1, m st = (Normal a, st1) /\ k a st1 = (Normal b, st').
Proof.
  unfold bind. destruct (m st) as [[a | r | e] st1]; try discriminate.
  intros H. now exists a, st1.
Qed.

(** The session check passes for a session with a user, and only then. *)
Lemma authenticate_Normal (st st' : HState) (userId : string) (body : json) :
  authenticate js w st = (Normal (userId, body), st') ->
  st' = st /\
  getSession w = Ok (Some {| session_user := Some userId |}) /\
  requestJson w = Ok body.
Proof.
  unfold authenticate, bind, lift, returnIf, ret, return_.
  destruct (getSession w) as [[[[u|]]|] | e]; try discriminate.
  destruct (requestJson w) as [b | e]; try discriminate.
  destruct (hasKey js "userId" b) as [[|] | e]; try discriminate.
  destruct (hasKey js "user_id" b) as [[|] | e]; try discriminate.
  intros H. injection H as -> -> ->. auto.
Qed.

(** What a trip row inserted by [createTrip] looks like. *)
Lemma createTrip_Normal (userId : string) (sd : SanitizedData)
    (st st' : HState) (c : Created) :
  createTrip js w userId sd st = (Normal c, st') ->
  geocode w (source sd) = Some (sourceCoords c) /\
  geocode w (destination sd) = Some (destCoords c) /\
  dbFault w (dbCalls st) = None /\
  Store.trips (db st') = (Store.trips (db st) ++ [createdTrip c])%list /\
  Store.tripMatches (db st') = Store.tripMatches (db st) /\
  sessionUserId c = userId /\
  Trip.userId (createdTrip c) = userId /\
  Trip.routeGeometry (createdTrip c) = routeGeometry c /\
  routeGeometry c =
    match calculateRouteGeometry w (sourceCoords c) (destCoords c)
            (transportMode sd) with
    | Some r => Some (coordinates r)
    | None => None
    end.
Proof.
  unfold createTrip, bind, now, dbCall, ret, return_.
  destruct (geocode w (source sd)) as [sc|]; [|destruct (geocode w _); discriminate].
  destruct (geocode w (destination sd)) as [dc|]; [|discriminate].
  simpl. destruct (dbFault w (dbCalls st)); [discriminate|].
  simpl. intros H. injection H as <- <-. simpl. repeat split; reflexivity.
Qed.

(** The matching pass never returns from the handler: it completes
    normally or throws. *)
Lemma matchingPass_completion (c : Created) (st : HState) :
  fst (matchingPass js w c st) = Normal tt \/
  exists e, fst (matchingPass js w c st) = Throw e.
Proof.
  unfold matchingPass, bind, dbCall, now, ret, Store.select.
  destruct (dbFault w (dbCalls st)); simpl; [right; eauto|].
  destruct (0 <? _); simpl; [|now left].
  destruct (dbFault w (S (dbCalls st))); simpl; [right; eauto | now left].
Qed.

End CreationFacts.

(** After the insertion of the trip the handler answers 201 with the
    created trip, however the matching pass completes. *)
Lemma POST_after_insertion
    (js : JSRuntime) (w : World) (st st1 : HState) (c : TripsRoute.Created) :
  TripsRoute.insertedTrip js w st = (Normal c, st1) ->
  exists st2,
    TripsRoute.POST js w st =
      (Normal {| status := 201;
                 payload := TripBody (TripsRoute.createdTrip c) |}, st2) /\
    db st2 = db (snd (TripsRoute.matchingPass js w c st1)) /\
    Store.trips (db st2) = Store.trips (db st1) /\
    In (TripsRoute.createdTrip c) (Store.trips (db st2)).
Proof.
  intros H.
  assert (Hin : In (TripsRoute.createdTrip c) (Store.trips (db st1))).
  { unfold TripsRoute.insertedTrip in H.
    apply bind_Normal in H. destruct H as (auth & sa & _ & H).
    apply bind_Normal in H. destruct H as (sd & sb & _ & H).
    apply createTrip_Normal in H. destruct H as (_ & _ & _ & -> & _).
    apply in_or_app. right. now left. }
  destruct (matchingPass_store js w c st1) as (Htrips & _).
  exists (snd (TripsRoute.matchingPass js w c st1)).
  split; [|split; [reflexivity|split; [exact Htrips|now rewrite Htrips]]].
  unfold TripsRoute.POST, call, tryCatch, bind. rewrite H.
  destruct (matchingPass_completion js w c st1) as [Hc | (e & Hc)];
    destruct (TripsRoute.matchingPass js w c st1) as [comp st2];
    simpl in Hc; subst comp; reflexivity.
Qed.

(** C4: once the trip row is inserted, nothing that happens in the matching
    pass changes the response: whether the pass completes or throws (while
    loading the candidates or inserting the records), the handler returns
    the created trip with status 201, and the trip is still in the store. *)
Theorem matching_failure_never_changes_response
    (js : JSRuntime) (w : World) (st st1 : HState) (c : TripsRoute.Created) :
  TripsRoute.insertedTrip js w st = (Normal c, st1) ->
  (fst (TripsRoute.matchingPass js w c st1) = Normal tt \/
   exists e, fst (TripsRoute.matchingPass js w c st1) = Throw e) /\
  exists st2,
    TripsRoute.POST js w st =
      (Normal {| status := 201;
                 payload := TripBody (TripsRoute.createdTrip c) |}, st2) /\
    db st2 = db (snd (TripsRoute.matchingPass js w c st1)) /\
    Store.trips (db st2) = Store.trips (db st1) /\
    In (TripsRoute.createdTrip c) (Store.trips (db st2)).
Proof.
  intros H. split; [apply matchingPass_completion|].
  now apply POST_after_insertion.
Qed.

(** In the scenario the loading of the candidates throws; the trip is
    created all the same and returned with status 201. *)
Lemma matching_failure_never_changes_response_witness :
  TripsRoute.insertedTrip Runtime.js Scenario.worldSelectFails
    (initial Scenario.store0) = (Normal Scenario.created0, Scenario.st1) /\
  fst (TripsRoute.matchingPass Runtime.js Scenario.worldSelectFails
         Scenario.created0 Scenario.st1) = Throw "SQLITE_BUSY" /\
  exists st2,
    TripsRoute.POST Runtime.js Scenario.worldSelectFails
      (initial Scenario.store0) =
      (Normal {| status := 201; payload := TripBody Scenario.newTrip |}, st2) /\
    In Scenario.newTrip (Store.trips (db st2)).
Proof.
  assert (H : TripsRoute.insertedTrip Runtime.js Scenario.worldSelectFails
                (initial Scenario.store0)
              = (Normal Scenario.created0, Scenario.st1)).
  { vm_compute. reflexivity. }
  split; [exact H|]. split; [vm_compute; reflexivity|].
  destruct (matching_failure_never_changes_response Runtime.js
              Scenario.worldSelectFails _ _ _ H)
    as (_ & st2 & Hpost & _ & _ & Hin).
  exists st2. split; [exact Hpost | exact Hin].
Defined.

(** C7: for a request that passes authentication and validation, if the
    geocoding of the source or of the destination fails, the handler answers
    400 with code [GEOCODING_FAILED] and the store is as it was; if both
    succeed, the routing gives no route and the insertion does not throw,
    the trip is created with a null route geometry and returned with status
    201. *)
Theorem geocoding_failure_rejects_routing_failure_degrades
    (js : JSRuntime) (w : World) (st : HState) (userId : string)
    (body : json) (sd : TripsRoute.SanitizedData) :
  TripsRoute.authenticate js w st = (Normal (userId, body), st) ->
  TripsRoute.sanitize js body st = (Normal sd, st) ->
  (geocode w (TripsRoute.source sd) = None \/
   geocode w (TripsRoute.destination sd) = None ->
   exists message st',
     TripsRoute.POST js w st =
       (Normal {| status := 400;
                  payload := ErrorBody message (Some "GEOCODING_FAILED") |},
        st') /\
     db st' = db st) /\
  (forall sc dc,
     geocode w (TripsRoute.source sd) = Some sc ->
     geocode w (TripsRoute.destination sd) = Some dc ->
     calculateRouteGeometry w sc dc (TripsRoute.transportMode sd) = None ->
     dbFault w (dbCalls st) = None ->
     exists t st',
       TripsRoute.POST js w st =
         (Normal {| status := 201; payload := TripBody t |}, st') /\
       Trip.routeGeometry t = None /\
       Store.trips (db st') = (Store.trips (db st) ++ [t])%list).
Proof.
  intros Hauth Hsan. split.
  - intros Hgeo.
    assert (Hc : exists message,
              TripsRoute.createTrip js w userId sd st =
              (Return (errorResponse message "GEOCODING_FAILED" 400), st)).
    { unfold TripsRoute.createTrip.
      destruct Hgeo as [Hg | Hg]; rewrite Hg.
      - destruct (geocode w (TripsRoute.destination sd));
          eexists; reflexivity.
      - destruct (geocode w (TripsRoute.source sd)); eexists; reflexivity. }
    destruct Hc as (message & Hc). exists message, st.
    split; [|reflexivity].
    unfold TripsRoute.POST, TripsRoute.insertedTrip, call, tryCatch, bind.
    rewrite Hauth. simpl. rewrite Hsan, Hc. reflexivity.
  - intros sc dc Hsc Hdc Hroute Hdb.
    destruct (TripsRoute.createTrip js w userId sd st) as [comp st1] eqn:Hc.
    assert (Hc' := Hc).
    unfold TripsRoute.createTrip, bind, now, dbCall, ret in Hc'.
    rewrite Hsc, Hdc, Hroute in Hc'. simpl in Hc'. rewrite Hdb in Hc'.
    simpl in Hc'. injection Hc' as <- <-.
    match type of Hc with _ = (Normal ?c, ?s) =>
      destruct (POST_after_insertion js w st s c)
        as (st2 & Hpost & _ & Htrips & _)
    end.
    { unfold TripsRoute.insertedTrip, bind. rewrite Hauth. simpl.
      rewrite Hsan. exact Hc. }
    eexists. exists st2. split; [exact Hpost|].
    split; [reflexivity|]. rewrite Htrips. reflexivity.
Qed.

(** In the scenario, a destination the geocoder does not know gives 400 and
    leaves the store alone; a routing service without a route still gives
    201, for a trip with a null geometry. *)
Lemma geocoding_failure_rejects_routing_failure_degrades_witness :
  (exists message st',
     TripsRoute.POST Runtime.js Scenario.worldUnknownPlace
       (initial Scenario.store0) =
       (Normal {| status := 400;
                  payload := ErrorBody message (Some "GEOCODING_FAILED") |},
        st') /\
     db st' = Scenario.store0) /\
  (exists t st',
     TripsRoute.POST Runtime.js Scenario.worldNoRoute
       (initial Scenario.store0) =
       (Normal {| status := 201; payload := TripBody t |}, st') /\
     Trip.routeGeometry t = None /\
     Store.trips (db st') = (Store.trips Scenario.store0 ++ [t])%list).
Proof.
  split.
  - refine (proj1 (geocoding_failure_rejects_routing_failure_degrades
                     Runtime.js Scenario.worldUnknownPlace
                     (initial Scenario.store0) "dave"
                     (match requestJson Scenario.worldUnknownPlace with
                      | Ok b => b
                      | _ => JNull
                      end)
                     {| TripsRoute.source := "Bangalore";
                        TripsRoute.destination := "Atlantis";
                        TripsRoute.travelDate := "2025-01-10";
                        TripsRoute.travelTime := "08:30";
                        TripsRoute.transportMode := "car";
                        TripsRoute.optimizationMode := "fastest";
                        TripsRoute.routeData := JNull |}
                     _ _) _).
    + vm_compute. reflexivity.
    + vm_compute. reflexivity.
    + right. vm_compute. reflexivity.
  - refine (proj2 (geocoding_failure_rejects_routing_failure_degrades
                     Runtime.js Scenario.worldNoRoute
                     (initial Scenario.store0) "dave" Scenario.requestBody
                     Scenario.sanitized _ _)
              (13, 77.5)%float (13, 80.25)%float _ _ _ _);
      vm_compute; reflexivity.
Defined.

(** ** Ownership of created trips *)

Section OwnershipFacts.
Context (js : JSRuntime) (w : World).
Import TripsRoute.

Lemma hasKey_object (key : string) (fields : list (string * json)) :
  In key (map fst fields) -> hasKey js key (JObj fields) = Ok true.
Proof.
  intros H. simpl. f_equal. apply existsb_exists.
  apply in_map_iff in H. destruct H as (kv & <- & Hin).
  exists kv. split; [exact Hin | apply String.eqb_refl].
Qed.

Lemma ownedBySession_refl (s : Store.t) : ownedBySession w s s.
Proof. intros t Ht. now left. Qed.

Lemma ownedBySession_trans (s1 s2 s3 : Store.t) :
  ownedBySession w s1 s2 -> ownedBySession w s2 s3 -> ownedBySession w s1 s3.
Proof.
  intros H12 H23 t Ht. destruct (H23 t Ht) as [H | H]; [|now right].
  exact (H12 t H).
Qed.

Lemma stable_bind_result {A B : Type} (R : Store.t -> Store.t -> Prop)
    (m : Handler A) (k : A -> Handler B) :
  (forall s1 s2 s3, R s1 s2 -> R s2 s3 -> R s1 s3) ->
  stable R m ->
  (forall a st st1, m st = (Normal a, st1) -> R (db st1) (db (snd (k a st1)))) ->
  stable R (bind m k).
Proof.
  intros Htrans Hm Hk st. unfold bind. specialize (Hm st).
  destruct (m st) as [[a | r | e] st1] eqn:E; simpl in *; try exact Hm.
  exact (Htrans _ _ _ Hm (Hk a st st1 E)).
Qed.

Lemma insertedTrip_ownedBySession : stable (ownedBySession w) (insertedTrip js w).
Proof.
  unfold insertedTrip.
  apply stable_bind_result.
  - exact ownedBySession_trans.
  - apply authenticate_stable;
      [exact ownedBySession_refl | exact ownedBySession_trans].
  - intros [userId body] st st1 Hauth.
    apply authenticate_Normal in Hauth. destruct Hauth as (_ & Hsession & _).
    apply (stable_bind (ownedBySession w) ownedBySession_trans).
    + apply sanitize_stable;
        [exact ownedBySession_refl | exact ownedBySession_trans].
    + intros sd. apply createTrip_stable;
        [exact ownedBySession_refl | exact ownedBySession_trans |].
      intros v s Hv t Ht. simpl in Ht. apply in_app_or in Ht.
      destruct Ht as [Ht | [<- | []]]; [now left|].
      right. simpl. simpl in Hv. now rewrite Hv.
Qed.

Lemma POST_ownedBySession (st : HState) :
  ownedBySession w (db st) (db (snd (POST js w st))).
Proof.
  unfold POST.
  apply (stable_call (ownedBySession w)).
  apply (stable_tryCatch (ownedBySession w) ownedBySession_trans).
  - apply (stable_bind (ownedBySession w) ownedBySession_trans).
    + apply insertedTrip_ownedBySession.
    + intros c.
      apply (stable_bind (ownedBySession w) ownedBySession_trans).
      * apply (stable_tryCatch (ownedBySession w) ownedBySession_trans).
        -- intros st0 t Ht.
           destruct (matchingPass_store js w c st0) as (Htrips & _).
           rewrite Htrips in Ht. now left.
        -- intros e. apply stable_ret. exact ownedBySession_refl.
      * intros _. apply stable_return. exact ownedBySession_refl.
  - intros e. apply stable_return. exact ownedBySession_refl.
Qed.

(** What the first half returns early is an error response. *)
Lemma insertedTrip_Return (st st1 : HState) (r : Response) :
  insertedTrip js w st = (Return r, st1) -> status r <> 201.
Proof.
  unfold insertedTrip, authenticate, sanitize, createTrip, bind, lift,
    returnIf, ret, return_, now, dbCall.
  destruct (getSession w) as [[[[u|]]|] | e]; try discriminate;
    try (intros H; injection H as <- _; cbv; discriminate).
  destruct (requestJson w) as [b | e]; try discriminate.
  destruct (hasKey js "userId" b) as [[|] | e]; try discriminate;
    try (intros H; injection H as <- _; cbv; discriminate).
  destruct (hasKey js "user_id" b) as [[|] | e]; try discriminate;
    try (intros H; injection H as <- _; cbv; discriminate).
  destruct (_ || _);
    try (intros H; injection H as <- _; cbv; discriminate).
  repeat match goal with
         | |- context [callTrim js ?n ?v] =>
             destruct (callTrim js n v) as [? | ?]; try discriminate
         end.
  simpl.
  repeat match goal with
         | |- context [geocode w ?x] => destruct (geocode w x)
         end;
    try (intros H; injection H as <- _; cbv; discriminate).
  simpl. destruct (dbFault w (dbCalls st)); discriminate.
Qed.

End OwnershipFacts.

(** C10: an authenticated request whose body is an object with a [userId]
    or a [user_id] key is answered 400 with code [USER_ID_NOT_ALLOWED] and
    changes nothing; and whatever the body, every trip the handler adds to
    the store is owned by the user of the session, as is the trip of a 201
    response. *)
Theorem userId_in_body_rejected_owner_from_session
    (js : JSRuntime) (w : World) (st : HState) :
  (forall userId fields,
     getSession w = Ok (Some {| session_user := Some userId |}) ->
     requestJson w = Ok (JObj fields) ->
     In "userId" (map fst fields) \/ In "user_id" (map fst fields) ->
     TripsRoute.POST js w st =
       (Normal (errorResponse "User ID cannot be provided in request body"
                  "USER_ID_NOT_ALLOWED" 400), st)) /\
  (forall t,
     In t (Store.trips (db (snd (TripsRoute.POST js w st)))) ->
     In t (Store.trips (db st)) \/
     getSession w = Ok (Some {| session_user := Some (Trip.userId t) |})) /\
  (forall t st',
     TripsRoute.POST js w st =
       (Normal {| status := 201; payload := TripBody t |}, st') ->
     getSession w = Ok (Some {| session_user := Some (Trip.userId t) |})).
Proof.
  split; [|split].
  - intros userId fields Hs Hb Hkey.
    unfold TripsRoute.POST, TripsRoute.insertedTrip, TripsRoute.authenticate,
      call, tryCatch, bind, lift.
    rewrite Hs, Hb.
    destruct Hkey as [Hk | Hk].
    + rewrite (hasKey_object _ _ _ Hk). reflexivity.
    + rewrite (hasKey_object _ _ _ Hk).
      destruct (hasKey js "userId" (JObj fields)) as [[|] | e] eqn:E;
        try reflexivity; simpl in E; discriminate.
  - apply POST_ownedBySession.
  - intros t st' Hpost.
    destruct (TripsRoute.insertedTrip js w st) as [[c | r | e] st1] eqn:Hins.
    + destruct (POST_after_insertion js w st st1 c Hins)
        as (st2 & Hpost' & _).
      rewrite Hpost' in Hpost. injection Hpost as <- _.
      unfold TripsRoute.insertedTrip in Hins.
      apply bind_Normal in Hins. destruct Hins as ([u b] & sa & Ha & Hins).
      apply bind_Normal in Hins. destruct Hins as (sd & sb & _ & Hins).
      apply createTrip_Normal in Hins.
      destruct Hins as (_ & _ & _ & _ & _ & _ & Hu & _).
      apply authenticate_Normal in Ha. destruct Ha as (_ & Ha & _).
      simpl in Hu. now rewrite Hu.
    + exfalso. unfold TripsRoute.POST, call, tryCatch, bind in Hpost.
      rewrite Hins in Hpost. injection Hpost as Hr _. subst r.
      now apply (insertedTrip_Return js w st st1 _ Hins).
    + exfalso. unfold TripsRoute.POST, call, tryCatch, bind, return_ in Hpost.
      rewrite Hins in Hpost. discriminate.
Qed.

(** In the scenario the request with a [userId] of "alice" in its body is
    refused and changes nothing, and the trip created for the plain request
    belongs to Dave, the user of the session. *)
Lemma userId_in_body_rejected_owner_from_session_witness :
  TripsRoute.POST Runtime.js Scenario.worldWithUserId
    (initial Scenario.store0) =
    (Normal (errorResponse "User ID cannot be provided in request body"
               "USER_ID_NOT_ALLOWED" 400), initial Scenario.store0) /\
  fst (TripsRoute.POST Runtime.js Scenario.world (initial Scenario.store0)) =
    Normal {| status := 201; payload := TripBody Scenario.newTrip |} /\
  getSession Scenario.world =
    Ok (Some {| session_user := Some (Trip.userId Scenario.newTrip) |}).
Proof.
  split; [|split].
  - eapply (proj1 (userId_in_body_rejected_owner_from_session Runtime.js
                     Scenario.worldWithUserId (initial Scenario.store0))).
    + reflexivity.
    + reflexivity.
    + left. simpl. auto 10.
  - vm_compute. reflexivity.
  - eapply (proj2 (proj2 (userId_in_body_rejected_owner_from_session
                            Runtime.js Scenario.world
                            (initial Scenario.store0)))).
    vm_compute. reflexivity.
Defined.

(** ** Group provisioning on acceptance *)

Section ProvisionFacts.
Context (js : JSRuntime) (w : World).
Import AcceptRoute.

Lemma firstn1_filter_In {A : Type} (p : A -> bool) (l : list A) (x : A)
    (rest : list A) :
  Store.limit1 (filter p l) = x :: rest -> In x l /\ p x = true.
Proof.
  unfold Store.limit1. destruct (filter p l) as [|y ys] eqn:E;
    [discriminate|].
  simpl. intros H. injection H as -> _.
  apply filter_In. rewrite E. now left.
Qed.

(** What the checks before the group establish: the user of the session
    owns the trip of the request, the match record relates that trip to the
    matched trip, whose owner is the matched user; and only statuses of
    match records have changed. *)
Lemma accepted_Normal (st st1 : HState) (a : Accepted) :
  accepted js w st = (Normal a, st1) ->
  (In (trip a) (Store.trips (db st)) /\ Trip.id (trip a) = tripId a /\
   Trip.userId (trip a) = userId a) /\
  (exists t, In t (Store.trips (db st)) /\ Trip.id t = matchedTripId a /\
             Trip.userId t = matchedUserId a) /\
  (exists m, In m (Store.tripMatches (db st)) /\
             Spec.pairOf m = (tripId a, matchedTripId a)) /\
  getSession w = Ok (Some {| session_user := Some (userId a) |}) /\
  Store.trips (db st1) = Store.trips (db st) /\
  Store.groups (db st1) = Store.groups (db st) /\
  Store.groupMembers (db st1) = Store.groupMembers (db st) /\
  Store.seq_groups (db st1) = Store.seq_groups (db st) /\
  Store.seq_groupMembers (db st1) = Store.seq_groupMembers (db st).
Proof.
  unfold accepted. intros H.
  apply bind_Normal in H. destruct H as ([[[u tid] t] m] & s1 & Hres & H).
  apply bind_Normal in H. destruct H as ([] & s2 & Hupd & H).
  apply bind_Normal in H. destruct H as (mu & s3 & Hfind & H).
  unfold ret in H. injection H as <- <-. simpl.
  (* the checks *)
  unfold resolveMatch, bind, lift, returnIf, ret, return_, dbCall,
    Store.select in Hres.
  destruct (getSession w) as [[[[u'|]]|] | e]; try discriminate.
  destruct (negb (truthy_string u')); [discriminate|].
  destruct (invalidInt js _); [discriminate|].
  destruct (requestJson w) as [b | e]; [|discriminate].
  destruct (destructure "matchId" b) as [mid | e]; [|discriminate].
  destruct (invalidInt js mid); [discriminate|].
  simpl in Hres.
  destruct (dbFault w (dbCalls st)); [discriminate|].
  destruct (Store.limit1 (filter _ (Store.trips (db st))))
    as [|t0 ts] eqn:Etrip.
  { simpl in Hres. destruct (dbFault w _); [discriminate|].
    match type of Hres with
    | context [match ?x with _ => _ end] => destruct x
    end; discriminate. }
  simpl in Hres. destruct (dbFault w _); [discriminate|].
  destruct (Store.limit1 (filter _ (Store.tripMatches (db st))))
    as [|m0 ms] eqn:Ematch; [discriminate|].
  simpl in Hres.
  destruct (negb (TripMatch.tripId m0 =? _)) eqn:Etid; [discriminate|].
  injection Hres as <- <- <- <- <-.
  apply firstn1_filter_In in Etrip. destruct Etrip as (Hin & Hp).
  apply andb_prop in Hp. destruct Hp as (Hid & Hu).
  apply Z.eqb_eq in Hid. apply String.eqb_eq in Hu.
  apply firstn1_filter_In in Ematch. destruct Ematch as (Hmin & _).
  apply negb_false_iff, Z.eqb_eq in Etid.
  (* the updates *)
  unfold acceptBothDirections, bind, dbCall in Hupd. simpl in Hupd.
  destruct (dbFault w _); [discriminate|]. simpl in Hupd.
  destruct (dbFault w _); [discriminate|]. simpl in Hupd.
  injection Hupd as <-.
  (* the matched trip *)
  unfold findMatchedUser, bind, dbCall, Store.select, ret, return_ in Hfind.
  simpl in Hfind. destruct (dbFault w _); [discriminate|].
  destruct (Store.limit1 (filter _ _)) as [|t1 ts1] eqn:Emt; [discriminate|].
  injection Hfind as <- <-. simpl.
  apply firstn1_filter_In in Emt. simpl in Emt. destruct Emt as (Hin1 & Hid1).
  apply Z.eqb_eq in Hid1.
  split; [auto|]. split; [exists t1; auto|].
  split; [|repeat split; reflexivity].
  exists m0. split; [exact Hmin|]. unfold Spec.pairOf. now rewrite Etid.
Qed.

End ProvisionFacts.

Section ProvisionTheorem.
Context (js : JSRuntime) (w : World).
Import AcceptRoute.


Lemma limit1_filter_cons {A : Type} (p : A -> bool) (l : list A) :
  existsb p l = true -> exists x, Store.limit1 (filter p l) = [x].
Proof.
  intros H. apply existsb_exists in H. destruct H as (x & Hin & Hp).
  destruct (filter p l) as [|y ys] eqn:E.
  - assert (Hx : In x (filter p l)) by (apply filter_In; auto).
    rewrite E in Hx. destruct Hx.
  - exists y. reflexivity.
Qed.




End ProvisionTheorem.




Section AcceptedFacts.
Context (js : JSRuntime) (w : World).
Import AcceptRoute.

Lemma resolveMatch_db :
  stable (fun s s' => s' = s) (resolveMatch js w).
Proof.
  assert (Hrefl : forall s : Store.t, s = s) by reflexivity.
  assert (Htrans : forall s1 s2 s3 : Store.t, s2 = s1 -> s3 = s2 -> s3 = s1)
    by congruence.
  unfold resolveMatch. repeat stable_step.
Qed.

Lemma findMatchedUser_db (matchedTripId : Z) :
  stable (fun s s' => s' = s) (findMatchedUser w matchedTripId).
Proof.
  assert (Hrefl : forall s : Store.t, s = s) by reflexivity.
  assert (Htrans : forall s1 s2 s3 : Store.t, s2 = s1 -> s3 = s2 -> s3 = s1)
    by congruence.
  unfold findMatchedUser. repeat stable_step.
Qed.

(** Provisioning the group leaves the match records alone. *)
Lemma provisionGroup_keeps_matches (a : Accepted) :
  stable (fun s s' => Store.tripMatches s' = Store.tripMatches s)
    (provisionGroup w a).
Proof.
  assert (Hrefl : forall s : Store.t,
            Store.tripMatches s = Store.tripMatches s) by reflexivity.
  assert (Htrans : forall s1 s2 s3 : Store.t,
            Store.tripMatches s2 = Store.tripMatches s1 ->
            Store.tripMatches s3 = Store.tripMatches s2 ->
            Store.tripMatches s3 = Store.tripMatches s1) by congruence.
  unfold provisionGroup.
  repeat (stable_step || (apply stable_dbCall; auto)).
Qed.

(** When the checks and the two updates have gone through, every record
    between the two trips is accepted, in both directions, and the records
    are otherwise what they were. *)
Lemma accepted_both_directions (st st1 : HState) (a : Accepted) :
  accepted js w st = (Normal a, st1) ->
  (forall m, In m (Store.tripMatches (db st1)) ->
     Spec.pairOf m = (tripId a, matchedTripId a) \/
     Spec.pairOf m = (matchedTripId a, tripId a) ->
     TripMatch.status m = "accepted") /\
  map (fun m => (TripMatch.id m, Spec.pairOf m, TripMatch.matchScore m))
    (Store.tripMatches (db st1))
  = map (fun m => (TripMatch.id m, Spec.pairOf m, TripMatch.matchScore m))
      (Store.tripMatches (db st)).
Proof.
  unfold accepted. intros H.
  apply bind_Normal in H. destruct H as ([[[u tid] t] m] & s1 & Hres & H).
  apply bind_Normal in H. destruct H as ([] & s2 & Hupd & H).
  apply bind_Normal in H. destruct H as (mu & s3 & Hfind & H).
  unfold ret in H. injection H as <- <-. simpl.
  pose proof (resolveMatch_db st) as Hdb1. rewrite Hres in Hdb1.
  pose proof (findMatchedUser_db (TripMatch.matchedTripId m) s2) as Hdb3.
  rewrite Hfind in Hdb3. simpl in Hdb1, Hdb3. rewrite Hdb3, <- Hdb1.
  assert (Hf : dbFault w (dbCalls s1) = None /\
               dbFault w (S (dbCalls s1)) = None).
  { unfold acceptBothDirections, bind, dbCall in Hupd.
    destruct (dbFault w (dbCalls s1)); [discriminate|]. simpl in Hupd.
    destruct (dbFault w (S (dbCalls s1))); [discriminate|]. auto. }
  destruct Hf as (H0 & H1).
  pose proof (acceptBothDirections_ok w tid (TripMatch.matchedTripId m) s1
                H0 H1) as Hok.
  rewrite Hupd in Hok. exact Hok.
Qed.

(** The match records at the end of the handler are those the first half
    left. *)
Lemma POST_matches_after_accepted (st st1 : HState) (a : Accepted) :
  accepted js w st = (Normal a, st1) ->
  Store.tripMatches (db (snd (POST js w st))) = Store.tripMatches (db st1).
Proof.
  intros H. unfold POST, call, tryCatch, bind. rewrite H.
  pose proof (provisionGroup_keeps_matches a st1) as Hk.
  destruct (provisionGroup w a st1) as [[r | r | e] st2]; exact Hk.
Qed.

(** The match record the checks resolve is a record of the store for the
    trip of the request. *)
Lemma resolveMatch_record (st s1 : HState) (u : string) (tid : Z)
    (t : Trip.t) (m : TripMatch.t) :
  resolveMatch js w st = (Normal (u, tid, t, m), s1) ->
  In m (Store.tripMatches (db st)) /\ TripMatch.tripId m = tid.
Proof.
  unfold resolveMatch, bind, lift, returnIf, ret, return_, dbCall,
    Store.select.
  destruct (getSession w) as [[[[u'|]]|] | e]; try discriminate.
  destruct (negb (truthy_string u')); [discriminate|].
  destruct (invalidInt js _); [discriminate|].
  destruct (requestJson w) as [b | e]; [|discriminate].
  destruct (destructure "matchId" b) as [mid | e]; [|discriminate].
  destruct (invalidInt js mid); [discriminate|].
  simpl.
  destruct (dbFault w (dbCalls st)); [discriminate|].
  destruct (Store.limit1 (filter _ (Store.trips (db st))))
    as [|t0 ts] eqn:Etrip.
  { simpl. destruct (dbFault w _); [discriminate|].
    match goal with
    | |- context [match ?x with _ => _ end] => destruct x
    end; discriminate. }
  simpl. destruct (dbFault w _); [discriminate|].
  destruct (Store.limit1 (filter _ (Store.tripMatches (db st))))
    as [|m0 ms] eqn:Ematch; [discriminate|].
  simpl.
  destruct (negb (TripMatch.tripId m0 =? _)) eqn:Etid; [discriminate|].
  intros H. injection H as <- <- <- <- <-.
  apply firstn1_filter_In in Ematch. destruct Ematch as (Hmin & _).
  apply negb_false_iff, Z.eqb_eq in Etid. auto.
Qed.

(** The checks make two database calls and leave the store and the clock
    alone. *)
Lemma resolveMatch_calls (st s1 : HState) (u : string) (tid : Z)
    (t : Trip.t) (m : TripMatch.t) :
  resolveMatch js w st = (Normal (u, tid, t, m), s1) ->
  s1 = {| db := db st; dbCalls := S (S (dbCalls st));
          clockTicks := clockTicks st |}.
Proof.
  unfold resolveMatch, bind, lift, returnIf, ret, return_, dbCall,
    Store.select.
  destruct (getSession w) as [[[[u'|]]|] | e]; try discriminate.
  destruct (negb (truthy_string u')); [discriminate|].
  destruct (invalidInt js _); [discriminate|].
  destruct (requestJson w) as [b | e]; [|discriminate].
  destruct (destructure "matchId" b) as [mid | e]; [|discriminate].
  destruct (invalidInt js mid); [discriminate|].
  simpl.
  destruct (dbFault w (dbCalls st)); [discriminate|].
  destruct (Store.limit1 (filter _ (Store.trips (db st))))
    as [|t0 ts] eqn:Etrip.
  { simpl. destruct (dbFault w _); [discriminate|].
    match goal with
    | |- context [match ?x with _ => _ end] => destruct x
    end; discriminate. }
  simpl. destruct (dbFault w _); [discriminate|].
  destruct (Store.limit1 (filter _ (Store.tripMatches (db st))))
    as [|m0 ms] eqn:Ematch; [discriminate|].
  simpl.
  destruct (negb (TripMatch.tripId m0 =? _)); [discriminate|].
  intros H. now injection H as _ _ _ _ <-.
Qed.

(** What a run of the first half does to the match records: nothing; or
    both updates, for the pair of a stored record; or, when the driver
    throws on the second update, the first update alone. *)
Lemma accepted_updates (st st1 : HState) (c : completion Accepted) :
  accepted js w st = (c, st1) ->
  Store.tripMatches (db st1) = Store.tripMatches (db st) \/
  exists m, In m (Store.tripMatches (db st)) /\
    (Store.tripMatches (db st1) =
       Store.tripMatches
         (snd (Store.setMatchStatus (TripMatch.matchedTripId m)
                 (TripMatch.tripId m) "accepted"
                 (snd (Store.setMatchStatus (TripMatch.tripId m)
                         (TripMatch.matchedTripId m) "accepted" (db st)))))
     \/
     (Store.tripMatches (db st1) =
        Store.tripMatches
          (snd (Store.setMatchStatus (TripMatch.tripId m)
                  (TripMatch.matchedTripId m) "accepted" (db st))) /\
      dbFault w (S (S (dbCalls st))) = None /\
      exists e, dbFault w (S (S (S (dbCalls st)))) = Some e /\ c = Throw e)).
Proof.
  unfold accepted, bind. intros H.
  pose proof (resolveMatch_db st) as Hdb.
  destruct (resolveMatch js w st) as [[[[[u tid] t] m]|r|e] s1] eqn:Hres;
    simpl in Hdb.
  2: { injection H as <- <-. left. now rewrite Hdb. }
  2: { injection H as <- <-. left. now rewrite Hdb. }
  destruct (resolveMatch_record _ _ _ _ _ _ Hres) as (Hmin & Htid).
  pose proof (resolveMatch_calls _ _ _ _ _ _ Hres) as Hs1.
  subst s1 tid. clear Hdb Hres.
  unfold acceptBothDirections, bind, dbCall in H. simpl in H.
  destruct (dbFault w (S (S (dbCalls st)))) as [e0|] eqn:F0.
  { injection H as <- <-. now left. }
  simpl in H.
  destruct (dbFault w (S (S (S (dbCalls st))))) as [e1|] eqn:F1.
  { injection H as <- <-. right. exists m. split; [exact Hmin|]. right.
    split; [reflexivity|]. split; [reflexivity|]. exists e1. now split. }
  simpl in H. right. exists m. split; [exact Hmin|]. left.
  match type of H with
  | context [findMatchedUser w ?i ?s] =>
      pose proof (findMatchedUser_db i s) as Hf;
      destruct (findMatchedUser w i s) as [[mu|r|e] s3]; simpl in Hf
  end; injection H as <- <-; now rewrite Hf.
Qed.

(** The same for the whole handler: the second half leaves the match
    records alone, and a throw becomes the 500 response. *)
Lemma POST_updates (st : HState) :
  let after := Store.tripMatches (db (snd (POST js w st))) in
  after = Store.tripMatches (db st) \/
  exists m, In m (Store.tripMatches (db st)) /\
    (after =
       Store.tripMatches
         (snd (Store.setMatchStatus (TripMatch.matchedTripId m)
                 (TripMatch.tripId m) "accepted"
                 (snd (Store.setMatchStatus (TripMatch.tripId m)
                         (TripMatch.matchedTripId m) "accepted" (db st)))))
     \/
     (after =
        Store.tripMatches
          (snd (Store.setMatchStatus (TripMatch.tripId m)
                  (TripMatch.matchedTripId m) "accepted" (db st))) /\
      dbFault w (S (S (dbCalls st))) = None /\
      exists e, dbFault w (S (S (S (dbCalls st)))) = Some e /\
        fst (POST js w st) =
          Normal {| status := 500;
                    payload := ErrorBody ("Internal server error: " ++ e)
                                 None |})).
Proof.
  cbv zeta.
  destruct (accepted js w st) as [c st1] eqn:Hacc.
  pose proof (accepted_updates st st1 c Hacc) as Hu.
  assert (Hend : Store.tripMatches (db (snd (POST js w st))) =
                 Store.tripMatches (db st1)).
  { unfold POST, call, tryCatch, bind, return_. rewrite Hacc.
    destruct c as [a | r | e]; [|reflexivity|reflexivity].
    pose proof (provisionGroup_keeps_matches a st1) as Hk.
    destruct (provisionGroup w a st1) as [[r | r | e] st2]; exact Hk. }
  rewrite Hend.
  destruct Hu as [Hu | (m & Hm & [Hu | (Hu & F0 & e & F1 & ->)])].
  - now left.
  - right. exists m. split; [exact Hm|]. now left.
  - right. exists m. split; [exact Hm|]. right.
    split; [exact Hu|]. split; [exact F0|]. exists e. split; [exact F1|].
    unfold POST, call, tryCatch, bind, return_. now rewrite Hacc.
Qed.

(** The two updates set every record between the two trips, in either
    direction, to accepted, and leave the other records as they are. *)
Lemma setMatchStatus_both (a b : Z) (s : Store.t) :
  Spec.acceptsBothDirections (Store.tripMatches s)
    (Store.tripMatches
       (snd (Store.setMatchStatus b a "accepted"
               (snd (Store.setMatchStatus a b "accepted" s))))).
Proof.
  simpl. rewrite map_map.
  pose (set1 := fun (x y : Z) (r : TripMatch.t) =>
    if (TripMatch.tripId r =? x) && (TripMatch.matchedTripId r =? y)
    then TripMatch.with_status r "accepted" else r).
  change (Spec.acceptsBothDirections (Store.tripMatches s)
            (map (fun r => set1 b a (set1 a b r)) (Store.tripMatches s))).
  assert (Hpair : forall x y r, Spec.pairOf (set1 x y r) = Spec.pairOf r).
  { intros x y r. unfold set1. now destruct (_ && _). }
  assert (Hhit : forall x y r,
            Spec.pairOf r = (x, y) ->
            TripMatch.status (set1 x y r) = "accepted").
  { intros x y r Hr. unfold set1. injection Hr as Hx Hy.
    now rewrite Hx, Hy, !Z.eqb_refl. }
  assert (Hmiss : forall x y r, Spec.pairOf r <> (x, y) -> set1 x y r = r).
  { intros x y r Hr. unfold set1.
    destruct (TripMatch.tripId r =? x) eqn:E1,
             (TripMatch.matchedTripId r =? y) eqn:E2; try reflexivity.
    apply Z.eqb_eq in E1, E2. elim Hr. unfold Spec.pairOf. congruence. }
  assert (Hstay : forall x y r,
            TripMatch.status r = "accepted" ->
            TripMatch.status (set1 x y r) = "accepted").
  { intros x y r Hr. unfold set1. now destruct (_ && _). }
  assert (Hdec : forall (p q : Z * Z), p = q \/ p <> q).
  { intros [p1 p2] [q1 q2].
    destruct (Z.eq_dec p1 q1), (Z.eq_dec p2 q2);
      [left; congruence | right; congruence ..]. }
  intros i m0 m H0 H1 Hn Ha m' Hin' Hp'.
  rewrite nth_error_map, H0 in H1. simpl in H1. injection H1 as <-.
  apply in_map_iff in Hin'. destruct Hin' as (r & <- & _).
  rewrite !Hpair in Hp'.
  change (TripMatch.matchedTripId (set1 b a (set1 a b m0)),
          TripMatch.tripId (set1 b a (set1 a b m0)))
    with (snd (Spec.pairOf (set1 b a (set1 a b m0))),
          fst (Spec.pairOf (set1 b a (set1 a b m0)))) in Hp'.
  rewrite !Hpair in Hp'.
  destruct (Hdec (Spec.pairOf m0) (a, b)) as [E1 | N1].
  - (* the reverse of a record from a to b is a record from b to a *)
    apply Hhit. rewrite Hpair, Hp', E1. reflexivity.
  - destruct (Hdec (Spec.pairOf m0) (b, a)) as [E2 | N2].
    + apply Hstay, Hhit. rewrite Hp', E2. reflexivity.
    + elim Hn. rewrite (Hmiss a b m0 N1), (Hmiss b a m0 N2) in Ha.
      exact Ha.
Qed.

Lemma acceptsBothDirections_same (matches : list TripMatch.t) :
  Spec.acceptsBothDirections matches matches.
Proof.
  intros i m0 m H0 H1 Hn Ha. rewrite H0 in H1. injection H1 as <-.
  now elim Hn.
Qed.

End AcceptedFacts.

(** C3: the mirror-record invariant.  The batch the Match Set Builder
    builds holds, next to every record (pending, stamped with the time of
    the pass), its mirror with the same score, status and timestamp.  When
    an acceptance has gone through its checks and its two updates, every
    record between the two trips is accepted in both directions when the
    handler ends.  The two updates are two statements, with no transaction
    around them: a run of the accept handler leaves the match records as
    they were, or as the two updates for the pair of a stored record leave
    them, or, when the driver throws on the second update (the fourth
    database call), as the first update alone leaves them; so every run
    either sets the reverse records of the records it sets to accepted to
    accepted as well, or is a run of the last kind, and then the handler
    answers 500 with the reverse direction as it was.  From a store in
    which every match record has its mirror, trip creation, acceptance and
    the deletion of a trip, whatever the database driver throws, lead to a
    store in which every record still has its mirror, so that every pending
    or accepted match has a mirror with the ids swapped and the same score
    (the status of the two may differ). *)
Theorem mirror_records_maintained (js : JSRuntime) (w : World) (st : HState) :
  (forall c r,
     In r (TripsRoute.insertsOf js w c st) ->
     TripMatch.status r = "pending" /\
     exists r',
       In r' (TripsRoute.insertsOf js w c st) /\ Spec.mirrorOf r r' /\
       TripMatch.status r' = "pending" /\
       TripMatch.createdAt r' = TripMatch.createdAt r) /\
  (forall a st1,
     AcceptRoute.accepted js w st = (Normal a, st1) ->
     forall m,
       In m (Store.tripMatches (db (snd (AcceptRoute.POST js w st)))) ->
       Spec.pairOf m = (AcceptRoute.tripId a, AcceptRoute.matchedTripId a) \/
       Spec.pairOf m = (AcceptRoute.matchedTripId a, AcceptRoute.tripId a) ->
       TripMatch.status m = "accepted") /\
  (let after := Store.tripMatches (db (snd (AcceptRoute.POST js w st))) in
   after = Store.tripMatches (db st) \/
   exists m, In m (Store.tripMatches (db st)) /\
     (after =
        Store.tripMatches
          (snd (Store.setMatchStatus (TripMatch.matchedTripId m)
                  (TripMatch.tripId m) "accepted"
                  (snd (Store.setMatchStatus (TripMatch.tripId m)
                          (TripMatch.matchedTripId m) "accepted" (db st)))))
      \/
      (after =
         Store.tripMatches
           (snd (Store.setMatchStatus (TripMatch.tripId m)
                   (TripMatch.matchedTripId m) "accepted" (db st))) /\
       exists e, dbFault w (S (S (S (dbCalls st)))) = Some e))) /\
  (Spec.acceptsBothDirections (Store.tripMatches (db st))
     (Store.tripMatches (db (snd (AcceptRoute.POST js w st)))) \/
   exists m e,
     In m (Store.tripMatches (db st)) /\
     dbFault w (S (S (dbCalls st))) = None /\
     dbFault w (S (S (S (dbCalls st)))) = Some e /\
     fst (AcceptRoute.POST js w st) =
       Normal {| status := 500;
                 payload := ErrorBody ("Internal server error: " ++ e) None |}
     /\
     Store.tripMatches (db (snd (AcceptRoute.POST js w st))) =
       Store.tripMatches
         (snd (Store.setMatchStatus (TripMatch.tripId m)
                 (TripMatch.matchedTripId m) "accepted" (db st)))) /\
  (allMirrored (Store.tripMatches (db st)) ->
   forall after,
     after = db (snd (TripsRoute.POST js w st)) \/
     after = db (snd (AcceptRoute.POST js w st)) \/
     (exists i, after = snd (Store.deleteTrip i (db st))) ->
     allMirrored (Store.tripMatches after) /\
     Spec.mirrored (Store.tripMatches after)).
Proof.
  split; [|split; [|split; [|split]]].
  - intros c r Hr. unfold TripsRoute.insertsOf in *.
    destruct (buildMatchInserts_pairs js _ _ _ _ _ _ _ _ Hr)
      as (Hs & Ht & r' & Hin & Hmir & Hs' & Ht').
    split; [exact Hs|]. exists r'.
    split; [exact Hin|]. split; [exact Hmir|]. split; [exact Hs'|congruence].
  - intros a st1 Hacc m.
    rewrite (POST_matches_after_accepted js w st st1 a Hacc).
    apply (accepted_both_directions js w st st1 a Hacc).
  - cbv zeta.
    destruct (POST_updates js w st)
      as [Hu | (m & Hm & [Hu | (Hu & _ & e & F1 & _)])].
    + now left.
    + right. exists m. split; [exact Hm|]. now left.
    + right. exists m. split; [exact Hm|]. right. split; [exact Hu|].
      now exists e.
  - destruct (POST_updates js w st)
      as [Hu | (m & Hm & [Hu | (Hu & F0 & e & F1 & H500)])].
    + left. rewrite Hu. apply acceptsBothDirections_same.
    + left. rewrite Hu. apply setMatchStatus_both.
    + right. exists m, e. auto.
  - intros H after Hafter.
    assert (Hall : allMirrored (Store.tripMatches after)).
    { destruct Hafter as [-> | [-> | (i & ->)]].
      - revert H.
        apply (trips_POST_stable js w
                 (fun s s' => allMirrored (Store.tripMatches s) ->
                              allMirrored (Store.tripMatches s'))); auto.
        intros c. apply matchingPass_allMirrored.
      - revert H.
        apply (accept_POST_stable js w
                 (fun s s' => allMirrored (Store.tripMatches s) ->
                              allMirrored (Store.tripMatches s'))); auto.
        intros a b x s. apply setMatchStatus_allMirrored.
      - now apply deleteTrip_allMirrored. }
    split; [exact Hall | now apply allMirrored_spec].
Qed.

(** In the scenario every record of the store has its mirror; after Dave
    accepts the match of his trip 5 with Bob's trip 2 both records between
    the two trips are accepted, the other two are untouched, and every
    record still has its mirror. *)
Lemma mirror_records_maintained_witness :
  allMirrored (Store.tripMatches Scenario.store2) /\
  map (fun m => (Spec.pairOf m, TripMatch.status m))
    (Store.tripMatches Scenario.store3)
  = [((5, 2), "accepted"); ((2, 5), "accepted");
     ((5, 6), "pending"); ((6, 5), "pending")] /\
  allMirrored (Store.tripMatches Scenario.store3) /\
  Spec.mirrored (Store.tripMatches Scenario.store3) /\
  (forall m,
     In m (Store.tripMatches Scenario.store3) ->
     Spec.pairOf m = (5, 2) \/ Spec.pairOf m = (2, 5) ->
     TripMatch.status m = "accepted") /\
  Spec.acceptsBothDirections (Store.tripMatches Scenario.store2)
    (Store.tripMatches Scenario.store3).
Proof.
  assert (H : allMirrored (Store.tripMatches Scenario.store2)).
  { intros m [<- | [<- | [<- | [<- | []]]]].
    - exists (Scenario.mkMatch 2 2 5 150). simpl. unfold Spec.mirrorOf. auto 8.
    - exists (Scenario.mkMatch 1 5 2 150). simpl. unfold Spec.mirrorOf. auto 8.
    - exists (Scenario.mkMatch 4 6 5 100). simpl. unfold Spec.mirrorOf. auto 8.
    - exists (Scenario.mkMatch 3 5 6 100). simpl. unfold Spec.mirrorOf. auto 8. }
  destruct (mirror_records_maintained Runtime.js
              (Scenario.worldAccept (JNum 1)) (initial Scenario.store2))
    as (_ & Hboth & _ & Hsets & Hkeep).
  split; [exact H|]. split; [vm_compute; reflexivity|].
  destruct (Hkeep H Scenario.store3) as (Hall & Hspec).
  { right. left. vm_compute. reflexivity. }
  split; [exact Hall|]. split; [exact Hspec|].
  split.
  - eassert (E : AcceptRoute.accepted Runtime.js
                   (Scenario.worldAccept (JNum 1)) (initial Scenario.store2)
                 = (Normal _, _)) by (vm_compute; reflexivity).
    exact (Hboth _ _ E).
  - destruct Hsets as [Hsets | (m & e & _ & _ & F & _)].
    + exact Hsets.
    + discriminate F.
Defined.

(** The same acceptance when the driver throws on the second update: the
    handler answers 500, the record from trip 5 to trip 2 has been set to
    accepted and stays so, and its reverse, from 2 to 5, is still
    pending. *)
Lemma second_update_fault_leaves_reverse_pending :
  fst (AcceptRoute.POST Runtime.js Scenario.worldSecondUpdateFails
         (initial Scenario.store2)) =
    Normal {| status := 500;
              payload := ErrorBody "Internal server error: SQLITE_BUSY"
                           None |} /\
  map (fun m => (Spec.pairOf m, TripMatch.status m))
    (Store.tripMatches
       (db (snd (AcceptRoute.POST Runtime.js Scenario.worldSecondUpdateFails
                   (initial Scenario.store2)))))
  = [((5, 2), "accepted"); ((2, 5), "pending");
     ((5, 6), "pending"); ((6, 5), "pending")] /\
  ~ Spec.acceptsBothDirections (Store.tripMatches Scenario.store2)
      (Store.tripMatches
         (db (snd (AcceptRoute.POST Runtime.js
                     Scenario.worldSecondUpdateFails
                     (initial Scenario.store2))))).
Proof.
  split; [vm_compute; reflexivity|]. split; [vm_compute; reflexivity|].
  intros H.
  specialize (H 0%nat (Scenario.mkMatch 1 5 2 150)
                (TripMatch.with_status (Scenario.mkMatch 1 5 2 150)
                   "accepted")
                eq_refl).
  assert (C : TripMatch.status (Scenario.mkMatch 2 2 5 150) = "accepted").
  { apply H.
    - vm_compute. reflexivity.
    - discriminate.
    - reflexivity.
    - vm_compute. right. left. reflexivity.
    - reflexivity. }
  discriminate C.
Qed.

(** ** Insertion of match records *)

Lemma countPair_app (pair : Z * Z) (a b : list TripMatch.t) :
  countPair pair (a ++ b) = (countPair pair a + countPair pair b)%nat.
Proof. unfold countPair. now rewrite filter_app, length_app. Qed.

Lemma countPair_number (pair : Z * Z) (rows : list TripMatch.t) :
  forall from,
    countPair pair (Store.number_matches from rows) = countPair pair rows.
Proof.
  unfold countPair. induction rows as [|r rows IH]; intros from; simpl;
    [reflexivity|].
  destruct (_ && _); simpl; now rewrite IH.
Qed.

(** C6, as the code has it: the batch insertion appends.  Performing it
    twice with the same rows stores every row twice, under fresh ids: for
    every pair of trips the table then holds the records it held plus twice
    those of the batch, so duplicate pairs are stored, not ignored. *)
Theorem insertTripMatches_twice_stores_twice
    (rows : list TripMatch.t) (s : Store.t) (pair : Z * Z) :
  let once := snd (Store.insertTripMatches rows s) in
  let twice := snd (Store.insertTripMatches rows once) in
  Store.tripMatches twice =
    (Store.tripMatches s
       ++ Store.number_matches (Store.seq_tripMatches s) rows
       ++ Store.number_matches
            (Store.seq_tripMatches s + Z.of_nat (List.length rows)) rows)%list
  /\ List.length (Store.tripMatches twice) =
       (List.length (Store.tripMatches s) + 2 * List.length rows)%nat
  /\ countPair pair (Store.tripMatches twice) =
       (countPair pair (Store.tripMatches s) + 2 * countPair pair rows)%nat.
Proof.
  cbv zeta. simpl. rewrite <- app_assoc. split; [reflexivity|].
  assert (Hlen : forall from,
            List.length (Store.number_matches from rows) = List.length rows).
  { induction rows as [|r l IH]; intros from; simpl; [reflexivity|].
    now rewrite IH. }
  split.
  - rewrite !length_app, !Hlen. lia.
  - rewrite !countPair_app, !countPair_number. lia.
Qed.

(** Inserting the two records of the match of trips 5 and 2 twice, into
    the store of the scenario that holds the trips and no match yet, leaves
    four rows, two for each pair: the table has duplicate pairs. *)
Lemma insertTripMatches_twice_duplicates :
  map Spec.pairOf
    (Store.tripMatches
       (snd (Store.insertTripMatches
               [Scenario.mkMatch 0 5 2 150; Scenario.mkMatch 0 2 5 150]
               (snd (Store.insertTripMatches
                       [Scenario.mkMatch 0 5 2 150; Scenario.mkMatch 0 2 5 150]
                       Scenario.store1)))))
  = [(5, 2); (2, 5); (5, 2); (2, 5)] /\
  ~ NoDup
      (map Spec.pairOf
         (Store.tripMatches
            (snd (Store.insertTripMatches
                    [Scenario.mkMatch 0 5 2 150; Scenario.mkMatch 0 2 5 150]
                    (snd (Store.insertTripMatches
                            [Scenario.mkMatch 0 5 2 150;
                             Scenario.mkMatch 0 2 5 150]
                            Scenario.store1)))))).
Proof.
  split; [reflexivity|]. simpl. intros H.
  inversion H as [|x l Hnotin _]; subst. apply Hnotin. simpl. auto.
Qed.

(** ** Route cost *)

(** C9, where the code departs from its own table: the rates of [car],
    [bus], [train] and [flight] are those of the table, a mode that is no
    property of the table costs 0.3 per km, and "cheapest" multiplies the
    cost by 0.8; but [cycling] and [walking], whose rate in the table is 0,
    are charged the fallback 0.3 per km, because [0 || 0.3] is [0.3]: ten
    kilometres by bicycle cost 3, not 0. *)
Theorem estimateCost_zero_rate_falls_back (distanceKm : float)
    (mainRoute : RouteGeometry) (mode : string) :
  RouteRoute.costPerKm "cycling" = RouteRoute.Own 0 /\
  RouteRoute.costPerKm "walking" = RouteRoute.Own 0 /\
  RouteRoute.estimateCost distanceKm "cycling" = (distanceKm * 0.3)%float /\
  RouteRoute.estimateCost distanceKm "walking" = (distanceKm * 0.3)%float /\
  RouteRoute.mainRouteCost
    {| coordinates := []; distance := 10000; duration := 1800 |}
    "cycling" "fastest" = 3%float /\
  RouteRoute.estimateCost distanceKm "car" = (distanceKm * 0.5)%float /\
  RouteRoute.estimateCost distanceKm "bus" = (distanceKm * 0.15)%float /\
  RouteRoute.estimateCost distanceKm "train" = (distanceKm * 0.25)%float /\
  RouteRoute.estimateCost distanceKm "flight" = (distanceKm * 0.8)%float /\
  RouteRoute.estimateCost distanceKm "tram" = (distanceKm * 0.3)%float /\
  RouteRoute.mainRouteCost mainRoute mode "cheapest" =
    (RouteRoute.estimateCost (distance mainRoute / 1000) mode * 0.8)%float /\
  RouteRoute.mainRouteCost mainRoute mode "fastest" =
    RouteRoute.estimateCost (distance mainRoute / 1000) mode.
Proof.
  repeat split; reflexivity.
Qed.

(** * Part III: further properties of the handlers

    What the code shows beyond the statements of Part II: edge and error
    behaviour, invariants of the store, and how the handlers compose. *)

(** ** The distance to a route *)

Section RouteDistanceFacts.
Context (js : JSRuntime).
Local Open Scope float_scope.
Import FloatOrder FloatPreorder.

(** The loop started from a running minimum [m0] ends with the smaller of
    [m0] and what the loop gives from infinity. *)
Lemma distanceToRoute_loop_from (pt : Geo.point) (L : list Geo.point) :
  forall m0, is_nan m0 = false ->
    fold_left (Geo.distanceToRoute_step js pt) L m0 =
    if Geo.distanceToRoute js pt L <? m0 then Geo.distanceToRoute js pt L
    else m0.
Proof.
  unfold Geo.distanceToRoute.
  induction L as [|v L IH]; intros m0 Hm; simpl.
  - now rewrite infinity_not_below.
  - rewrite (IH (Geo.distanceToRoute_step js pt m0 v))
      by now apply distanceToRoute_step_not_nan.
    rewrite (IH (Geo.distanceToRoute_step js pt infinity v))
      by now apply distanceToRoute_step_not_nan.
    pose proof (distanceToRoute_loop_not_nan js pt L infinity eq_refl) as Hr.
    set (r := fold_left (Geo.distanceToRoute_step js pt) L infinity) in *.
    unfold Geo.distanceToRoute_step.
    set (d := Geo.calculateDistance js pt v).
    destruct (d <? m0) eqn:Hd.
    + rewrite (below_infinity _ _ Hd).
      destruct (r <? d) eqn:Hrd.
      * now rewrite (ltb_trans _ _ _ Hrd Hd).
      * now rewrite Hd.
    + destruct (d <? infinity) eqn:Hdi.
      * destruct (r <? d) eqn:Hrd; [reflexivity|]. rewrite Hd.
        destruct (r <? m0) eqn:Hrm; [|reflexivity]. exfalso.
        destruct (ltb_not_nan _ _ Hdi) as [Hdn _].
        destruct (ltb_between _ d _ Hdn Hrm); congruence.
      * destruct (r <? infinity) eqn:Hri; [reflexivity|].
        rewrite (not_below_infinity _ Hr Hri).
        now rewrite !infinity_not_below.
Qed.

(** X1: the distance to a route made of two parts is the smaller of the
    distances to the parts (the first one when they are equal). *)
Theorem distanceToRoute_app (pt : Geo.point) (L1 L2 : list Geo.point) :
  Geo.distanceToRoute js pt (L1 ++ L2) =
  if Geo.distanceToRoute js pt L2 <? Geo.distanceToRoute js pt L1
  then Geo.distanceToRoute js pt L2
  else Geo.distanceToRoute js pt L1.
Proof.
  unfold Geo.distanceToRoute at 1. rewrite fold_left_app.
  apply distanceToRoute_loop_from. apply distanceToRoute_not_nan.
Qed.

(** X2: for a threshold below infinity, a point is along a route exactly when
    some vertex of the route is within the threshold of it. *)
Theorem isAlongRoute_iff_vertex_within
    (pt : Geo.point) (L : list Geo.point) (t : float) :
  (infinity <=? t) = false ->
  (Geo.isAlongRoute js pt L t = true <->
   exists v, In v L /\ (Geo.calculateDistance js pt v <=? t) = true).
Proof.
  intros Ht. unfold Geo.isAlongRoute.
  destruct (distanceToRoute_loop js pt L infinity) as (Ha & _ & Hc).
  fold (Geo.distanceToRoute js pt L) in Ha, Hc.
  pose proof (distanceToRoute_not_nan js pt L) as Hr.
  split.
  - intros H. destruct Ha as [Ha | (v & Hin & Hv)].
    + rewrite Ha in H. congruence.
    + exists v. split; [assumption|]. now rewrite Hv.
  - intros (v & Hin & Hv).
    destruct (leb_not_nan _ _ Hv) as [Hd _].
    apply (leb_trans _ (Geo.calculateDistance js pt v)); [|assumption].
    apply not_ltb_leb; auto.
Qed.

End RouteDistanceFacts.

Lemma isAlongRoute_iff_vertex_within_witness :
  (infinity <=? 60)%float = false /\
  (Geo.isAlongRoute Runtime.js (0, 0)%float [(0, 1); (0, 0.5); (1, 1)]%float
     60 = true <->
   exists v, In v [(0, 1); (0, 0.5); (1, 1)]%float /\
     (Geo.calculateDistance Runtime.js (0, 0)%float v <=? 60)%float = true).
Proof.
  split; [reflexivity|].
  apply (isAlongRoute_iff_vertex_within Runtime.js). reflexivity.
Defined.

Section ReasonFacts.
Context (js : JSRuntime).
Import TripsRoute.

(** X3: the reason built for a candidate is the comma-separated list of the
    tags of the rules 1 to 4 that fired, in that order; rules 5 and 6 leave
    it alone, so a candidate that only shares the date and the transport
    mode has an empty reason, and a candidate that passes the threshold
    never has. *)
Theorem matchReason_lists_fired_rules
    (sd : SanitizedData) (sourceCoords destCoords : option Geo.point)
    (routeGeometry : option (list Geo.point)) (candidate : Trip.t) :
  let s := scoreCandidate js sd sourceCoords destCoords routeGeometry
             candidate in
  let tags := firedTags js sd sourceCoords destCoords routeGeometry
                candidate in
  matchReason s = String.concat "," tags /\
  (tags = [] -> matchReason s = "" /\ matchScore s <= 50) /\
  (50 < matchScore s -> matchReason s <> "").
Proof.
  unfold scoreCandidate, firedTags.
  destruct (String.eqb (toLowerCase js (destination sd))
              (toLowerCase js (Trip.destination candidate)));
  destruct (routeRuleFires js sourceCoords (Trip.routeGeometry candidate));
  destruct (routeRuleFires js destCoords (Trip.routeGeometry candidate));
  destruct (routeRuleFires js
              (parseStoredCoordinates js (Trip.sourceCoordinates candidate))
              routeGeometry);
  destruct (String.eqb (Trip.travelDate candidate) (travelDate sd));
  destruct (String.eqb (toLowerCase js (Trip.transportMode candidate))
              (toLowerCase js (transportMode sd)));
  cbn; (split; [reflexivity|]); split;
    try (intros H; discriminate H);
    try (intros _; split; [reflexivity|lia]);
    try (intros _; discriminate);
    try (intros H; lia).
Qed.

End ReasonFacts.

Section CandidateFacts.
Context (js : JSRuntime) (w : World).
Import TripsRoute.

Lemma emitted_inversion sd sc dc rg newId ts candidate (r : TripMatch.t) :
  In r (emitted js sd sc dc rg newId ts candidate) ->
  let score := matchScore (scoreCandidate js sd sc dc rg candidate) in
  50 < score <= 210 /\
  TripMatch.matchScore r = score /\
  TripMatch.status r = "pending" /\
  TripMatch.createdAt r = ts /\
  (Spec.pairOf r = (newId, Trip.id candidate) \/
   Spec.pairOf r = (Trip.id candidate, newId)).
Proof.
  intros H. cbv zeta. unfold emitted, matchingStep in H.
  set (score := matchScore (scoreCandidate js sd sc dc rg candidate)) in *.
  assert (Hb : 0 <= score <= 210).
  { unfold score. rewrite scoreCandidate_totalPoints. unfold Spec.ruleTable.
    apply ruleTable_bounds. }
  destruct (50 <? score) eqn:E; [|destruct H].
  apply Z.ltb_lt in E.
  destruct H as [<- | [<- | []]]; cbn; repeat split; auto; lia.
Qed.

(** X4: whatever fails, every match record that the matching pass adds
    relates the new trip to an active trip of another user that was in the
    store, in one or the other direction, is pending, and carries that
    candidate's score, which is above 50 and at most 210. *)
Theorem matchingPass_adds_only_candidates
    (c : Created) (st : HState) (r : TripMatch.t) :
  In r (Store.tripMatches (db (snd (matchingPass js w c st)))) ->
  In r (Store.tripMatches (db st)) \/
  exists candidate,
    In candidate (Store.trips (db st)) /\
    Trip.status candidate = "active" /\
    Trip.userId candidate <> sessionUserId c /\
    (Spec.pairOf r = (Trip.id (createdTrip c), Trip.id candidate) \/
     Spec.pairOf r = (Trip.id candidate, Trip.id (createdTrip c))) /\
    TripMatch.status r = "pending" /\
    TripMatch.matchScore r =
      matchScore (scoreCandidate js (sanitizedData c) (Some (sourceCoords c))
                    (Some (destCoords c)) (routeGeometry c) candidate) /\
    50 < TripMatch.matchScore r <= 210.
Proof.
  intros H.
  destruct (matchingPass_store js w c st) as (_ & _ & _ & [E | E]);
    rewrite E in H; [now left|].
  apply in_app_or in H. destruct H as [H | H]; [now left|]. right.
  apply in_number_matches in H. destruct H as (r0 & i & H0 & ->).
  unfold insertsOf in H0. rewrite buildMatchInserts_flat_map in H0.
  apply in_flat_map in H0. destruct H0 as (candidate & Hc & Hr).
  unfold candidatesOf in Hc. apply filter_In in Hc. destruct Hc as [Hin Hp].
  unfold isPotentialMatch in Hp. apply andb_true_iff in Hp.
  destruct Hp as [Hs Hu]. apply String.eqb_eq in Hs.
  apply negb_true_iff, String.eqb_neq in Hu.
  apply emitted_inversion in Hr. cbv zeta in Hr.
  destruct Hr as (Hb & Hscore & Hst & _ & Hpair).
  exists candidate. cbn. rewrite Hscore. repeat split; auto; try lia.
Qed.

End CandidateFacts.

Lemma matchingPass_adds_only_candidates_witness :
  In (Scenario.mkMatch 1 5 2 150)
    (Store.tripMatches
       (db (snd (TripsRoute.matchingPass Runtime.js Scenario.world
                   Scenario.created0 Scenario.st1)))) /\
  (In (Scenario.mkMatch 1 5 2 150) (Store.tripMatches (db Scenario.st1)) \/
   exists candidate,
     In candidate (Store.trips (db Scenario.st1)) /\
     Trip.status candidate = "active" /\
     Trip.userId candidate <> "dave" /\
     (Spec.pairOf (Scenario.mkMatch 1 5 2 150) = (5, Trip.id candidate) \/
      Spec.pairOf (Scenario.mkMatch 1 5 2 150) = (Trip.id candidate, 5)) /\
     TripMatch.status (Scenario.mkMatch 1 5 2 150) = "pending" /\
     TripMatch.matchScore (Scenario.mkMatch 1 5 2 150) =
       TripsRoute.matchScore
         (TripsRoute.scoreCandidate Runtime.js Scenario.sanitized
            (Some (13, 77.5)%float) (Some (13, 80.25)%float)
            (Some Scenario.road) candidate) /\
     50 < TripMatch.matchScore (Scenario.mkMatch 1 5 2 150) <= 210).
Proof.
  assert (H : In (Scenario.mkMatch 1 5 2 150)
                (Store.tripMatches
                   (db (snd (TripsRoute.matchingPass Runtime.js
                               Scenario.world Scenario.created0
                               Scenario.st1)))))
    by (vm_compute; left; reflexivity).
  split; [exact H|].
  exact (matchingPass_adds_only_candidates Runtime.js Scenario.world
           Scenario.created0 Scenario.st1 (Scenario.mkMatch 1 5 2 150) H).
Defined.

Section RoundTrip.
Context (js : JSRuntime) (w : World).
Import TripsRoute.

Lemma append_String (a : string) (c : ascii) (b : string) :
  (a ++ String c "") ++ b = a ++ String c b.
Proof. induction a as [|x a IH]; simpl; [reflexivity|now rewrite IH]. Qed.

Lemma append_empty (a : string) : a ++ "" = a.
Proof. induction a as [|x a IH]; simpl; [reflexivity|now rewrite IH]. Qed.

Lemma split_comma_from_free (s : string) :
  forall cur, commaFree s = true -> split_comma_from cur s = [cur ++ s].
Proof.
  induction s as [|c s IH]; intros cur H; simpl.
  - now rewrite append_empty.
  - simpl in H. apply andb_true_iff in H. destruct H as [Hc Hs].
    apply negb_true_iff in Hc. rewrite Hc, (IH _ Hs).
    now rewrite append_String.
Qed.

Lemma split_comma_from_app (s1 s2 : string) :
  forall cur, commaFree s1 = true ->
    split_comma_from cur (s1 ++ "," ++ s2) =
    (cur ++ s1) :: split_comma_from "" s2.
Proof.
  induction s1 as [|c s1 IH]; intros cur H; simpl.
  - now rewrite append_empty.
  - simpl in H. apply andb_true_iff in H. destruct H as [Hc Hs].
    apply negb_true_iff in Hc. rewrite Hc, (IH _ Hs).
    now rewrite append_String.
Qed.

Lemma truthy_string_append (a b : string) :
  truthy_string b = true -> truthy_string (a ++ b) = true.
Proof.
  unfold truthy_string. destruct a; simpl; [auto|reflexivity].
Qed.

Lemma parse_formatCoordinates (c : Geo.point) :
  commaFree (numberToString js (fst c)) = true ->
  commaFree (numberToString js (snd c)) = true ->
  parseFloat js (numberToString js (fst c)) = fst c ->
  parseFloat js (numberToString js (snd c)) = snd c ->
  parseStoredCoordinates js (Some (formatCoordinates js c)) = Some c.
Proof.
  intros F1 F2 P1 P2. unfold parseStoredCoordinates, formatCoordinates.
  rewrite truthy_string_append by reflexivity.
  unfold Geo.parseCoordinates, split_comma.
  rewrite (split_comma_from_app _ _ "" F1).
  rewrite (split_comma_from_free _ "" F2). simpl.
  rewrite P1, P2. now destruct c.
Qed.

(** The row that [createTrip] inserts. *)
Lemma createTrip_row (userId : string) (sd : SanitizedData)
    (st st' : HState) (c : Created) :
  createTrip js w userId sd st = (Normal c, st') ->
  Trip.id (createdTrip c) = Store.seq_trips (db st) + 1 /\
  Trip.status (createdTrip c) = "active" /\
  Trip.sourceCoordinates (createdTrip c) =
    Some (formatCoordinates js (sourceCoords c)) /\
  Trip.destinationCoordinates (createdTrip c) =
    Some (formatCoordinates js (destCoords c)) /\
  Trip.createdAt (createdTrip c) = clock w (clockTicks st) /\
  Trip.updatedAt (createdTrip c) = clock w (clockTicks st) /\
  db st' = snd (Store.insertTrip (createdTrip c) (db st)).
Proof.
  unfold createTrip, bind, now, dbCall, ret, return_.
  destruct (geocode w (source sd)) as [sc|];
    [|destruct (geocode w (destination sd)); discriminate].
  destruct (geocode w (destination sd)) as [dc|]; [|discriminate].
  simpl. destruct (dbFault w (dbCalls st)); [discriminate|].
  simpl. intros H. injection H as <- <-. simpl. repeat split; reflexivity.
Qed.

(** X5: the coordinates that trip creation stores as text are read back
    unchanged by the matching pass of a later request, provided the
    runtime prints a number without a comma and parses back what it
    prints. *)
Theorem stored_coordinates_round_trip (userId : string) (sd : SanitizedData)
    (st st' : HState) (c : Created) :
  createTrip js w userId sd st = (Normal c, st') ->
  (forall x, x = fst (sourceCoords c) \/ x = snd (sourceCoords c) \/
             x = fst (destCoords c) \/ x = snd (destCoords c) ->
     commaFree (numberToString js x) = true /\
     parseFloat js (numberToString js x) = x) ->
  parseStoredCoordinates js (Trip.sourceCoordinates (createdTrip c)) =
    Some (sourceCoords c) /\
  parseStoredCoordinates js (Trip.destinationCoordinates (createdTrip c)) =
    Some (destCoords c).
Proof.
  intros H Hjs. apply createTrip_row in H.
  destruct H as (_ & _ & Hs & Hd & _). rewrite Hs, Hd.
  split; apply parse_formatCoordinates; apply Hjs; auto.
Qed.

End RoundTrip.

Lemma stored_coordinates_round_trip_witness :
  TripsRoute.createTrip Runtime.js Scenario.world "dave" Scenario.sanitized
    (initial Scenario.store0) = (Normal Scenario.created0, Scenario.st1) /\
  Trip.sourceCoordinates Scenario.newTrip = Some "13,77.5" /\
  TripsRoute.parseStoredCoordinates Runtime.js
    (Trip.sourceCoordinates Scenario.newTrip) = Some (13, 77.5)%float /\
  TripsRoute.parseStoredCoordinates Runtime.js
    (Trip.destinationCoordinates Scenario.newTrip) = Some (13, 80.25)%float.
Proof.
  assert (H : TripsRoute.createTrip Runtime.js Scenario.world "dave"
                Scenario.sanitized (initial Scenario.store0)
              = (Normal Scenario.created0, Scenario.st1))
    by (vm_compute; reflexivity).
  split; [exact H|]. split; [reflexivity|].
  apply (stored_coordinates_round_trip Runtime.js Scenario.world "dave"
           Scenario.sanitized (initial Scenario.store0) Scenario.st1
           Scenario.created0 H).
  intros x [-> | [-> | [-> | ->]]]; vm_compute; split; reflexivity.
Defined.

Section CreationOutcomes.
Context (js : JSRuntime) (w : World).
Import TripsRoute.

Lemma authenticate_outcome (st : HState) :
  exists c, authenticate js w st = (c, st) /\
    match c with
    | Normal (userId, body) =>
        getSession w = Ok (Some {| session_user := Some userId |}) /\
        requestJson w = Ok body /\
        hasKey js "userId" body = Ok false /\ hasKey js "user_id" body = Ok false
    | Return r =>
        (isError r 401 "AUTHENTICATION_REQUIRED" /\ noSessionUser w) \/
        (isError r 400 "USER_ID_NOT_ALLOWED" /\ ~ noSessionUser w)
    | Throw _ => ~ noSessionUser w
    end.
Proof.
  unfold authenticate, bind, lift, returnIf, ret, return_, noSessionUser,
    isError, errorResponse.
  destruct (getSession w) as [[[[u|]]|]|e] eqn:Es; simpl.
  - assert (N : ~ (Ok (Some {| session_user := Some u |}) = Ok None \/
                   Ok (Some {| session_user := Some u |}) =
                   Ok (Some {| session_user := None |})))
      by (intros [H | H]; discriminate).
    destruct (requestJson w) as [body|e] eqn:Eb; simpl.
    + destruct (hasKey js "userId" body) as [[|]|e] eqn:E1; simpl.
      * eexists; split; [reflexivity|]. right. split; [|exact N].
        split; [reflexivity|]. eexists; reflexivity.
      * destruct (hasKey js "user_id" body) as [[|]|e] eqn:E2; simpl.
        -- eexists; split; [reflexivity|]. right. split; [|exact N].
           split; [reflexivity|]. eexists; reflexivity.
        -- eexists; split; [reflexivity|]. simpl. auto.
        -- eexists; split; [reflexivity|]. exact N.
      * eexists; split; [reflexivity|]. exact N.
    + eexists; split; [reflexivity|]. exact N.
  - eexists; split; [reflexivity|]. left. split; [|now right].
    split; [reflexivity|]. eexists; reflexivity.
  - eexists; split; [reflexivity|]. left. split; [|now left].
    split; [reflexivity|]. eexists; reflexivity.
  - eexists; split; [reflexivity|]. intros [H | H]; discriminate.
Qed.

Lemma sanitize_outcome (body : json) (st : HState) :
  exists c, sanitize js body st = (c, st) /\
    match c with
    | Normal sd => True
    | Return r => isError r 400 "MISSING_REQUIRED_FIELDS"
    | Throw _ => True
    end.
Proof.
  unfold sanitize, bind, lift, returnIf, ret, return_, isError, errorResponse.
  match goal with |- context [if ?b then _ else _] => destruct b end; simpl.
  - eexists; split; [reflexivity|]. split; [reflexivity|].
    eexists; reflexivity.
  - repeat match goal with
           | |- context [callTrim js ?n ?v] =>
               destruct (callTrim js n v); simpl;
               [|eexists; split; [reflexivity|exact I]]
           end.
    eexists; split; [reflexivity|exact I].
Qed.

Lemma createTrip_outcome (userId : string) (sd : SanitizedData) (st : HState) :
  match createTrip js w userId sd st with
  | (Normal c, st1) =>
      Trip.id (createdTrip c) = Store.seq_trips (db st) + 1 /\
      Trip.status (createdTrip c) = "active" /\
      Trip.userId (createdTrip c) = userId /\
      db st1 = snd (Store.insertTrip (createdTrip c) (db st))
  | (Return r, st1) => st1 = st /\ isError r 400 "GEOCODING_FAILED"
  | (Throw _, st1) => db st1 = db st
  end.
Proof.
  unfold createTrip, bind, now, dbCall, ret, return_, isError, errorResponse.
  destruct (geocode w (source sd)) as [sc|];
    [|destruct (geocode w (destination sd));
      (split; [reflexivity|]; split; [reflexivity|]; eexists; reflexivity)].
  destruct (geocode w (destination sd)) as [dc|];
    [|split; [reflexivity|]; split; [reflexivity|]; eexists; reflexivity].
  simpl. destruct (dbFault w (dbCalls st)); simpl; [reflexivity|].
  repeat split; reflexivity.
Qed.

(** How the first half of the handler completes. *)
Lemma insertedTrip_outcome (st : HState) :
  match insertedTrip js w st with
  | (Normal c, st1) =>
      ~ noSessionUser w /\
      Trip.id (createdTrip c) = Store.seq_trips (db st) + 1 /\
      Trip.status (createdTrip c) = "active" /\
      getSession w =
        Ok (Some {| session_user := Some (Trip.userId (createdTrip c)) |}) /\
      db st1 = snd (Store.insertTrip (createdTrip c) (db st))
  | (Return r, st1) =>
      db st1 = db st /\
      ((isError r 401 "AUTHENTICATION_REQUIRED" /\ noSessionUser w) \/
       ((isError r 400 "USER_ID_NOT_ALLOWED" \/
         isError r 400 "MISSING_REQUIRED_FIELDS" \/
         isError r 400 "GEOCODING_FAILED") /\ ~ noSessionUser w))
  | (Throw _, st1) => db st1 = db st /\ ~ noSessionUser w
  end.
Proof.
  unfold insertedTrip, bind.
  destruct (authenticate_outcome st) as (c & -> & Hc).
  destruct c as [[userId body]|r|e].
  - destruct Hc as (Hs & _).
    assert (N : ~ noSessionUser w).
    { unfold noSessionUser. rewrite Hs. intros [H | H]; discriminate. }
    simpl. destruct (sanitize_outcome body st) as (c2 & -> & Hc2).
    destruct c2 as [sd|r|e].
    + pose proof (createTrip_outcome userId sd st) as H.
      destruct (createTrip js w userId sd st) as [[c3|r|e] st1].
      * destruct H as (H1 & H2 & H3 & H4). rewrite H3. auto.
      * destruct H as [-> H]. split; [reflexivity|]. right. auto.
      * auto.
    + split; [reflexivity|]. right. auto.
    + auto.
  - split; [reflexivity|]. destruct Hc as [[H N] | [H N]]; [left|right]; auto.
  - auto.
Qed.

Lemma POST_of_Return (st st1 : HState) (r : Response) :
  insertedTrip js w st = (Return r, st1) -> POST js w st = (Normal r, st1).
Proof.
  intros H. unfold POST, call, tryCatch, bind. now rewrite H.
Qed.

Lemma POST_of_Throw (st st1 : HState) (e : string) :
  insertedTrip js w st = (Throw e, st1) ->
  POST js w st =
    (Normal {| status := 500;
               payload := ErrorBody ("Internal server error: " ++ e) None |},
     st1).
Proof.
  intros H. unfold POST, call, tryCatch, bind. now rewrite H.
Qed.

(** X6: trip creation always answers, and in one of two ways.  Either with
    status 201 and the new trip, which is then the one row added to the
    trips: it is active and its id is the next of the counter; groups and
    memberships are as before.  Or with an error response of status 400,
    401 or 500, and then the store is exactly as it was. *)
Theorem trips_POST_creates_one_trip_or_nothing (st : HState) :
  exists r st',
    POST js w st = (Normal r, st') /\
    ((status r = 201 /\
      exists t,
        payload r = TripBody t /\
        Store.trips (db st') = (Store.trips (db st) ++ [t])%list /\
        Trip.id t = Store.seq_trips (db st) + 1 /\
        Trip.status t = "active" /\
        Store.groups (db st') = Store.groups (db st) /\
        Store.groupMembers (db st') = Store.groupMembers (db st))
     \/
     ((status r = 400 \/ status r = 401 \/ status r = 500) /\
      (exists message code, payload r = ErrorBody message code) /\
      db st' = db st)).
Proof.
  pose proof (insertedTrip_outcome st) as H.
  destruct (insertedTrip js w st) as [[c|r|e] st1] eqn:E.
  - destruct H as (_ & Hid & Hact & _ & Hdb).
    destruct (POST_after_insertion js w st st1 c E) as (st2 & HP & Hdb2 & Ht & _).
    exists {| status := 201; payload := TripBody (createdTrip c) |}, st2.
    split; [exact HP|]. left. split; [reflexivity|].
    exists (createdTrip c). split; [reflexivity|].
    destruct (matchingPass_store js w c st1) as (_ & Hg & Hm & _).
    rewrite Ht, Hdb2, Hg, Hm, Hdb. simpl.
    repeat split; try assumption.
    f_equal. f_equal. destruct (createdTrip c); simpl in *. now subst.
  - exists r, st1. split; [now apply POST_of_Return|]. right.
    destruct H as [Hdb H]. split; [|split; [|exact Hdb]].
    + destruct H as [[[H _] _] | [[[H _] | [[H _] | [H _]]] _]]; auto.
    + destruct H as [[[_ [m H]] _] | [[[_ [m H]] | [[_ [m H]] | [_ [m H]]]] _]];
        eauto.
  - exists {| status := 500;
              payload := ErrorBody ("Internal server error: " ++ e) None |},
      st1.
    split; [now apply POST_of_Throw|]. right.
    destruct H as [Hdb _]. split; [auto|]. split; [|exact Hdb].
    eexists _, _. reflexivity.
Qed.

(** X7: the answer is 401 exactly when the request has no authenticated
    user; the body is then not even read, and nothing is stored. *)
Theorem trips_POST_401_iff_no_session_user (st : HState) :
  (noSessionUser w ->
   POST js w st =
     (Normal (errorResponse "Authentication required"
                "AUTHENTICATION_REQUIRED" 401), st)) /\
  (forall r st', POST js w st = (Normal r, st') ->
     status r = 401 -> noSessionUser w).
Proof.
  split.
  - intros [H | H]; unfold POST, call, tryCatch, bind, insertedTrip,
      authenticate, lift; rewrite H; reflexivity.
  - intros r st' HP Hr.
    pose proof (insertedTrip_outcome st) as H.
    destruct (insertedTrip js w st) as [[c|r1|e] st1] eqn:E.
    + destruct (POST_after_insertion js w st st1 c E) as (st2 & HP2 & _).
      rewrite HP2 in HP. injection HP as <- <-. discriminate.
    + rewrite (POST_of_Return _ _ _ E) in HP. injection HP as <- <-.
      destruct H as [_ [[_ N] | [[[H _] | [[H _] | [H _]]] _]]];
        [exact N| | |]; rewrite H in Hr; discriminate.
    + rewrite (POST_of_Throw _ _ _ E) in HP. injection HP as <- <-.
      discriminate.
Qed.

Lemma sanitize_missing (body : json) (st : HState) (key : string) :
  In key requiredFields -> truthy (getField key body) = false ->
  sanitize js body st =
    (Return (errorResponse
       "Missing required fields: source, destination, travelDate, travelTime, transportMode, optimizationMode"
       "MISSING_REQUIRED_FIELDS" 400), st).
Proof.
  intros Hin Hk. unfold sanitize, bind, returnIf.
  match goal with |- context [if ?b then _ else _] =>
    assert (Hb : b = true) end.
  { simpl in Hin.
    destruct Hin as [<- | [<- | [<- | [<- | [<- | [<- | []]]]]]];
      rewrite Hk; simpl; repeat rewrite orb_true_r; reflexivity. }
  rewrite Hb. reflexivity.
Qed.

(** X8: a request whose body lacks one of the six required fields, or has
    it empty, null, zero or false, is answered 400
    MISSING_REQUIRED_FIELDS, and nothing is stored. *)
Theorem trips_POST_missing_field_rejected
    (st : HState) (userId : string) (body : json) (key : string) :
  authenticate js w st = (Normal (userId, body), st) ->
  In key requiredFields ->
  truthy (getField key body) = false ->
  POST js w st =
    (Normal (errorResponse
       "Missing required fields: source, destination, travelDate, travelTime, transportMode, optimizationMode"
       "MISSING_REQUIRED_FIELDS" 400), st).
Proof.
  intros Ha Hin Hk. apply POST_of_Return.
  unfold insertedTrip, bind. rewrite Ha. simpl.
  now rewrite (sanitize_missing body st key Hin Hk).
Qed.

Lemma sanitize_not_a_string (body : json) (st : HState) (key : string) :
  (forall k, In k requiredFields -> truthy (getField k body) = true) ->
  In key requiredFields ->
  (forall s, getField key body <> JStr s) ->
  exists name,
    In name requiredFields /\
    (forall s, getField name body <> JStr s) /\
    sanitize js body st = (Throw (name ++ ".trim is not a function"), st).
Proof.
  intros Ht Hin Hk. unfold sanitize, bind, returnIf, lift, callTrim.
  match goal with |- context [if ?b then _ else _] =>
    assert (Hb : b = false) end.
  { rewrite !(Ht _) by (simpl; tauto). reflexivity. }
  rewrite Hb. clear Hb. simpl ret.
  cbv beta iota.
  destruct (getField "source" body) eqn:E1;
    try (exists "source"; split; [simpl; tauto|];
         split; [rewrite E1; discriminate|reflexivity]).
  destruct (getField "destination" body) eqn:E2;
    try (exists "destination"; split; [simpl; tauto|];
         split; [rewrite E2; discriminate|reflexivity]).
  destruct (getField "travelDate" body) eqn:E3;
    try (exists "travelDate"; split; [simpl; tauto|];
         split; [rewrite E3; discriminate|reflexivity]).
  destruct (getField "travelTime" body) eqn:E4;
    try (exists "travelTime"; split; [simpl; tauto|];
         split; [rewrite E4; discriminate|reflexivity]).
  destruct (getField "transportMode" body) eqn:E5;
    try (exists "transportMode"; split; [simpl; tauto|];
         split; [rewrite E5; discriminate|reflexivity]).
  destruct (getField "optimizationMode" body) eqn:E6;
    try (exists "optimizationMode"; split; [simpl; tauto|];
         split; [rewrite E6; discriminate|reflexivity]).
  exfalso. simpl in Hin.
  destruct Hin as [<- | [<- | [<- | [<- | [<- | [<- | []]]]]]];
    eapply Hk; eassumption.
Qed.

(** X9: a request whose required fields are all truthy but one of which is
    not a string (a number, [true], an array, an object) is not rejected
    as a bad request: [trim] throws, and the answer is 500 with the
    message of the error; nothing is stored. *)
Theorem trips_POST_non_string_field_fails
    (st : HState) (userId : string) (body : json) (key : string) :
  authenticate js w st = (Normal (userId, body), st) ->
  (forall k, In k requiredFields -> truthy (getField k body) = true) ->
  In key requiredFields ->
  (forall s, getField key body <> JStr s) ->
  exists name,
    In name requiredFields /\
    (forall s, getField name body <> JStr s) /\
    POST js w st =
      (Normal {| status := 500;
                 payload :=
                   ErrorBody ("Internal server error: " ++ name
                              ++ ".trim is not a function") None |}, st).
Proof.
  intros Ha Ht Hin Hk.
  destruct (sanitize_not_a_string body st key Ht Hin Hk)
    as (name & Hn & Hs & E).
  exists name. split; [exact Hn|]. split; [exact Hs|].
  apply POST_of_Throw. unfold insertedTrip, bind. rewrite Ha. simpl.
  now rewrite E.
Qed.

End CreationOutcomes.

Lemma trips_POST_401_iff_no_session_user_witness :
  noSessionUser Scenario.worldAnonymous /\
  TripsRoute.POST Runtime.js Scenario.worldAnonymous (initial Scenario.store0)
    = (Normal (errorResponse "Authentication required"
                 "AUTHENTICATION_REQUIRED" 401), initial Scenario.store0).
Proof.
  assert (H : noSessionUser Scenario.worldAnonymous) by (left; reflexivity).
  split; [exact H|].
  exact (proj1 (trips_POST_401_iff_no_session_user Runtime.js
                  Scenario.worldAnonymous (initial Scenario.store0)) H).
Defined.

Lemma trips_POST_missing_field_rejected_witness :
  truthy (getField "travelTime" Scenario.bodyWithoutTime) = false /\
  fst (TripsRoute.POST Runtime.js (Scenario.worldOf Scenario.bodyWithoutTime)
         (initial Scenario.store0)) =
    Normal (errorResponse
      "Missing required fields: source, destination, travelDate, travelTime, transportMode, optimizationMode"
      "MISSING_REQUIRED_FIELDS" 400) /\
  db (snd (TripsRoute.POST Runtime.js
             (Scenario.worldOf Scenario.bodyWithoutTime)
             (initial Scenario.store0))) = Scenario.store0.
Proof.
  split; [reflexivity|].
  rewrite (trips_POST_missing_field_rejected Runtime.js
             (Scenario.worldOf Scenario.bodyWithoutTime)
             (initial Scenario.store0) "dave" Scenario.bodyWithoutTime
             "travelTime").
  - split; reflexivity.
  - reflexivity.
  - simpl. tauto.
  - reflexivity.
Defined.

Lemma trips_POST_non_string_field_fails_witness :
  truthy (getField "source" Scenario.bodyWithNumber) = true /\
  exists name,
    In name requiredFields /\
    (forall s, getField name Scenario.bodyWithNumber <> JStr s) /\
    TripsRoute.POST Runtime.js (Scenario.worldOf Scenario.bodyWithNumber)
      (initial Scenario.store0) =
      (Normal {| status := 500;
                 payload :=
                   ErrorBody ("Internal server error: " ++ name
                              ++ ".trim is not a function") None |},
       initial Scenario.store0).
Proof.
  split; [reflexivity|].
  apply (trips_POST_non_string_field_fails Runtime.js
           (Scenario.worldOf Scenario.bodyWithNumber)
           (initial Scenario.store0) "dave" Scenario.bodyWithNumber "source").
  - reflexivity.
  - intros k Hk. simpl in Hk.
    destruct Hk as [<- | [<- | [<- | [<- | [<- | [<- | []]]]]]]; reflexivity.
  - simpl. tauto.
  - intros s. simpl. discriminate.
Defined.

Section StoredFields.
Context (js : JSRuntime) (w : World).
Import TripsRoute.

Lemma callTrim_Ok (name : string) (v : json) (s : string) :
  callTrim js name v = Ok s -> exists text, v = JStr text /\ s = trim js text.
Proof.
  destruct v; simpl; try discriminate. intros [= <-]. eauto.
Qed.

(** Sanitization completes on six strings, with their trimmed texts. *)
Lemma sanitize_Normal (body : json) (st st' : HState) (sd : SanitizedData) :
  sanitize js body st = (Normal sd, st') ->
  (forall key, In key requiredFields ->
     exists text, getField key body = JStr text /\ text <> "") /\
  (forall text, getField "source" body = JStr text ->
     source sd = trim js text) /\
  (forall text, getField "destination" body = JStr text ->
     destination sd = trim js text) /\
  (forall text, getField "travelDate" body = JStr text ->
     travelDate sd = trim js text) /\
  (forall text, getField "travelTime" body = JStr text ->
     travelTime sd = trim js text) /\
  (forall text, getField "transportMode" body = JStr text ->
     transportMode sd = trim js text) /\
  (forall text, getField "optimizationMode" body = JStr text ->
     optimizationMode sd = trim js text) /\
  routeData sd =
    (if truthy (getField "routeData" body) then getField "routeData" body
     else JNull).
Proof.
  unfold sanitize, bind, returnIf, lift, ret, return_.
  match goal with |- context [if ?b then _ else _] => destruct b eqn:Hb end;
    [discriminate|].
  repeat (apply orb_false_iff in Hb; destruct Hb as [Hb ?]).
  repeat match goal with
         | H : negb _ = false |- _ => apply negb_false_iff in H
         end.
  destruct (callTrim js "source" _) as [s1|] eqn:E1; [|discriminate].
  destruct (callTrim js "destination" _) as [s2|] eqn:E2; [|discriminate].
  destruct (callTrim js "travelDate" _) as [s3|] eqn:E3; [|discriminate].
  destruct (callTrim js "travelTime" _) as [s4|] eqn:E4; [|discriminate].
  destruct (callTrim js "transportMode" _) as [s5|] eqn:E5; [|discriminate].
  destruct (callTrim js "optimizationMode" _) as [s6|] eqn:E6;
    [|discriminate].
  intros Hrun. injection Hrun as <- _. simpl.
  apply callTrim_Ok in E1, E2, E3, E4, E5, E6.
  destruct E1 as (t1 & G1 & ->), E2 as (t2 & G2 & ->), E3 as (t3 & G3 & ->),
           E4 as (t4 & G4 & ->), E5 as (t5 & G5 & ->), E6 as (t6 & G6 & ->).
  split.
  - intros key Hk. simpl in Hk.
    destruct Hk as [<- | [<- | [<- | [<- | [<- | [<- | []]]]]]];
      eexists; (split; [eassumption|]); intros ->;
      match goal with
      | G : getField ?k body = JStr "", T : truthy (getField ?k body) = true
        |- _ => rewrite G in T; discriminate T
      end.
  - repeat split; try reflexivity; intros text Ht; congruence.
Qed.

(** The text columns of the row that [createTrip] inserts. *)
Lemma createTrip_fields (userId : string) (sd : SanitizedData)
    (st st' : HState) (c : Created) :
  createTrip js w userId sd st = (Normal c, st') ->
  Trip.source (createdTrip c) = source sd /\
  Trip.destination (createdTrip c) = destination sd /\
  Trip.travelDate (createdTrip c) = travelDate sd /\
  Trip.travelTime (createdTrip c) = travelTime sd /\
  Trip.transportMode (createdTrip c) = transportMode sd /\
  Trip.optimizationMode (createdTrip c) = optimizationMode sd /\
  Trip.routeData (createdTrip c) = routeData sd /\
  Trip.createdAt (createdTrip c) = Trip.updatedAt (createdTrip c).
Proof.
  unfold createTrip, bind, now, dbCall, ret, return_.
  destruct (geocode w (source sd)) as [sc|];
    [|destruct (geocode w (destination sd)); discriminate].
  destruct (geocode w (destination sd)) as [dc|]; [|discriminate].
  simpl. destruct (dbFault w (dbCalls st)); [discriminate|].
  simpl. intros H. injection H as <- <-. simpl. repeat split; reflexivity.
Qed.

(** X10: what a created trip stores of the request: the six required
    fields were non-empty strings, and the row has each of them trimmed;
    the check for missing fields comes before the trimming, so that a field
    of white space only is accepted and stored as trimmed.  The route data
    are stored as sent, or as null when falsy, and the two time stamps of
    the row are the same. *)
Theorem trips_POST_stores_trimmed_fields
    (st st' : HState) (t : Trip.t) :
  POST js w st = (Normal {| status := 201; payload := TripBody t |}, st') ->
  exists body source destination travelDate travelTime transportMode
         optimizationMode,
    requestJson w = Ok body /\
    getField "source" body = JStr source /\
    getField "destination" body = JStr destination /\
    getField "travelDate" body = JStr travelDate /\
    getField "travelTime" body = JStr travelTime /\
    getField "transportMode" body = JStr transportMode /\
    getField "optimizationMode" body = JStr optimizationMode /\
    Trip.source t = trim js source /\
    Trip.destination t = trim js destination /\
    Trip.travelDate t = trim js travelDate /\
    Trip.travelTime t = trim js travelTime /\
    Trip.transportMode t = trim js transportMode /\
    Trip.optimizationMode t = trim js optimizationMode /\
    Trip.routeData t =
      (if truthy (getField "routeData" body) then getField "routeData" body
       else JNull) /\
    Trip.createdAt t = Trip.updatedAt t.
Proof.
  intros HP. pose proof (insertedTrip_outcome js w st) as Ho.
  destruct (insertedTrip js w st) as [[c|r|e] st0] eqn:E.
  - destruct (POST_after_insertion js w st st0 c E) as (st2 & HP2 & _).
    rewrite HP2 in HP. injection HP as <- _.
    unfold insertedTrip, bind in E.
    destruct (authenticate js w st) as [[[u body]|r|e] s1] eqn:Ea;
      try discriminate E.
    apply authenticate_Normal in Ea. destruct Ea as (-> & _ & Hb).
    simpl in E.
    destruct (sanitize js body st) as [[sd|r|e] s2] eqn:Es;
      try discriminate E.
    apply sanitize_Normal in Es.
    destruct Es as (Hreq & H1 & H2 & H3 & H4 & H5 & H6 & H7).
    apply createTrip_fields in E.
    destruct E as (F1 & F2 & F3 & F4 & F5 & F6 & F7 & F8).
    destruct (Hreq "source") as (t1 & G1 & _); [simpl; tauto|].
    destruct (Hreq "destination") as (t2 & G2 & _); [simpl; tauto|].
    destruct (Hreq "travelDate") as (t3 & G3 & _); [simpl; tauto|].
    destruct (Hreq "travelTime") as (t4 & G4 & _); [simpl; tauto|].
    destruct (Hreq "transportMode") as (t5 & G5 & _); [simpl; tauto|].
    destruct (Hreq "optimizationMode") as (t6 & G6 & _); [simpl; tauto|].
    exists body, t1, t2, t3, t4, t5, t6.
    rewrite F1, F2, F3, F4, F5, F6, F7.
    rewrite (H1 _ G1), (H2 _ G2), (H3 _ G3), (H4 _ G4), (H5 _ G5),
      (H6 _ G6), H7.
    repeat split; auto.
  - exfalso. rewrite (POST_of_Return js w _ _ _ E) in HP.
    injection HP as -> _.
    destruct Ho as [_ [[[H _] _] | [[[H _] | [[H _] | [H _]]] _]]];
      discriminate H.
  - exfalso. rewrite (POST_of_Throw js w _ _ _ E) in HP. discriminate HP.
Qed.

End StoredFields.

Lemma trips_POST_stores_trimmed_fields_witness :
  exists t st',
    TripsRoute.POST Runtime.js (Scenario.worldOf Scenario.bodyWithBlankTime)
      (initial Scenario.store0) =
      (Normal {| status := 201; payload := TripBody t |}, st') /\
    getField "travelTime" Scenario.bodyWithBlankTime = JStr "   " /\
    Trip.travelTime t = "" /\
    Trip.createdAt t = Trip.updatedAt t.
Proof.
  assert (E : exists t st',
            TripsRoute.POST Runtime.js
              (Scenario.worldOf Scenario.bodyWithBlankTime)
              (initial Scenario.store0) =
              (Normal {| status := 201; payload := TripBody t |}, st') /\
            Trip.travelTime t = "")
    by (vm_compute; eexists _, _; split; reflexivity).
  destruct E as (t & st' & E & Ht).
  destruct (trips_POST_stores_trimmed_fields Runtime.js
              (Scenario.worldOf Scenario.bodyWithBlankTime)
              (initial Scenario.store0) st' t E)
    as (body & s1 & s2 & s3 & s4 & s5 & s6 & _ & _ & _ & _ & _ & _ & _ & _ &
        _ & _ & _ & _ & _ & _ & Hts).
  exists t, st'. repeat split; assumption || reflexivity.
Defined.

(** ** Which responses a handler can return *)

Section ReturnsOnly.
Context (P : Response -> Prop).

Lemma returnsOnly_ret {A : Type} (a : A) : returnsOnly P (ret a).
Proof. intros st r st' H. discriminate H. Qed.

Lemma returnsOnly_return {A : Type} (r : Response) :
  P r -> returnsOnly P (@return_ A r).
Proof. intros Hr st r' st' H. injection H as <- _. exact Hr. Qed.

Lemma returnsOnly_lift {A : Type} (c : result A) : returnsOnly P (lift c).
Proof. intros st r st' H. unfold lift in H. destruct c; discriminate H. Qed.

Lemma returnsOnly_returnIf (b : bool) (r : Response) :
  (b = true -> P r) -> returnsOnly P (returnIf b r).
Proof.
  intros Hr st r' st' H. unfold returnIf in H. destruct b.
  - injection H as <- _. now apply Hr.
  - discriminate H.
Qed.

Lemma returnsOnly_now (w : World) : returnsOnly P (now w).
Proof. intros st r st' H. discriminate H. Qed.

Lemma returnsOnly_dbCall {A : Type} (w : World)
    (stmt : Store.t -> A * Store.t) :
  returnsOnly P (dbCall w stmt).
Proof.
  intros st r st' H. unfold dbCall in H.
  destruct (dbFault w (dbCalls st)); [discriminate H|].
  destruct (stmt (db st)). discriminate H.
Qed.

Lemma returnsOnly_bind {A B : Type} (m : Handler A) (k : A -> Handler B) :
  returnsOnly P m -> (forall a, returnsOnly P (k a)) ->
  returnsOnly P (bind m k).
Proof.
  intros Hm Hk st r st' H. unfold bind in H.
  destruct (m st) as [[a|r1|e] s1] eqn:E.
  - exact (Hk a _ _ _ H).
  - injection H as <- _. exact (Hm _ _ _ E).
  - discriminate H.
Qed.

Lemma returnsOnly_promiseAllMap {A B : Type} (f : A -> Handler B)
    (rows : list A) :
  (forall a, returnsOnly P (f a)) -> returnsOnly P (promiseAllMap f rows).
Proof.
  intros Hf. induction rows as [|a rows IH]; simpl.
  - apply returnsOnly_ret.
  - apply returnsOnly_bind; [apply Hf|]. intros b.
    apply returnsOnly_bind; [apply IH|]. intros bs. apply returnsOnly_ret.
Qed.

End ReturnsOnly.

Ltac returns_step :=
  match goal with
  | |- returnsOnly _ (bind _ _) =>
      apply returnsOnly_bind; [|intros ?]
  | |- returnsOnly _ (ret _) => apply returnsOnly_ret
  | |- returnsOnly _ (lift _) => apply returnsOnly_lift
  | |- returnsOnly _ (now _) => apply returnsOnly_now
  | |- returnsOnly _ (dbCall _ _) => apply returnsOnly_dbCall
  | |- returnsOnly _ (returnIf _ _) => apply returnsOnly_returnIf; intros ?
  | |- returnsOnly _ (return_ _) => apply returnsOnly_return
  | |- returnsOnly _ (if ?b then _ else _) => destruct b eqn:?
  | |- returnsOnly _ (match ?x with _ => _ end) => destruct x eqn:?
  end.

(** ** The list of the user's trips *)

Section OrderFacts.
Import TripsRoute.

Lemma insertByCreatedAtDesc_perm (t : Trip.t) (rows : list Trip.t) :
  Permutation (insertByCreatedAtDesc t rows) (t :: rows).
Proof.
  induction rows as [|r rows IH]; simpl; [apply Permutation_refl|].
  destruct (String.ltb (Trip.createdAt t) (Trip.createdAt r)).
  - apply perm_trans with (r :: t :: rows); [now apply perm_skip|].
    apply perm_swap.
  - apply Permutation_refl.
Qed.

Lemma orderByCreatedAtDesc_perm (rows : list Trip.t) :
  Permutation (orderByCreatedAtDesc rows) rows.
Proof.
  induction rows as [|r rows IH]; simpl; [constructor|].
  apply perm_trans with (r :: orderByCreatedAtDesc rows).
  - apply insertByCreatedAtDesc_perm.
  - now apply perm_skip.
Qed.

Lemma string_ltb_leb (a b : string) :
  String.ltb a b = true -> String.leb a b = true.
Proof.
  unfold String.ltb, String.leb. now destruct (String.compare a b).
Qed.

Lemma string_not_ltb_leb (a b : string) :
  String.ltb a b = false -> String.leb b a = true.
Proof.
  unfold String.ltb, String.leb. rewrite (String.compare_antisym b a).
  now destruct (String.compare a b).
Qed.

Lemma insertByCreatedAtDesc_sorted (t : Trip.t) (rows : list Trip.t) :
  Sorted notOlder rows -> Sorted notOlder (insertByCreatedAtDesc t rows).
Proof.
  induction rows as [|r rows IH]; intros H; simpl.
  - repeat constructor.
  - inversion H as [|? ? Hs Hh]; subst.
    destruct (String.ltb (Trip.createdAt t) (Trip.createdAt r)) eqn:E.
    + constructor; [now apply IH|].
      destruct rows as [|r' rows]; simpl.
      * constructor. now apply string_ltb_leb.
      * destruct (String.ltb (Trip.createdAt t) (Trip.createdAt r')).
        -- constructor. now inversion Hh.
        -- constructor. now apply string_ltb_leb.
    + constructor; [assumption|]. constructor. now apply string_not_ltb_leb.
Qed.

Lemma orderByCreatedAtDesc_sorted (rows : list Trip.t) :
  Sorted notOlder (orderByCreatedAtDesc rows).
Proof.
  induction rows as [|r rows IH]; simpl; [constructor|].
  now apply insertByCreatedAtDesc_sorted.
Qed.

End OrderFacts.

Section ListFacts.
Context (js : JSRuntime) (w : World).
Import TripsRoute.

Lemma answer_db {A : Type} (k : Z) (m : Handler A) (st : HState) :
  db (snd (answer k m st)) = db (snd (m st)).
Proof. unfold answer. now destruct (m st) as [[a|r|e] st']. Qed.

Lemma stable_promiseAllMap {A B : Type} (R : Store.t -> Store.t -> Prop)
    (f : A -> Handler B) (rows : list A) :
  (forall s, R s s) ->
  (forall s1 s2 s3, R s1 s2 -> R s2 s3 -> R s1 s3) ->
  (forall a, stable R (f a)) -> stable R (promiseAllMap f rows).
Proof.
  intros R_refl R_trans Hf. induction rows as [|a rows IH]; simpl.
  - now apply stable_ret.
  - apply stable_bind; [assumption|apply Hf|]. intros b.
    apply stable_bind; [assumption|apply IH|]. intros bs.
    now apply stable_ret.
Qed.

Lemma listTrips_reads_only (statusFilter : option string) :
  stable (fun s s' => s' = s) (listTrips w statusFilter).
Proof.
  assert (R_refl : forall s : Store.t, s = s) by reflexivity.
  assert (R_trans : forall s1 s2 s3 : Store.t, s2 = s1 -> s3 = s2 -> s3 = s1)
    by congruence.
  unfold listTrips.
  apply stable_bind; [assumption|now apply stable_lift|]. intros session.
  destruct session as [[[u|]]|]; try now apply stable_return.
  apply stable_bind; [assumption|now apply stable_select|]. intros rows.
  apply stable_promiseAllMap; try assumption. intros t.
  unfold withMatchCount.
  apply stable_bind; [assumption|now apply stable_select|]. intros n.
  now apply stable_ret.
Qed.

Lemma listTrips_returns (statusFilter : option string) :
  returnsOnly
    (fun r => r = errorResponse "Authentication required"
                    "AUTHENTICATION_REQUIRED" 401 /\ noSessionUser w)
    (listTrips w statusFilter).
Proof.
  intros st r st' H. unfold listTrips, bind, lift, noSessionUser in *.
  destruct (getSession w) as [[[[u|]]|]|e] eqn:Es; simpl in H.
  - exfalso. revert H.
    apply (returnsOnly_bind (fun _ => False)
             (dbCall w (Store.select Store.trips
                          (listedFor u statusFilter) orderByCreatedAtDesc))
             (promiseAllMap (withMatchCount w))).
    + apply returnsOnly_dbCall.
    + intros rows. apply returnsOnly_promiseAllMap. intros t.
      unfold withMatchCount. repeat returns_step.
  - injection H as <- _. split; [reflexivity|now right].
  - injection H as <- _. split; [reflexivity|now left].
  - discriminate H.
Qed.

Lemma listTrips_no_session (statusFilter : option string) (st : HState) :
  noSessionUser w ->
  listTrips w statusFilter st =
    (Return (errorResponse "Authentication required"
               "AUTHENTICATION_REQUIRED" 401), st).
Proof.
  intros [H | H]; unfold listTrips, bind, lift; now rewrite H.
Qed.

(** X11: listing the trips never changes the store and always answers:
    with the list and status 200, or with an error response of status 401,
    which it does exactly when the request has no authenticated user, or
    500. *)
Theorem trips_GET_reads_only (statusFilter : option string) (st : HState) :
  exists r st',
    GET w statusFilter st = (Normal r, st') /\
    db st' = db st /\
    ((exists rows, r = Success 200 rows) \/
     r = Failure (errorResponse "Authentication required"
                    "AUTHENTICATION_REQUIRED" 401) \/
     (exists message,
        r = Failure {| status := 500; payload := ErrorBody message None |})) /\
    (noSessionUser w <->
     r = Failure (errorResponse "Authentication required"
                    "AUTHENTICATION_REQUIRED" 401)).
Proof.
  pose proof (listTrips_reads_only statusFilter st) as Hdb.
  pose proof (listTrips_returns statusFilter st) as Hret.
  pose proof (listTrips_no_session statusFilter st) as Hno.
  unfold GET, answer, tryCatch, return_.
  destruct (listTrips w statusFilter st) as [[rows|r|e] s1]; simpl in *.
  - eexists _, _. split; [reflexivity|]. split; [exact Hdb|].
    split; [left; eauto|]. split; [|discriminate].
    intros N. specialize (Hno N). discriminate Hno.
  - destruct (Hret r s1 eq_refl) as [-> N].
    eexists _, _. split; [reflexivity|]. split; [exact Hdb|].
    split; [right; left; reflexivity|]. split; auto.
  - eexists _, _. split; [reflexivity|]. split; [exact Hdb|].
    split; [right; right; eauto|]. split; [|discriminate].
    intros N. specialize (Hno N). discriminate Hno.
Qed.

Lemma withMatchCount_ok (t : Trip.t) (st : HState) :
  dbFault w (dbCalls st) = None ->
  withMatchCount w t st =
    (Normal {| trip := t; matchCount := pendingCount (Trip.id t) (db st) |},
     {| db := db st; dbCalls := S (dbCalls st);
        clockTicks := clockTicks st |}).
Proof.
  intros H. unfold withMatchCount, bind, dbCall, Store.select, ret.
  rewrite H. unfold pendingCount. simpl.
  destruct (Z.of_nat _ =? 0) eqn:E; [|reflexivity].
  apply Z.eqb_eq in E. now rewrite E.
Qed.

Lemma promiseAllMap_withMatchCount (rows : list Trip.t) :
  (forall n, dbFault w n = None) ->
  forall st, exists st',
    promiseAllMap (withMatchCount w) rows st =
      (Normal (map (fun t => {| trip := t;
                                matchCount :=
                                  pendingCount (Trip.id t) (db st) |}) rows),
       st') /\
    db st' = db st.
Proof.
  intros Hf. induction rows as [|t rows IH]; intros st; simpl.
  - exists st. split; reflexivity.
  - unfold bind. rewrite (withMatchCount_ok t st (Hf _)).
    destruct (IH {| db := db st; dbCalls := S (dbCalls st);
                    clockTicks := clockTicks st |}) as (st' & E & Hdb).
    rewrite E. exists st'. split; [reflexivity|exact Hdb].
Qed.

Lemma GET_ok (statusFilter : option string) (st : HState) (u : string) :
  getSession w = Ok (Some {| session_user := Some u |}) ->
  (forall n, dbFault w n = None) ->
  exists st',
    GET w statusFilter st =
      (Normal (Success 200
         (map (fun t => {| trip := t;
                           matchCount := pendingCount (Trip.id t) (db st) |})
            (orderByCreatedAtDesc
               (filter (listedFor u statusFilter) (Store.trips (db st)))))),
       st') /\
    db st' = db st.
Proof.
  intros Hs Hf.
  unfold GET, answer, tryCatch, listTrips, bind, lift. rewrite Hs.
  unfold dbCall at 1. rewrite Hf. unfold Store.select at 1.
  match goal with
  | |- context [promiseAllMap _ ?rows ?s] =>
      destruct (promiseAllMap_withMatchCount rows Hf s) as (st' & E & Hdb)
  end.
  rewrite E. exists st'. split; [reflexivity|exact Hdb].
Qed.

(** X12: for an authenticated user, when no database call fails, the answer
    is the list of exactly the user's trips (those of the requested status
    when the [status] parameter is given and not empty), each as often as
    the store has it, newest first, and each with the number of pending
    match records of that trip. *)
Theorem trips_GET_lists_own_trips
    (statusFilter : option string) (st : HState) (u : string) :
  getSession w = Ok (Some {| session_user := Some u |}) ->
  (forall n, dbFault w n = None) ->
  exists rows st',
    GET w statusFilter st = (Normal (Success 200 rows), st') /\
    Permutation (map trip rows)
      (filter (listedFor u statusFilter) (Store.trips (db st))) /\
    Sorted notOlder (map trip rows) /\
    (forall row, In row rows ->
       matchCount row = pendingCount (Trip.id (trip row)) (db st)) /\
    (forall t, In t (map trip rows) <->
       In t (Store.trips (db st)) /\ Trip.userId t = u /\
       (forall s, statusFilter = Some s -> s <> "" -> Trip.status t = s)).
Proof.
  intros Hs Hf. destruct (GET_ok statusFilter st u Hs Hf) as (st' & E & _).
  eexists _, st'. split; [exact E|].
  rewrite map_map. simpl. rewrite map_id.
  assert (HP : Permutation
            (orderByCreatedAtDesc
               (filter (listedFor u statusFilter) (Store.trips (db st))))
            (filter (listedFor u statusFilter) (Store.trips (db st))))
    by apply orderByCreatedAtDesc_perm.
  split; [exact HP|]. split; [apply orderByCreatedAtDesc_sorted|]. split.
  - intros row Hin. apply in_map_iff in Hin.
    destruct Hin as (t & <- & _). reflexivity.
  - intros t. split.
    + intros Hin. apply (Permutation_in _ HP) in Hin.
      apply filter_In in Hin. destruct Hin as [Hin Hl].
      split; [exact Hin|]. unfold listedFor in Hl.
      destruct statusFilter as [s|].
      * unfold truthy_string in Hl.
        destruct (String.eqb s "") eqn:Ee; simpl in Hl.
        -- apply String.eqb_eq in Hl. split; [exact Hl|].
           intros s' [= <-] N. apply String.eqb_eq in Ee. contradiction.
        -- apply andb_true_iff in Hl. destruct Hl as [H1 H2].
           apply String.eqb_eq in H1, H2. split; [exact H1|].
           intros s' [= <-] _. exact H2.
      * apply String.eqb_eq in Hl. split; [exact Hl|]. discriminate.
    + intros (Hin & Hu & Hst).
      apply (Permutation_in _ (Permutation_sym HP)).
      apply filter_In. split; [exact Hin|]. unfold listedFor.
      destruct statusFilter as [s|].
      * unfold truthy_string.
        destruct (String.eqb s "") eqn:Ee; simpl.
        -- now apply String.eqb_eq.
        -- apply String.eqb_neq in Ee. apply andb_true_iff.
           split; apply String.eqb_eq; auto.
      * now apply String.eqb_eq.
Qed.

Lemma filter_app_last {A : Type} (p : A -> bool) (l : list A) (x : A) :
  p x = false -> filter p (l ++ [x]) = filter p l.
Proof.
  intros H. rewrite filter_app. simpl. rewrite H. apply app_nil_r.
Qed.

Lemma filter_none {A : Type} (p : A -> bool) (l : list A) :
  (forall x, In x l -> p x = false) -> filter p l = [].
Proof.
  induction l as [|a l IH]; intros H; simpl; [reflexivity|].
  rewrite (H a) by now left. apply IH. intros x Hx. apply H. now right.
Qed.

Lemma filter_number_matches (p : TripMatch.t -> bool)
    (rows : list TripMatch.t) :
  (forall r i, p (TripMatch.with_id r i) = p r) ->
  forall from,
    List.length (filter p (Store.number_matches from rows)) =
    List.length (filter p rows).
Proof.
  intros Hp. induction rows as [|r rows IH]; intros from; simpl;
    [reflexivity|].
  rewrite Hp. destruct (p r); simpl; now rewrite IH.
Qed.

(** Of the records built for the candidates, the pending ones of the new
    trip are the forward records: one per candidate that passes. *)
Lemma pending_of_new_trip (c : Created) (ts : string)
    (candidates : list Trip.t) :
  (forall t, In t candidates -> Trip.id t <> Trip.id (createdTrip c)) ->
  List.length
    (filter (pendingMatchOf (Trip.id (createdTrip c)))
       (buildMatchInserts js (sanitizedData c) (Some (sourceCoords c))
          (Some (destCoords c)) (routeGeometry c) (Trip.id (createdTrip c))
          ts candidates)) =
  List.length (filter (passes js c) candidates).
Proof.
  intros Hne. rewrite buildMatchInserts_flat_map.
  induction candidates as [|t candidates IH]; simpl; [reflexivity|].
  rewrite filter_app, length_app, IH
    by (intros x Hx; apply Hne; now right).
  unfold emitted, matchingStep, passes.
  destruct (50 <? _); simpl; [|reflexivity].
  unfold pendingMatchOf. simpl. rewrite Z.eqb_refl. simpl.
  assert (E : (Trip.id t =? Trip.id (createdTrip c)) = false)
    by (apply Z.eqb_neq, Hne; now left).
  rewrite E. reflexivity.
Qed.

Lemma created_trip_match_count (st st0 : HState) (c : Created) :
  insertedTrip js w st = (Normal c, st0) ->
  (forall n, dbFault w n = None) ->
  keysWithinCounters (db st) ->
  pendingCount (Trip.id (createdTrip c))
    (db (snd (matchingPass js w c st0))) =
  Z.of_nat (List.length (filter (passes js c) (candidatesOf c (db st)))).
Proof.
  intros E Hf (Kt & Km & _).
  pose proof (insertedTrip_outcome js w st) as Ho. rewrite E in Ho.
  destruct Ho as (_ & Hid & _ & Hs & Hdb).
  assert (Hc : sessionUserId c = Trip.userId (createdTrip c)).
  { unfold insertedTrip, bind in E.
    destruct (authenticate js w st) as [[[u b]|r|e] s1]; try discriminate E.
    simpl in E.
    destruct (sanitize js b s1) as [[sd|r|e] s2]; try discriminate E.
    apply createTrip_Normal in E.
    destruct E as (_ & _ & _ & _ & _ & E1 & E2 & _). congruence. }
  destruct (matchingPass_ok js w c st0 (Hf _) (Hf _)) as (_ & Hm).
  unfold pendingCount. rewrite Hm. f_equal.
  rewrite filter_app, length_app.
  rewrite (filter_number_matches
             (pendingMatchOf (Trip.id (createdTrip c))) _
             (fun r i => eq_refl)).
  assert (Hold : Store.tripMatches (db st0) = Store.tripMatches (db st))
    by now rewrite Hdb.
  assert (Htrips : Store.trips (db st0) =
                   (Store.trips (db st) ++ [createdTrip c])%list).
  { rewrite Hdb. simpl. f_equal. f_equal.
    destruct (createdTrip c); simpl in *. now subst. }
  rewrite Hold, filter_none.
  - simpl. unfold insertsOf.
    assert (Hcand : candidatesOf c (db st0) = candidatesOf c (db st)).
    { unfold candidatesOf. rewrite Htrips. apply filter_app_last.
      unfold isPotentialMatch. rewrite Hc, String.eqb_refl.
      apply andb_false_r. }
    rewrite Hcand. apply pending_of_new_trip.
    intros t Ht. unfold candidatesOf in Ht. apply filter_In in Ht.
    destruct Ht as [Ht _]. specialize (Kt t Ht). lia.
  - intros m Hm0. destruct (Km m Hm0) as (_ & H1 & _).
    unfold pendingMatchOf.
    assert (E0 : (TripMatch.tripId m =? Trip.id (createdTrip c)) = false)
      by (apply Z.eqb_neq; lia).
    now rewrite E0.
Qed.

(** X13: creation and listing compose: when a trip has been created and no
    database call fails, a listing made afterwards by the same user shows
    the new trip, and its [matchCount] is the number of candidates (active
    trips of other users in the store) whose score is above 50. *)
Theorem created_trip_is_listed_with_its_matches
    (st st0 : HState) (c : Created) :
  insertedTrip js w st = (Normal c, st0) ->
  (forall n, dbFault w n = None) ->
  keysWithinCounters (db st) ->
  exists st1 rows st2,
    POST js w st =
      (Normal {| status := 201; payload := TripBody (createdTrip c) |}, st1) /\
    GET w None (initial (db st1)) = (Normal (Success 200 rows), st2) /\
    exists row,
      In row rows /\ trip row = createdTrip c /\
      matchCount row =
        Z.of_nat (List.length
                    (filter (passes js c) (candidatesOf c (db st)))).
Proof.
  intros E Hf K.
  destruct (POST_after_insertion js w st st0 c E)
    as (st1 & HP & Hdb1 & _ & Hin).
  pose proof (insertedTrip_outcome js w st) as Ho. rewrite E in Ho.
  destruct Ho as (_ & _ & _ & Hs & _).
  destruct (GET_ok None (initial (db st1)) _ Hs Hf) as (st2 & HG & _).
  change (db (initial (db st1))) with (db st1) in HG.
  eexists st1, _, st2. split; [exact HP|]. split; [exact HG|].
  exists {| trip := createdTrip c;
            matchCount := pendingCount (Trip.id (createdTrip c)) (db st1) |}.
  split; [|split; [reflexivity|]].
  - apply (in_map (fun t => {| trip := t;
                               matchCount :=
                                 pendingCount (Trip.id t) (db st1) |})).
    apply (Permutation_in _ (Permutation_sym (orderByCreatedAtDesc_perm _))).
    apply filter_In. split; [exact Hin|].
    unfold listedFor. apply String.eqb_refl.
  - simpl. rewrite Hdb1.
    now apply (created_trip_match_count st st0 c E Hf K).
Qed.

End ListFacts.

Lemma trips_GET_lists_own_trips_witness :
  exists st',
    TripsRoute.GET Scenario.world None (initial Scenario.store2) =
      (Normal (Success 200 Scenario.listed2), st') /\
    Permutation [Scenario.newTrip; Scenario.tripDave]
      (filter (TripsRoute.listedFor "dave" None)
         (Store.trips Scenario.store2)) /\
    Sorted notOlder [Scenario.newTrip; Scenario.tripDave].
Proof.
  destruct (trips_GET_lists_own_trips Scenario.world None
              (initial Scenario.store2) "dave" eq_refl (fun _ => eq_refl))
    as (rows & st' & E & HP & HS & _).
  assert (Hrows : rows = Scenario.listed2).
  { assert (E2 : fst (TripsRoute.GET Scenario.world None
                        (initial Scenario.store2)) =
                 Normal (Success 200 Scenario.listed2))
      by (vm_compute; reflexivity).
    rewrite E in E2. simpl in E2. now injection E2. }
  subst rows. exists st'. split; [exact E|]. split; [exact HP|exact HS].
Defined.

Lemma created_trip_is_listed_with_its_matches_witness :
  keysWithinCounters Scenario.store0 /\
  exists st1 rows st2,
    TripsRoute.POST Runtime.js Scenario.world (initial Scenario.store0) =
      (Normal {| status := 201; payload := TripBody Scenario.newTrip |}, st1)
    /\
    TripsRoute.GET Scenario.world None (initial (db st1)) =
      (Normal (Success 200 rows), st2) /\
    exists row,
      In row rows /\ TripsRoute.trip row = Scenario.newTrip /\
      TripsRoute.matchCount row = 1.
Proof.
  assert (K : keysWithinCounters Scenario.store0).
  { split; [|split; [|split]]; intros x H; simpl in H;
      repeat (destruct H as [<- | H]; [vm_compute; discriminate|]);
      destruct H. }
  split; [exact K|].
  exact (created_trip_is_listed_with_its_matches Runtime.js Scenario.world
           (initial Scenario.store0) Scenario.st1 Scenario.created0
           ltac:(vm_compute; reflexivity) (fun _ => eq_refl) K).
Defined.

(** ** Accepting a match: answers, authorization, and what is kept *)

Section CompletesOnly.
Context {A : Type} (Q : A -> Prop).

Lemma completesOnly_return (r : Response) : completesOnly Q (return_ r).
Proof. intros st a st' H. discriminate H. Qed.

Lemma completesOnly_throw (e : string) : completesOnly Q (lift (Err e)).
Proof. intros st a st' H. discriminate H. Qed.

Lemma completesOnly_bind {B : Type} (m : Handler B) (k : B -> Handler A) :
  (forall b, completesOnly Q (k b)) -> completesOnly Q (bind m k).
Proof.
  intros Hk st a st' H. unfold bind in H.
  destruct (m st) as [[b|r|e] s1]; try discriminate H.
  exact (Hk b _ _ _ H).
Qed.

End CompletesOnly.

Section AcceptAnswers.
Context (js : JSRuntime) (w : World).
Import AcceptRoute.

Ltac error_response :=
  split; [simpl; tauto|eexists _, _; reflexivity].

Lemma resolveMatch_returns : returnsOnly clientError (resolveMatch js w).
Proof.
  unfold resolveMatch.
  repeat (cbv zeta; returns_step); try error_response.
Qed.

Lemma findMatchedUser_returns (i : Z) :
  returnsOnly clientError (findMatchedUser w i).
Proof.
  unfold findMatchedUser.
  repeat (cbv zeta; returns_step); try error_response.
Qed.

Lemma provisionGroup_returns (a : Accepted) :
  returnsOnly groupAnswer (provisionGroup w a).
Proof.
  unfold provisionGroup.
  repeat (cbv zeta; returns_step); try error_response.
Qed.

Lemma accepted_returns : returnsOnly clientError (accepted js w).
Proof.
  unfold accepted. apply returnsOnly_bind; [apply resolveMatch_returns|].
  intros [[[u tid] t] m]. unfold acceptBothDirections.
  repeat (cbv zeta; returns_step). apply findMatchedUser_returns.
Qed.

Lemma returnsOnly_weaken {A : Type} (P Q : Response -> Prop)
    (m : Handler A) :
  (forall r, P r -> Q r) -> returnsOnly P m -> returnsOnly Q m.
Proof. intros H Hm st r st' E. apply H. exact (Hm _ _ _ E). Qed.

Lemma provisionGroup_never_completes (a : Accepted) :
  completesOnly (fun _ => False) (provisionGroup w a).
Proof.
  unfold provisionGroup.
  apply completesOnly_bind. intros [|g gs].
  - cbv zeta. repeat (apply completesOnly_bind; intros ?).
    match goal with |- completesOnly _ (match ?x with _ => _ end) =>
      destruct x end.
    + apply completesOnly_throw.
    + repeat (apply completesOnly_bind; intros ?).
      apply completesOnly_return.
  - repeat (apply completesOnly_bind; intros ?). apply completesOnly_return.
Qed.

(** How the handler answers, by how its two halves complete. *)
Lemma POST_by_halves (st : HState) :
  match accepted js w st with
  | (Normal a, s1) =>
      match provisionGroup w a s1 with
      | (Normal _, _) => False
      | (Return r, s2) => POST js w st = (Normal r, s2) /\ groupAnswer r
      | (Throw e, s2) =>
          POST js w st =
            (Normal {| status := 500;
                       payload := ErrorBody ("Internal server error: " ++ e)
                                    None |}, s2)
      end
  | (Return r, s1) => POST js w st = (Normal r, s1) /\ clientError r
  | (Throw e, s1) =>
      POST js w st =
        (Normal {| status := 500;
                   payload := ErrorBody ("Internal server error: " ++ e)
                                None |}, s1)
  end.
Proof.
  unfold POST, call, tryCatch, bind.
  destruct (accepted js w st) as [[a|r|e] s1] eqn:E.
  - destruct (provisionGroup w a s1) as [[r|r|e] s2] eqn:E2.
    + exact (provisionGroup_never_completes a _ _ _ E2).
    + split; [reflexivity|]. exact (provisionGroup_returns a _ _ _ E2).
    + reflexivity.
  - split; [reflexivity|]. exact (accepted_returns _ _ _ E).
  - reflexivity.
Qed.

(** X14: the accept handler always answers and never throws: with the
    group and status 200 or 201, with an error response of status 400,
    401, 403 or 404 that carries a code, or with status 500. *)
Theorem accept_POST_always_answers (st : HState) :
  exists r st',
    POST js w st = (Normal r, st') /\
    (groupAnswer r \/ clientError r \/
     exists message,
       r = {| status := 500; payload := ErrorBody message None |}).
Proof.
  pose proof (POST_by_halves st) as H.
  destruct (accepted js w st) as [[a|r|e] s1].
  - destruct (provisionGroup w a s1) as [[r|r|e] s2].
    + destruct H.
    + destruct H as [H G]. exists r, s2. split; [exact H|]. now left.
    + eexists _, _. split; [exact H|]. right. right. eauto.
  - destruct H as [H G]. exists r, s1. split; [exact H|]. right. now left.
  - eexists _, _. split; [exact H|]. right. right. eauto.
Qed.

(** What the checks establish about the trip and the record they resolve. *)
Lemma resolveMatch_owner (st s1 : HState) (u : string) (tid : Z)
    (t : Trip.t) (m : TripMatch.t) :
  resolveMatch js w st = (Normal (u, tid, t, m), s1) ->
  getSession w = Ok (Some {| session_user := Some u |}) /\
  (exists s, pathPart3 w = Some s /\ tid = parsedInt js (JStr s)) /\
  In t (Store.trips (db st)) /\ Trip.id t = tid /\ Trip.userId t = u /\
  In m (Store.tripMatches (db st)) /\ TripMatch.tripId m = tid.
Proof.
  unfold resolveMatch, bind, lift, returnIf, ret, return_, dbCall,
    Store.select.
  destruct (getSession w) as [[[[u'|]]|] | e]; try discriminate.
  destruct (negb (truthy_string u')); [discriminate|].
  destruct (pathPart3 w) as [s|]; [|discriminate].
  destruct (invalidInt js (JStr s)); [discriminate|].
  destruct (requestJson w) as [b | e]; [|discriminate].
  destruct (destructure "matchId" b) as [mid | e]; [|discriminate].
  destruct (invalidInt js mid); [discriminate|].
  simpl.
  destruct (dbFault w (dbCalls st)); [discriminate|].
  destruct (Store.limit1 (filter _ (Store.trips (db st))))
    as [|t0 ts] eqn:Etrip.
  { simpl. destruct (dbFault w _); [discriminate|].
    match goal with
    | |- context [match ?x with _ => _ end] => destruct x
    end; discriminate. }
  simpl. destruct (dbFault w _); [discriminate|].
  destruct (Store.limit1 (filter _ (Store.tripMatches (db st))))
    as [|m0 ms] eqn:Ematch; [discriminate|].
  simpl.
  destruct (negb (TripMatch.tripId m0 =? _)) eqn:Etid; [discriminate|].
  intros H. injection H as <- <- <- <- <-.
  apply firstn1_filter_In in Ematch. destruct Ematch as (Hmin & _).
  apply firstn1_filter_In in Etrip. destruct Etrip as (Htin & Hp).
  apply andb_true_iff in Hp. destruct Hp as [Hid Hu].
  apply Z.eqb_eq in Hid. apply String.eqb_eq in Hu.
  apply negb_false_iff, Z.eqb_eq in Etid.
  repeat split; eauto.
Qed.

(** The first row that a [select ... limit(1)] gives is the first row of the
    table that satisfies the condition. *)
Lemma limit1_filter_find {A : Type} (p : A -> bool) (rows : list A) (x : A)
    (rest : list A) :
  Store.limit1 (filter p rows) = x :: rest -> find p rows = Some x.
Proof.
  unfold Store.limit1.
  induction rows as [|row rows IH]; simpl; [discriminate|].
  destruct (p row); [|exact IH].
  simpl. intros H. now injection H as -> _.
Qed.

(** The record the checks resolve is the one the body names: the first
    record of the store whose id is the [matchId] of the body. *)
Lemma resolveMatch_named (st s1 : HState) (u : string) (tid : Z)
    (t : Trip.t) (m : TripMatch.t) :
  resolveMatch js w st = (Normal (u, tid, t, m), s1) ->
  exists body,
    requestJson w = Ok body /\
    find (fun r => TripMatch.id r =? parsedInt js (getField "matchId" body))
      (Store.tripMatches (db st)) = Some m.
Proof.
  unfold resolveMatch, bind, lift, returnIf, ret, return_, dbCall,
    Store.select.
  destruct (getSession w) as [[[[u'|]]|] | e]; try discriminate.
  destruct (negb (truthy_string u')); [discriminate|].
  destruct (invalidInt js _); [discriminate|].
  destruct (requestJson w) as [b | e]; [|discriminate].
  destruct (destructure "matchId" b) as [mid | e] eqn:Ed; [|discriminate].
  assert (Hmid : mid = getField "matchId" b).
  { destruct b; simpl in Ed; try discriminate; now injection Ed as <-. }
  subst mid.
  destruct (invalidInt js _); [discriminate|].
  simpl.
  destruct (dbFault w (dbCalls st)); [discriminate|].
  destruct (Store.limit1 (filter _ (Store.trips (db st))))
    as [|t0 ts] eqn:Etrip.
  { simpl. destruct (dbFault w _); [discriminate|].
    match goal with
    | |- context [match ?x with _ => _ end] => destruct x
    end; discriminate. }
  simpl. destruct (dbFault w _); [discriminate|].
  destruct (Store.limit1 (filter _ (Store.tripMatches (db st))))
    as [|m0 ms] eqn:Ematch; [discriminate|].
  simpl.
  destruct (negb (TripMatch.tripId m0 =? _)); [discriminate|].
  intros H. injection H as <- <- <- <- <-.
  exists b. split; [reflexivity|].
  exact (limit1_filter_find _ _ _ _ Ematch).
Qed.

(** X15: whatever the request and whatever fails, the accept handler leaves
    the store as it was unless the trip named in the URL is a trip of the
    session's user and the match record named in the body (the first record
    of the store whose id is the [matchId] of the body) is a record of that
    trip. *)
Theorem accept_POST_changes_only_own_trip (st : HState) :
  db (snd (POST js w st)) = db st \/
  exists u s body t m,
    getSession w = Ok (Some {| session_user := Some u |}) /\
    pathPart3 w = Some s /\
    requestJson w = Ok body /\
    In t (Store.trips (db st)) /\
    Trip.id t = parsedInt js (JStr s) /\ Trip.userId t = u /\
    find (fun r => TripMatch.id r =? parsedInt js (getField "matchId" body))
      (Store.tripMatches (db st)) = Some m /\
    TripMatch.tripId m = Trip.id t.
Proof.
  pose proof (resolveMatch_db js w st) as Hdb.
  destruct (resolveMatch js w st) as [[[[[u tid] t] m]|r|e] s1] eqn:E.
  - right. destruct (resolveMatch_named _ _ _ _ _ _ E) as (body & Hb & Hf).
    apply resolveMatch_owner in E.
    destruct E as (Hs & (s & Hp & ->) & Ht & Hid & Hu & Hm & Htid).
    exists u, s, body, t, m.
    split; [exact Hs|]. split; [exact Hp|]. split; [exact Hb|].
    split; [exact Ht|]. split; [exact Hid|]. split; [exact Hu|].
    split; [exact Hf|]. congruence.
  - left. unfold POST, call, tryCatch, accepted, bind. rewrite E. exact Hdb.
  - left. unfold POST, call, tryCatch, accepted, bind. rewrite E. exact Hdb.
Qed.

Lemma Forall2_acceptedOrSame_refl (l : list TripMatch.t) :
  Forall2 acceptedOrSame l l.
Proof. induction l; constructor; [now left|assumption]. Qed.

Lemma acceptedOrSame_trans (a b c : TripMatch.t) :
  acceptedOrSame a b -> acceptedOrSame b c -> acceptedOrSame a c.
Proof.
  unfold acceptedOrSame. intros [-> | ->] [-> | ->]; auto.
Qed.

Lemma Forall2_acceptedOrSame_trans (l1 l2 l3 : list TripMatch.t) :
  Forall2 acceptedOrSame l1 l2 -> Forall2 acceptedOrSame l2 l3 ->
  Forall2 acceptedOrSame l1 l3.
Proof.
  intros H. revert l3. induction H; intros l3 H3; inversion H3; subst;
    constructor; eauto using acceptedOrSame_trans.
Qed.

Lemma grownByAcceptance_refl (s : Store.t) : grownByAcceptance s s.
Proof.
  repeat split; try (exists []; now rewrite app_nil_r).
  apply Forall2_acceptedOrSame_refl.
Qed.

Lemma grownByAcceptance_trans (s1 s2 s3 : Store.t) :
  grownByAcceptance s1 s2 -> grownByAcceptance s2 s3 ->
  grownByAcceptance s1 s3.
Proof.
  intros (T1 & M1 & (g1 & G1) & (m1 & N1)) (T2 & M2 & (g2 & G2) & (m2 & N2)).
  repeat split.
  - congruence.
  - eapply Forall2_acceptedOrSame_trans; eassumption.
  - exists (g1 ++ g2)%list. now rewrite G2, G1, app_assoc.
  - exists (m1 ++ m2)%list. now rewrite N2, N1, app_assoc.
Qed.

(** The handler only ever sets a status to accepted. *)
Lemma accept_POST_stable_accepted (R : Store.t -> Store.t -> Prop)
    (st : HState) :
  (forall s, R s s) ->
  (forall s1 s2 s3, R s1 s2 -> R s2 s3 -> R s1 s3) ->
  (forall a b s, R s (snd (Store.setMatchStatus a b "accepted" s))) ->
  (forall v s, R s (snd (Store.insertGroup v s))) ->
  (forall v s, R s (snd (Store.insertGroupMember v s))) ->
  R (db st) (db (snd (POST js w st))).
Proof.
  intros R_refl R_trans Hset Hgroup Hmember. unfold POST, accepted.
  apply stable_call; auto.
  unfold resolveMatch, acceptBothDirections, findMatchedUser, provisionGroup.
  repeat (stable_step || (apply stable_dbCall; auto)).
Qed.

Lemma setMatchStatus_acceptedOrSame (a b : Z) (l : list TripMatch.t) :
  Forall2 acceptedOrSame l
    (map (fun r =>
            if (TripMatch.tripId r =? a) && (TripMatch.matchedTripId r =? b)
            then TripMatch.with_status r "accepted" else r) l).
Proof.
  induction l as [|r l IH]; simpl; constructor; [|assumption].
  unfold acceptedOrSame. destruct (_ && _); auto.
Qed.

(** X16: whatever the request and whatever fails, an acceptance deletes
    nothing and undoes nothing: the trips are as before, every match record
    is still there, in place, unchanged or with its status set to accepted,
    and groups and memberships are only added. *)
Theorem accept_POST_only_accepts_and_adds (st : HState) :
  grownByAcceptance (db st) (db (snd (POST js w st))).
Proof.
  apply accept_POST_stable_accepted.
  - apply grownByAcceptance_refl.
  - apply grownByAcceptance_trans.
  - intros a b s. repeat split; simpl;
      try (exists []; now rewrite app_nil_r).
    apply setMatchStatus_acceptedOrSame.
  - intros v s. repeat split; simpl;
      try (exists []; now rewrite app_nil_r);
      try apply Forall2_acceptedOrSame_refl.
    eexists. reflexivity.
  - intros v s. repeat split; simpl;
      try (exists []; now rewrite app_nil_r);
      try apply Forall2_acceptedOrSame_refl.
    eexists. reflexivity.
Qed.

(** *** Accepting the same match again *)

Lemma with_status_twice (r : TripMatch.t) (x : string) :
  TripMatch.with_status (TripMatch.with_status r x) x =
  TripMatch.with_status r x.
Proof. reflexivity. Qed.

(** The two updates of an acceptance, as one function on the records. *)
Lemma acceptBothDirections_run (a b : Z) (st : HState) :
  (forall n, dbFault w n = None) ->
  exists st',
    acceptBothDirections w a b st = (Normal tt, st') /\
    db st' =
      snd (Store.setMatchStatus b a "accepted"
             (snd (Store.setMatchStatus a b "accepted" (db st)))).
Proof.
  intros Hf. unfold acceptBothDirections, bind, dbCall.
  rewrite !Hf. simpl. rewrite !Hf. simpl. eexists. split; reflexivity.
Qed.

Lemma setMatchStatus_twice (a b : Z) (s s0 : Store.t) :
  Store.tripMatches s =
    Store.tripMatches
      (snd (Store.setMatchStatus b a "accepted"
              (snd (Store.setMatchStatus a b "accepted" s0)))) ->
  snd (Store.setMatchStatus b a "accepted"
         (snd (Store.setMatchStatus a b "accepted" s))) = s.
Proof.
  intros H. destruct s as [ts ms gs gms c1 c2 c3 c4]. simpl in *.
  f_equal. rewrite H, !map_map. apply map_ext. intros r.
  destruct ((TripMatch.tripId r =? a) && (TripMatch.matchedTripId r =? b))
    eqn:E1;
  destruct ((TripMatch.tripId r =? b) && (TripMatch.matchedTripId r =? a))
    eqn:E2;
  cbn [TripMatch.with_status TripMatch.tripId TripMatch.matchedTripId];
  rewrite ?E1, ?E2;
  cbn [TripMatch.with_status TripMatch.tripId TripMatch.matchedTripId];
  rewrite ?E1, ?E2;
  cbn [TripMatch.with_status TripMatch.tripId TripMatch.matchedTripId];
  rewrite ?E1, ?E2; reflexivity.
Qed.

Lemma limit1_map {A B : Type} (f : A -> B) (l : list A) :
  Store.limit1 (map f l) = map f (Store.limit1 l).
Proof. now destruct l. Qed.

Lemma filter_map_same {A : Type} (p : A -> bool) (f : A -> A) (l : list A) :
  (forall x, p (f x) = p x) -> filter p (map f l) = map f (filter p l).
Proof.
  intros H. induction l as [|x l IH]; simpl; [reflexivity|].
  rewrite H. destruct (p x); simpl; now rewrite IH.
Qed.

(** The check of the match record after the two updates finds the updated
    record. *)
Lemma updated_record_found (a b i : Z) (s : Store.t) (m : TripMatch.t)
    (ms : list TripMatch.t) :
  Store.limit1 (filter (fun x => TripMatch.id x =? i) (Store.tripMatches s))
    = m :: ms ->
  exists m',
    Store.limit1
      (filter (fun x => TripMatch.id x =? i)
         (Store.tripMatches
            (snd (Store.setMatchStatus b a "accepted"
                    (snd (Store.setMatchStatus a b "accepted" s))))))
      = [m'] /\
    TripMatch.tripId m' = TripMatch.tripId m /\
    TripMatch.matchedTripId m' = TripMatch.matchedTripId m.
Proof.
  intros H. simpl. rewrite map_map.
  rewrite filter_map_same, limit1_map.
  - assert (E : Store.limit1
                  (filter (fun x => TripMatch.id x =? i)
                     (Store.tripMatches s)) = [m]).
    { revert H. unfold Store.limit1.
      destruct (filter _ (Store.tripMatches s)) as [|x l]; simpl;
        [discriminate|]. now intros [= ->]. }
    rewrite E. simpl. eexists. split; [reflexivity|].
    destruct (_ && _);
      cbn [TripMatch.with_status TripMatch.tripId TripMatch.matchedTripId];
      destruct (_ && _); simpl; auto.
  - intros x. destruct (_ && _);
      cbn [TripMatch.with_status TripMatch.tripId TripMatch.matchedTripId];
      destruct (_ && _); reflexivity.
Qed.

Lemma resolveMatch_again (st s1 st2 : HState) (u : string) (tid : Z)
    (t : Trip.t) (m : TripMatch.t) (a b : Z) :
  (forall n, dbFault w n = None) ->
  resolveMatch js w st = (Normal (u, tid, t, m), s1) ->
  Store.trips (db st2) = Store.trips (db st) ->
  Store.tripMatches (db st2) =
    Store.tripMatches
      (snd (Store.setMatchStatus b a "accepted"
              (snd (Store.setMatchStatus a b "accepted" (db st))))) ->
  exists m' s3,
    resolveMatch js w st2 = (Normal (u, tid, t, m'), s3) /\
    db s3 = db st2 /\
    TripMatch.matchedTripId m' = TripMatch.matchedTripId m.
Proof.
  intros Hf H Ht Hm. revert H.
  unfold resolveMatch, bind, lift, returnIf, ret, return_, dbCall,
    Store.select.
  destruct (getSession w) as [[[[u'|]]|] | e]; try discriminate.
  destruct (negb (truthy_string u')); [discriminate|].
  destruct (pathPart3 w) as [s|]; [|discriminate].
  destruct (invalidInt js (JStr s)); [discriminate|].
  destruct (requestJson w) as [bd | e]; [|discriminate].
  destruct (destructure "matchId" bd) as [mid | e]; [|discriminate].
  destruct (invalidInt js mid); [discriminate|].
  simpl. rewrite !Hf. rewrite Ht.
  destruct (Store.limit1 (filter _ (Store.trips (db st))))
    as [|t0 ts] eqn:Etrip.
  { simpl. rewrite !Hf.
    match goal with
    | |- context [match ?x with _ => _ end] => destruct x
    end; discriminate. }
  simpl. rewrite !Hf.
  destruct (Store.limit1 (filter _ (Store.tripMatches (db st))))
    as [|m0 ms] eqn:Ematch; [discriminate|].
  destruct (updated_record_found a b _ _ _ _ Ematch) as (m' & E' & T1 & T2).
  rewrite Hm, E'.
  simpl. rewrite T1.
  destruct (negb (TripMatch.tripId m0 =? _)) eqn:Etid; [discriminate|].
  intros H. injection H as <- <- <- <- <-.
  eexists m', _. split; [reflexivity|]. split; [reflexivity|exact T2].
Qed.

Lemma findMatchedUser_again (i : Z) (st s1 st2 : HState) (mu : string) :
  (forall n, dbFault w n = None) ->
  findMatchedUser w i st = (Normal mu, s1) ->
  Store.trips (db st2) = Store.trips (db st) ->
  exists s3, findMatchedUser w i st2 = (Normal mu, s3) /\ db s3 = db st2.
Proof.
  intros Hf H Ht. revert H.
  unfold findMatchedUser, bind, dbCall, Store.select, ret, return_.
  rewrite !Hf, Ht.
  destruct (Store.limit1 (filter _ (Store.trips (db st)))) as [|t0 ts];
    [discriminate|].
  intros H. injection H as <- _. eexists. split; reflexivity.
Qed.

(** After a first half that completed, a second one on a store with the
    same trips and match records completes with the same result and changes
    nothing. *)
Lemma accepted_again (st st1 st2 : HState) (a : Accepted) :
  (forall n, dbFault w n = None) ->
  accepted js w st = (Normal a, st1) ->
  Store.trips (db st2) = Store.trips (db st1) ->
  Store.tripMatches (db st2) = Store.tripMatches (db st1) ->
  exists st3, accepted js w st2 = (Normal a, st3) /\ db st3 = db st2.
Proof.
  intros Hf H Ht2 Hm2. unfold accepted in H.
  apply bind_Normal in H. destruct H as ([[[u tid] t] m] & s_a & Er & H).
  apply bind_Normal in H. destruct H as ([] & s_b & Eb & H).
  apply bind_Normal in H. destruct H as (mu & s_c & Em & H).
  unfold ret in H. injection H as <- <-.
  pose proof (resolveMatch_db js w st) as Da. rewrite Er in Da. simpl in Da.
  destruct (acceptBothDirections_run tid (TripMatch.matchedTripId m) s_a Hf)
    as (s_b' & Eb' & Db).
  rewrite Eb in Eb'. injection Eb' as <-. rewrite Da in Db.
  pose proof (findMatchedUser_db w (TripMatch.matchedTripId m) s_b) as Dc.
  rewrite Em in Dc. simpl in Dc.
  rewrite Dc, Db in Ht2, Hm2.
  destruct (resolveMatch_again st s_a st2 u tid t m _ _ Hf Er Ht2 Hm2)
    as (m' & s3 & Er2 & D3 & Emt).
  destruct (acceptBothDirections_run tid (TripMatch.matchedTripId m) s3 Hf)
    as (s4 & Eb2 & D4).
  assert (D4' : db s4 = db st2).
  { rewrite D4, D3. now apply (setMatchStatus_twice _ _ _ (db st)). }
  assert (Ht : Store.trips (db s4) = Store.trips (db s_b)).
  { rewrite D4', Ht2, Db. reflexivity. }
  destruct (findMatchedUser_again _ s_b s_c s4 mu Hf Em Ht)
    as (s5 & Em2 & D5).
  exists s5. split; [|congruence].
  unfold accepted, bind. rewrite Er2. rewrite Emt. rewrite Eb2. rewrite Em2.
  reflexivity.
Qed.

Lemma provisionGroup_keeps_trips (a : Accepted) :
  stable (fun s s' => Store.trips s' = Store.trips s) (provisionGroup w a).
Proof.
  assert (Hrefl : forall s : Store.t, Store.trips s = Store.trips s)
    by reflexivity.
  assert (Htrans : forall s1 s2 s3 : Store.t,
            Store.trips s2 = Store.trips s1 ->
            Store.trips s3 = Store.trips s2 ->
            Store.trips s3 = Store.trips s1) by congruence.
  unfold provisionGroup.
  repeat (stable_step || (apply stable_dbCall; auto)).
Qed.

Lemma limit1_cons_inv {A : Type} (l : list A) (x : A) (rest : list A) :
  Store.limit1 l = x :: rest -> exists l', l = x :: l'.
Proof.
  destruct l as [|y l]; simpl; [discriminate|]. intros [= -> _]. eauto.
Qed.

Lemma limit1_nil_inv {A : Type} (l : list A) : Store.limit1 l = [] -> l = [].
Proof. destruct l; [reflexivity|discriminate]. Qed.

(** After the second half, a group of either trip exists and the accepting
    user is a member of the first such group. *)
Lemma provisionGroup_run (a : Accepted) (st st' : HState) (r : Response) :
  (forall n, dbFault w n = None) ->
  provisionGroup w a st = (Return r, st') ->
  exists g rest,
    filter (groupOfTrip (tripId a) (matchedTripId a))
      (Store.groups (db st')) = g :: rest /\
    isMember (userId a) (Group.id g) (db st') = true.
Proof.
  intros Hf. unfold provisionGroup, bind, dbCall, now, Store.select, return_.
  rewrite !Hf. simpl.
  destruct (Store.limit1 (filter _ (Store.groups (db st)))) as [|g gs] eqn:Eg.
  - apply limit1_nil_inv in Eg.
    repeat (rewrite ?Hf; simpl).
    intros H. injection H as _ <-. simpl.
    rewrite filter_app, Eg. simpl. unfold groupOfTrip at 1. simpl.
    rewrite Z.eqb_refl. simpl. do 2 eexists. split; [reflexivity|].
    unfold isMember. simpl. rewrite !existsb_app. simpl.
    now rewrite Z.eqb_refl, String.eqb_refl, !orb_true_r.
  - apply limit1_cons_inv in Eg. destruct Eg as (rest & Eg).
    repeat (rewrite ?Hf; simpl).
    destruct (Store.limit1 (filter _ (Store.groupMembers (db st))))
      as [|x xs] eqn:Em; repeat (rewrite ?Hf; simpl).
    + intros H. injection H as _ <-. simpl. rewrite Eg.
      do 2 eexists. split; [reflexivity|].
      unfold isMember. simpl. rewrite existsb_app. simpl.
      now rewrite Z.eqb_refl, String.eqb_refl, !orb_true_r.
    + intros H. injection H as _ <-. simpl. rewrite Eg.
      do 2 eexists. split; [reflexivity|].
      apply firstn1_filter_In in Em. destruct Em as [Hin Hp].
      unfold isMember. apply existsb_exists. eauto.
Qed.

(** For a member of the group there is nothing to do. *)
Lemma provisionGroup_member (a : Accepted) (st : HState) (g : Group.t)
    (rest : list Group.t) :
  (forall n, dbFault w n = None) ->
  filter (groupOfTrip (tripId a) (matchedTripId a)) (Store.groups (db st))
    = g :: rest ->
  isMember (userId a) (Group.id g) (db st) = true ->
  exists st',
    provisionGroup w a st =
      (Return {| status := 200;
                 payload :=
                   GroupBody g
                     (filter (membersOf (Group.id g))
                        (Store.groupMembers (db st))) |}, st') /\
    db st' = db st.
Proof.
  intros Hf Hsome Hm.
  unfold provisionGroup, bind, dbCall, now, Store.select, return_.
  rewrite !Hf. simpl. rewrite Hsome. simpl. rewrite !Hf. simpl.
  unfold isMember in Hm.
  destruct (limit1_filter_cons _ _ Hm) as (x & ->). simpl.
  rewrite ?Hf. simpl. eexists. split; reflexivity.
Qed.

(** X17: accepting is idempotent: when an acceptance has been answered with
    the group and no database call fails, the same request made again on
    the resulting store is answered 200 with a group and changes nothing:
    no record, no group and no membership is added. *)
Theorem accept_POST_again_changes_nothing
    (st st1 st2 : HState) (r : Response) :
  (forall n, dbFault w n = None) ->
  POST js w st = (Normal r, st1) ->
  status r = 200 \/ status r = 201 ->
  db st2 = db st1 ->
  exists g members st3,
    POST js w st2 =
      (Normal {| status := 200; payload := GroupBody g members |}, st3) /\
    db st3 = db st1.
Proof.
  intros Hf HP Hr Hdb.
  pose proof (POST_by_halves st) as H1.
  destruct (accepted js w st) as [[a|r1|e] s1] eqn:Ea.
  - destruct (provisionGroup w a s1) as [[r2|r2|e] s2] eqn:Ep.
    + destruct H1.
    + destruct H1 as [H1 _]. rewrite H1 in HP. injection HP as -> ->.
      destruct (provisionGroup_run a s1 st1 r Hf Ep) as (g & rest & Eg & Em).
      pose proof (provisionGroup_keeps_trips a s1) as Kt.
      pose proof (provisionGroup_keeps_matches w a s1) as Km.
      rewrite Ep in Kt, Km. simpl in Kt, Km.
      destruct (accepted_again st s1 st2 a Hf Ea) as (s3 & Ea2 & D3);
        [congruence|congruence|].
      rewrite <- Hdb, <- D3 in Eg, Em.
      destruct (provisionGroup_member a s3 g rest Hf Eg Em) as (s4 & Ep2 & D4).
      pose proof (POST_by_halves st2) as H2.
      rewrite Ea2, Ep2 in H2. destruct H2 as [H2 _].
      eexists _, _, s4. split; [exact H2|]. congruence.
    + rewrite H1 in HP. injection HP as <- _. simpl in Hr.
      destruct Hr; discriminate.
  - destruct H1 as [H1 [C _]]. rewrite H1 in HP. injection HP as <- _.
    destruct C as [C | [C | [C | C]]], Hr as [Hr | Hr]; congruence.
  - rewrite H1 in HP. injection HP as <- _. simpl in Hr.
    destruct Hr; discriminate.
Qed.

End AcceptAnswers.

Lemma accept_POST_again_changes_nothing_witness :
  exists g members st3,
    AcceptRoute.POST Runtime.js (Scenario.worldAccept (JNum 1))
      (initial Scenario.store3) =
      (Normal {| status := 200; payload := GroupBody g members |}, st3) /\
    db st3 = Scenario.store3.
Proof.
  pose (run := AcceptRoute.POST Runtime.js (Scenario.worldAccept (JNum 1))
                 (initial Scenario.store2)).
  assert (E : exists r, run = (Normal r, snd run) /\ status r = 201)
    by (vm_compute; eexists; split; reflexivity).
  destruct E as (r & E & Hr).
  assert (D : db (initial Scenario.store3) = db (snd run))
    by (vm_compute; reflexivity).
  destruct (accept_POST_again_changes_nothing Runtime.js
              (Scenario.worldAccept (JNum 1)) (initial Scenario.store2)
              (snd run) (initial Scenario.store3) r (fun _ => eq_refl) E
              (or_intror Hr) D) as (g & members & st3 & HP & Hdb).
  exists g, members, st3. split; [exact HP|]. now rewrite Hdb, <- D.
Defined.

(** Dave names match 2 on his trip 5; record 2 is the record of Bob's trip 2
    (from 2 to 5), not of trip 5: the store stays as it was. *)
Lemma accept_POST_changes_only_own_trip_witness :
  find (fun r => TripMatch.id r =? 2) (Store.tripMatches Scenario.store2)
    = Some (Scenario.mkMatch 2 2 5 150) /\
  db (snd (AcceptRoute.POST Runtime.js (Scenario.worldAccept (JNum 2))
             (initial Scenario.store2))) = Scenario.store2.
Proof.
  split; [reflexivity|].
  destruct (accept_POST_changes_only_own_trip Runtime.js
              (Scenario.worldAccept (JNum 2)) (initial Scenario.store2))
    as [H | (u & s & body & t & m & _ & Hs & Hb & _ & Hid & _ & Hf & Htid)].
  - exact H.
  - exfalso. injection Hs as <-. injection Hb as <-.
    vm_compute in Hf. injection Hf as <-.
    rewrite Hid in Htid. vm_compute in Htid. discriminate Htid.
Defined.

Section AcceptAnswerFacts.
Context (js : JSRuntime) (w : World).
Import AcceptRoute.

(** Whenever the second half answers, the group of the answer is in the
    store, the members listed are its memberships, and the accepting user
    is one of them. *)
Lemma provisionGroup_Return (a : Accepted) (st st' : HState) (r : Response) :
  provisionGroup w a st = (Return r, st') ->
  exists g,
    payload r =
      GroupBody g (filter (membersOf (Group.id g))
                     (Store.groupMembers (db st'))) /\
    In g (Store.groups (db st')) /\
    isMember (userId a) (Group.id g) (db st') = true.
Proof.
  unfold provisionGroup, bind, dbCall, now, Store.select, return_, lift.
  destruct (dbFault w (dbCalls st)); [discriminate|]. simpl.
  destruct (Store.limit1 (filter _ (Store.groups (db st)))) as [|g gs] eqn:Eg.
  - simpl.
    destruct (dbFault w _); [discriminate|]. simpl.
    destruct (dbFault w _); [discriminate|]. simpl.
    destruct (dbFault w _); [discriminate|]. simpl.
    destruct (dbFault w _); [discriminate|]. simpl.
    intros H. injection H as <- <-. simpl.
    match goal with |- exists g, GroupBody ?g0 _ = _ /\ _ => exists g0 end.
    split; [reflexivity|]. split.
    + apply in_or_app. right. now left.
    + unfold isMember. simpl. rewrite !existsb_app. simpl.
      now rewrite Z.eqb_refl, String.eqb_refl, !orb_true_r.
  - apply firstn1_filter_In in Eg. destruct Eg as [Hg _]. simpl.
    destruct (dbFault w _); [discriminate|]. simpl.
    destruct (Store.limit1 (filter _ (Store.groupMembers (db st))))
      as [|x xs] eqn:Em; simpl.
    + destruct (dbFault w _); [discriminate|]. simpl.
      destruct (dbFault w _); [discriminate|]. simpl.
      intros H. injection H as <- <-. simpl.
      exists g. split; [reflexivity|]. split; [exact Hg|].
      unfold isMember. simpl. rewrite existsb_app. simpl.
      now rewrite Z.eqb_refl, String.eqb_refl, !orb_true_r.
    + destruct (dbFault w _); [discriminate|]. simpl.
      intros H. injection H as <- <-. simpl.
      exists g. split; [reflexivity|]. split; [exact Hg|].
      apply firstn1_filter_In in Em. destruct Em as [Hin Hp].
      unfold isMember. apply existsb_exists. eauto.
Qed.

(** X18: the answer of an acceptance shows the store: whenever the handler
    answers with a group, whatever failed before, that group is in the
    store, the members of the answer are exactly the memberships of that
    group in the store, and the user of the session is one of them. *)
Theorem accept_POST_answer_shows_store
    (st st' : HState) (k : Z) (g : Group.t) (members : list GroupMember.t) :
  POST js w st =
    (Normal {| status := k; payload := GroupBody g members |}, st') ->
  In g (Store.groups (db st')) /\
  members = filter (membersOf (Group.id g)) (Store.groupMembers (db st')) /\
  exists u,
    getSession w = Ok (Some {| session_user := Some u |}) /\
    isMember u (Group.id g) (db st') = true /\
    In u (map GroupMember.userId members).
Proof.
  intros HP. pose proof (POST_by_halves js w st) as H.
  destruct (accepted js w st) as [[a|r|e] s1] eqn:Ea.
  - destruct (provisionGroup w a s1) as [[r|r|e] s2] eqn:Ep.
    + destruct H.
    + destruct H as [H _]. rewrite H in HP. injection HP as -> ->.
      apply provisionGroup_Return in Ep.
      destruct Ep as (g0 & Hpay & Hin & Hm). simpl in Hpay.
      injection Hpay as -> ->.
      split; [exact Hin|]. split; [reflexivity|].
      apply accepted_Normal in Ea.
      destruct Ea as (_ & _ & _ & Hs & _).
      exists (userId a). split; [exact Hs|]. split; [exact Hm|].
      unfold isMember in Hm. apply existsb_exists in Hm.
      destruct Hm as (m & Hmin & Hp). apply andb_true_iff in Hp.
      destruct Hp as [Hgid Hu]. apply String.eqb_eq in Hu.
      apply in_map_iff. exists m. split; [exact Hu|].
      apply filter_In. split; [exact Hmin|exact Hgid].
    + rewrite H in HP. discriminate HP.
  - destruct H as [H (_ & m & c & Hc)]. rewrite H in HP.
    injection HP as -> _. discriminate Hc.
  - rewrite H in HP. discriminate HP.
Qed.

End AcceptAnswerFacts.

Lemma accept_POST_answer_shows_store_witness :
  exists g members st',
    AcceptRoute.POST Runtime.js (Scenario.worldAccept (JNum 1))
      (initial Scenario.store2) =
      (Normal {| status := 201; payload := GroupBody g members |}, st') /\
    map GroupMember.userId members = ["dave"; "bob"] /\
    members =
      filter (AcceptRoute.membersOf (Group.id g))
        (Store.groupMembers (db st')) /\
    In g (Store.groups (db st')).
Proof.
  assert (E : exists g members st',
            AcceptRoute.POST Runtime.js (Scenario.worldAccept (JNum 1))
              (initial Scenario.store2) =
              (Normal {| status := 201; payload := GroupBody g members |},
               st') /\
            map GroupMember.userId members = ["dave"; "bob"])
    by (vm_compute; eexists _, _, _; split; reflexivity).
  destruct E as (g & members & st' & E & Hu).
  destruct (accept_POST_answer_shows_store Runtime.js
              (Scenario.worldAccept (JNum 1)) (initial Scenario.store2) st'
              201 g members E) as (Hin & Hm & _).
  exists g, members, st'. repeat split; assumption.
Defined.

(** ** Deleting a trip *)

Section DeleteFacts.
Context (js : JSRuntime) (w : World).
Import TripRoute.

Lemma deleteOwnTrip_returns (id : string) :
  returnsOnly clientError (deleteOwnTrip js w id).
Proof.
  unfold deleteOwnTrip.
  repeat (cbv zeta; returns_step);
    try (split; [simpl; tauto|eexists _, _; reflexivity]).
Qed.

(** A deletion that goes through: who asked, which trip, and the
    statement that ran. *)
Lemma deleteOwnTrip_Normal (id : string) (st st' : HState)
    (v : string * option Trip.t) :
  deleteOwnTrip js w id st = (Normal v, st') ->
  exists t,
    v = ("Trip deleted successfully", Some t) /\
    In t (Store.trips (db st)) /\
    Trip.id t = AcceptRoute.parsedInt js (JStr id) /\
    getSession w = Ok (Some {| session_user := Some (Trip.userId t) |}) /\
    Store.limit1 (filter (fun x => Trip.id x =? Trip.id t)
                    (Store.trips (db st))) = [t] /\
    db st' = snd (Store.deleteTrip (Trip.id t) (db st)).
Proof.
  unfold deleteOwnTrip, bind, lift, returnIf, ret, return_, dbCall,
    Store.select.
  destruct (getSession w) as [[[[u|]]|] | e]; try discriminate.
  destruct (negb (truthy_string u)); [discriminate|].
  destruct (AcceptRoute.invalidInt js (JStr id)); [discriminate|].
  simpl. destruct (dbFault w (dbCalls st)); [discriminate|].
  destruct (Store.limit1 (filter _ (Store.trips (db st))))
    as [|t ts] eqn:Et; [discriminate|].
  simpl.
  destruct (negb (String.eqb (Trip.userId t) u)) eqn:Eu; [discriminate|].
  simpl. destruct (dbFault w _); [discriminate|].
  simpl. intros H. injection H as <- <-.
  apply negb_false_iff, String.eqb_eq in Eu.
  assert (Et1 : Store.limit1
                  (filter (fun x => Trip.id x =? AcceptRoute.parsedInt js (JStr id))
                     (Store.trips (db st))) = [t]).
  { revert Et. unfold Store.limit1.
    destruct (filter _ (Store.trips (db st))) as [|x l]; simpl;
      [discriminate|]. now intros [= ->]. }
  pose proof Et as Et2. apply firstn1_filter_In in Et2.
  destruct Et2 as [Hin Hid]. apply Z.eqb_eq in Hid.
  exists t. rewrite Hid, Eu. simpl db. repeat split; auto.
  f_equal. unfold Store.limit1 in Et1.
  destruct (filter _ (Store.trips (db st))) as [|x l]; simpl in *;
    [discriminate|]. now injection Et1 as ->.
Qed.

(** Unless the deletion goes through, the store is as it was. *)
Lemma deleteOwnTrip_otherwise (id : string) (st : HState) :
  (exists v, fst (deleteOwnTrip js w id st) = Normal v) \/
  db (snd (deleteOwnTrip js w id st)) = db st.
Proof.
  unfold deleteOwnTrip, bind, lift, returnIf, ret, return_, dbCall,
    Store.select.
  destruct (getSession w) as [[[[u|]]|] | e]; try (now right).
  destruct (negb (truthy_string u)); [now right|].
  destruct (AcceptRoute.invalidInt js (JStr id)); [now right|].
  simpl. destruct (dbFault w (dbCalls st)); [now right|].
  destruct (Store.limit1 (filter _ (Store.trips (db st)))) as [|t ts];
    [now right|].
  simpl. destruct (negb (String.eqb (Trip.userId t) u)); [now right|].
  simpl. destruct (dbFault w _); [now right|].
  left. simpl. eauto.
Qed.

Lemma DELETE_by_block (id : string) (st : HState) :
  match deleteOwnTrip js w id st with
  | (Normal v, s1) => DELETE js w id st = (Normal (Success 200 v), s1)
  | (Return r, s1) =>
      DELETE js w id st = (Normal (Failure r), s1) /\ clientError r
  | (Throw e, s1) =>
      DELETE js w id st =
        (Normal (Failure
           {| status := 500;
              payload := ErrorBody ("Internal server error: " ++ e) None |}),
         s1)
  end.
Proof.
  unfold DELETE, answer, tryCatch, return_.
  destruct (deleteOwnTrip js w id st) as [[v|r|e] s1] eqn:E;
    [reflexivity| |reflexivity].
  split; [reflexivity|]. exact (deleteOwnTrip_returns id _ _ _ E).
Qed.

(** X19: the delete handler always answers.  Either with status 200 and the
    deleted trip: then that trip was in the store under the id of the URL,
    it belongs to the session's user, and the store is the old one after
    the deletion of that id.  Or with an error response of status 400, 401,
    403, 404 or 500: then the store is exactly as it was. *)
Theorem DELETE_deletes_own_trip_or_nothing (id : string) (st : HState) :
  exists r st',
    DELETE js w id st = (Normal r, st') /\
    ((exists t,
        r = Success 200 ("Trip deleted successfully", Some t) /\
        In t (Store.trips (db st)) /\
        Trip.id t = AcceptRoute.parsedInt js (JStr id) /\
        getSession w = Ok (Some {| session_user := Some (Trip.userId t) |}) /\
        db st' = snd (Store.deleteTrip (Trip.id t) (db st)))
     \/
     ((exists response,
         r = Failure response /\
         (clientError response \/
          exists message,
            response = {| status := 500;
                          payload := ErrorBody message None |})) /\
      db st' = db st)).
Proof.
  pose proof (DELETE_by_block id st) as H.
  pose proof (deleteOwnTrip_otherwise id st) as Ho.
  destruct (deleteOwnTrip js w id st) as [[v|r|e] s1] eqn:E; simpl in Ho.
  - exists (Success 200 v), s1. split; [exact H|]. left.
    apply deleteOwnTrip_Normal in E.
    destruct E as (t & -> & Hin & Hid & Hs & _ & Hdb).
    exists t. repeat split; auto.
  - destruct H as [H C]. exists (Failure r), s1. split; [exact H|]. right.
    destruct Ho as [[v Hv] | Ho]; [discriminate|]. split; [|exact Ho].
    exists r. split; [reflexivity|now left].
  - eexists _, s1. split; [exact H|]. right.
    destruct Ho as [[v Hv] | Ho]; [discriminate|]. split; [|exact Ho].
    eexists. split; [reflexivity|]. right. eauto.
Qed.

(** What the deletion of a trip id does to the tables. *)
Lemma deleteTrip_tables (i : Z) (s : Store.t) :
  let s' := snd (Store.deleteTrip i s) in
  (forall t, In t (Store.trips s') <-> In t (Store.trips s) /\ Trip.id t <> i)
  /\
  (forall m, In m (Store.tripMatches s') <->
     In m (Store.tripMatches s) /\
     TripMatch.tripId m <> i /\ TripMatch.matchedTripId m <> i) /\
  map Group.id (Store.groups s') = map Group.id (Store.groups s) /\
  (forall g, In g (Store.groups s') -> Group.tripId g <> Some i) /\
  Store.groupMembers s' = Store.groupMembers s.
Proof.
  simpl. split; [|split; [|split; [|split]]].
  - intros t. rewrite filter_In, negb_true_iff, Z.eqb_neq. tauto.
  - intros m. rewrite filter_In, negb_true_iff, orb_false_iff, !Z.eqb_neq.
    tauto.
  - rewrite map_map. apply map_ext. intros g.
    destruct (Group.tripId g) as [j|]; [|reflexivity].
    now destruct (j =? i).
  - intros g H. apply in_map_iff in H. destruct H as (g0 & <- & _).
    destruct (Group.tripId g0) as [j|] eqn:Ej.
    + destruct (j =? i) eqn:E; simpl; [discriminate|].
      rewrite Ej. apply Z.eqb_neq in E. congruence.
    + rewrite Ej. discriminate.
  - reflexivity.
Qed.

(** X20: when a trip has been deleted, no trip of that id and no match
    record that names it, as subject or as candidate, is left; every other
    trip and every other match record is still there; the groups are all
    still there, none of them refers to the trip any more, and the
    memberships are untouched. *)
Theorem DELETE_cascades_to_matches
    (id : string) (st st' : HState) (v : string * option Trip.t) :
  DELETE js w id st = (Normal (Success 200 v), st') ->
  let i := AcceptRoute.parsedInt js (JStr id) in
  (forall t, In t (Store.trips (db st')) <->
     In t (Store.trips (db st)) /\ Trip.id t <> i) /\
  (forall m, In m (Store.tripMatches (db st')) <->
     In m (Store.tripMatches (db st)) /\
     TripMatch.tripId m <> i /\ TripMatch.matchedTripId m <> i) /\
  map Group.id (Store.groups (db st')) = map Group.id (Store.groups (db st)) /\
  (forall g, In g (Store.groups (db st')) -> Group.tripId g <> Some i) /\
  Store.groupMembers (db st') = Store.groupMembers (db st).
Proof.
  intros H i. pose proof (DELETE_by_block id st) as Hb.
  destruct (deleteOwnTrip js w id st) as [[v1|r|e] s1] eqn:E.
  - rewrite Hb in H. injection H as <- <-.
    apply deleteOwnTrip_Normal in E.
    destruct E as (t & _ & _ & Hid & _ & _ & Hdb).
    rewrite Hdb, Hid. apply deleteTrip_tables.
  - destruct Hb as [Hb _]. rewrite Hb in H. discriminate H.
  - rewrite Hb in H. discriminate H.
Qed.

Lemma limit1_filter_unique (l : list Trip.t) (t t' : Trip.t) :
  NoDup (map Trip.id l) ->
  Store.limit1 (filter (fun x => Trip.id x =? Trip.id t) l) = [t] ->
  In t' l -> Trip.id t' = Trip.id t -> t' = t.
Proof.
  intros Hnd Hl Hin Hid.
  assert (Ht : In t l).
  { apply (firstn1_filter_In (fun x => Trip.id x =? Trip.id t) l t []).
    exact Hl. }
  exact (NoDup_map_eq Trip.id l t' t Hnd Hin Ht Hid).
Qed.

(** X21: nobody deletes the trip of another user: when trip ids are unique,
    a trip that is in the store before a delete request and not after it,
    whatever the request and whatever fails, belongs to the user of the
    session. *)
Theorem DELETE_only_by_owner (id : string) (st : HState) (t : Trip.t) :
  NoDup (map Trip.id (Store.trips (db st))) ->
  In t (Store.trips (db st)) ->
  ~ In t (Store.trips (db (snd (DELETE js w id st)))) ->
  getSession w = Ok (Some {| session_user := Some (Trip.userId t) |}).
Proof.
  intros Hnd Hin Hout.
  pose proof (DELETE_by_block id st) as Hb.
  pose proof (deleteOwnTrip_otherwise id st) as Ho.
  destruct (deleteOwnTrip js w id st) as [[v|r|e] s1] eqn:E; simpl in Ho.
  - rewrite Hb in Hout. simpl in Hout.
    apply deleteOwnTrip_Normal in E.
    destruct E as (t0 & _ & Hin0 & _ & Hs & Hl & Hdb).
    rewrite Hdb in Hout.
    destruct (Z.eq_dec (Trip.id t) (Trip.id t0)) as [Eid | Nid].
    + now rewrite (limit1_filter_unique _ t0 t Hnd Hl Hin Eid).
    + exfalso. apply Hout.
      apply (proj1 (deleteTrip_tables (Trip.id t0) (db st))). auto.
  - exfalso. destruct Hb as [Hb _]. rewrite Hb in Hout. simpl in Hout.
    destruct Ho as [[v Hv] | Ho]; [discriminate|]. now rewrite Ho in Hout.
  - exfalso. rewrite Hb in Hout. simpl in Hout.
    destruct Ho as [[v Hv] | Ho]; [discriminate|]. now rewrite Ho in Hout.
Qed.

End DeleteFacts.

Lemma DELETE_cascades_to_matches_witness :
  let run := TripRoute.DELETE Runtime.js (Scenario.worldAccept JNull) "5"
               (initial Scenario.store2) in
  fst run =
    Normal (Success 200 ("Trip deleted successfully", Some Scenario.newTrip))
  /\
  map Trip.id (Store.trips (db (snd run))) = [1; 2; 3; 4; 6] /\
  Store.tripMatches (db (snd run)) = [] /\
  (forall m, In m (Store.tripMatches (db (snd run))) <->
     In m (Store.tripMatches Scenario.store2) /\
     TripMatch.tripId m <> 5 /\ TripMatch.matchedTripId m <> 5).
Proof.
  intros run.
  assert (E : run =
              (Normal (Success 200
                 ("Trip deleted successfully", Some Scenario.newTrip)),
               snd run)) by (vm_compute; reflexivity).
  split; [now rewrite E|]. split; [vm_compute; reflexivity|].
  split; [vm_compute; reflexivity|].
  exact (proj1 (proj2 (DELETE_cascades_to_matches Runtime.js
                         (Scenario.worldAccept JNull) "5"
                         (initial Scenario.store2) (snd run) _ E))).
Defined.

Lemma DELETE_only_by_owner_witness :
  In Scenario.newTrip (Store.trips Scenario.store2) /\
  ~ In Scenario.newTrip
      (Store.trips
         (db (snd (TripRoute.DELETE Runtime.js (Scenario.worldAccept JNull)
                     "5" (initial Scenario.store2))))) /\
  getSession (Scenario.worldAccept JNull) =
    Ok (Some {| session_user := Some (Trip.userId Scenario.newTrip) |}).
Proof.
  assert (Hin : In Scenario.newTrip (Store.trips Scenario.store2))
    by (simpl; tauto).
  assert (Hout : ~ In Scenario.newTrip
                     (Store.trips
                        (db (snd (TripRoute.DELETE Runtime.js
                                    (Scenario.worldAccept JNull) "5"
                                    (initial Scenario.store2)))))).
  { vm_compute. intros H.
    repeat (destruct H as [H | H]; [discriminate H|]). exact H. }
  split; [exact Hin|]. split; [exact Hout|].
  apply (DELETE_only_by_owner Runtime.js (Scenario.worldAccept JNull) "5"
           (initial Scenario.store2) Scenario.newTrip); [|exact Hin|exact Hout].
  simpl. repeat (constructor; [simpl; intuition discriminate|]). constructor.
Defined.

(** ** Keys and references are kept by every handler that writes *)

Section StatementInvariants.

Lemma NoDup_map_snoc {A : Type} (f : A -> Z) (l : list A) (x : A) (bound : Z) :
  NoDup (map f l) -> (forall y, In y l -> f y <= bound) -> bound < f x ->
  NoDup (map f (l ++ [x])).
Proof.
  intros Hnd Hb Hx. rewrite map_app. apply NoDup_app; [exact Hnd| |].
  - simpl. constructor; [intros []|constructor].
  - intros a Ha [<- | []]. apply in_map_iff in Ha.
    destruct Ha as (y & Hy & Hin). specialize (Hb y Hin). lia.
Qed.

(** Filtering a table keeps its keys distinct. *)
Lemma filter_keeps_keys_distinct {Row Key : Type} (key : Row -> Key)
    (keep : Row -> bool) (rows : list Row) (Hkeys : NoDup (map key rows)) :
  NoDup (map key (filter keep rows)).
Proof.
  induction rows as [|row rows IH]; simpl in *; [constructor|].
  apply NoDup_cons_iff in Hkeys. destruct Hkeys as [Hfresh Hrest].
  destruct (keep row); simpl; [|now apply IH].
  apply NoDup_cons_iff. split; [|now apply IH].
  intros Hin. apply Hfresh. apply in_map_iff in Hin.
  destruct Hin as (other & Hkey & Hother). apply filter_In in Hother.
  apply in_map_iff. exists other. tauto.
Qed.

Lemma number_matches_ids (rows : list TripMatch.t) :
  forall from,
    NoDup (map TripMatch.id (Store.number_matches from rows)) /\
    forall r, In r (Store.number_matches from rows) ->
      from < TripMatch.id r <= from + Z.of_nat (List.length rows).
Proof.
  induction rows as [|r0 rows IH]; intros from; simpl.
  - split; [constructor|intros r []].
  - destruct (IH (from + 1)) as [Hnd Hb]. split.
    + constructor; [|exact Hnd]. intros Hin. apply in_map_iff in Hin.
      destruct Hin as (y & Hy & Hin). specialize (Hb y Hin). lia.
    + intros r [<- | Hin]; [simpl; lia|]. specialize (Hb r Hin). lia.
Qed.

Lemma insertTrip_consistent (v : Trip.t) (s : Store.t) :
  consistent s -> consistent (snd (Store.insertTrip v s)).
Proof.
  intros ((Nt & Nm & Ng & Nx) & (Kt & Km & Kg & Kx) & Hr).
  split; [|split].
  - split; [|repeat split; assumption]. simpl.
    apply (NoDup_map_snoc Trip.id _ _ (Store.seq_trips s)); auto.
    simpl. lia.
  - split; [|split; [|split]]; simpl; auto.
    + intros t Ht. apply in_app_or in Ht. destruct Ht as [Ht | [<- | []]].
      * specialize (Kt t Ht). lia.
      * simpl. lia.
    + intros m Hm. specialize (Km m Hm). lia.
  - intros m Hm. simpl in Hm. destruct (Hr m Hm) as ((t1 & H1 & E1) & (t2 & H2 & E2)).
    split; [exists t1|exists t2]; simpl; split; auto; apply in_or_app; auto.
Qed.

Lemma insertTripMatches_consistent (rows : list TripMatch.t) (s : Store.t) :
  consistent s ->
  (forall r, In r rows ->
     (exists t, In t (Store.trips s) /\ Trip.id t = TripMatch.tripId r) /\
     (exists t, In t (Store.trips s) /\
                Trip.id t = TripMatch.matchedTripId r)) ->
  consistent (snd (Store.insertTripMatches rows s)).
Proof.
  intros ((Nt & Nm & Ng & Nx) & (Kt & Km & Kg & Kx) & Hr) Hrows.
  destruct (number_matches_ids rows (Store.seq_tripMatches s)) as [Nn Bn].
  assert (Hnew : forall m,
            In m (Store.number_matches (Store.seq_tripMatches s) rows) ->
            (exists t, In t (Store.trips s) /\
                       Trip.id t = TripMatch.tripId m) /\
            (exists t, In t (Store.trips s) /\
                       Trip.id t = TripMatch.matchedTripId m)).
  { intros m Hm. apply in_number_matches in Hm.
    destruct Hm as (r0 & i & H0 & ->). exact (Hrows r0 H0). }
  split; [|split].
  - split; [assumption|]. split; [|split; assumption]. simpl.
    rewrite map_app. apply NoDup_app; [exact Nm|exact Nn|].
    intros a Ha Hb. apply in_map_iff in Ha, Hb.
    destruct Ha as (x & <- & Hx). destruct Hb as (y & Ey & Hy).
    specialize (Bn y Hy). destruct (Km x Hx) as (Hk & _). lia.
  - split; [|split; [|split]]; simpl; auto.
    intros m Hm. apply in_app_or in Hm. destruct Hm as [Hm | Hm].
    + destruct (Km m Hm) as (H1 & H2 & H3). lia.
    + specialize (Bn m Hm).
      destruct (Hnew m Hm) as ((t1 & H1 & E1) & (t2 & H2 & E2)).
      pose proof (Kt t1 H1). pose proof (Kt t2 H2). lia.
  - intros m Hm. simpl in Hm. apply in_app_or in Hm.
    destruct Hm as [Hm | Hm]; [exact (Hr m Hm)|exact (Hnew m Hm)].
Qed.

Lemma setMatchStatus_consistent (a b : Z) (x : string) (s : Store.t) :
  consistent s -> consistent (snd (Store.setMatchStatus a b x s)).
Proof.
  intros ((Nt & Nm & Ng & Nx) & (Kt & Km & Kg & Kx) & Hr).
  set (f := fun r : TripMatch.t =>
              if (TripMatch.tripId r =? a) && (TripMatch.matchedTripId r =? b)
              then TripMatch.with_status r x else r).
  assert (Hid : forall r, TripMatch.id (f r) = TripMatch.id r /\
                          TripMatch.tripId (f r) = TripMatch.tripId r /\
                          TripMatch.matchedTripId (f r) =
                            TripMatch.matchedTripId r).
  { intros r. unfold f. destruct (_ && _); auto. }
  split; [|split].
  - split; [assumption|]. split; [|split; assumption]. simpl. fold f.
    rewrite map_map.
    rewrite (map_ext _ TripMatch.id) by (intros r; apply Hid). exact Nm.
  - split; [|split; [|split]]; simpl; auto. fold f.
    intros m Hm. apply in_map_iff in Hm. destruct Hm as (r & <- & Hin).
    destruct (Hid r) as (-> & -> & ->). exact (Km r Hin).
  - intros m Hm. simpl in Hm. fold f in Hm. apply in_map_iff in Hm.
    destruct Hm as (r & <- & Hin).
    destruct (Hid r) as (_ & -> & ->). exact (Hr r Hin).
Qed.

Lemma insertGroup_consistent (v : Group.t) (s : Store.t) :
  consistent s -> consistent (snd (Store.insertGroup v s)).
Proof.
  intros ((Nt & Nm & Ng & Nx) & (Kt & Km & Kg & Kx) & Hr).
  split; [|split].
  - split; [assumption|]. split; [assumption|]. split; [|assumption].
    simpl. apply (NoDup_map_snoc Group.id _ _ (Store.seq_groups s)); auto.
    simpl. lia.
  - split; [|split; [|split]]; simpl; auto.
    intros g Hg. apply in_app_or in Hg. destruct Hg as [Hg | [<- | []]].
    + specialize (Kg g Hg). lia.
    + simpl. lia.
  - exact Hr.
Qed.

Lemma insertGroupMember_consistent (v : GroupMember.t) (s : Store.t) :
  consistent s -> consistent (snd (Store.insertGroupMember v s)).
Proof.
  intros ((Nt & Nm & Ng & Nx) & (Kt & Km & Kg & Kx) & Hr).
  split; [|split].
  - split; [assumption|]. split; [assumption|]. split; [assumption|].
    simpl.
    apply (NoDup_map_snoc GroupMember.id _ _ (Store.seq_groupMembers s));
      auto.
    simpl. lia.
  - split; [|split; [|split]]; simpl; auto.
    intros g Hg. apply in_app_or in Hg. destruct Hg as [Hg | [<- | []]].
    + specialize (Kx g Hg). lia.
    + simpl. lia.
  - exact Hr.
Qed.

Lemma deleteTrip_consistent (i : Z) (s : Store.t) :
  consistent s -> consistent (snd (Store.deleteTrip i s)).
Proof.
  intros ((Nt & Nm & Ng & Nx) & (Kt & Km & Kg & Kx) & Hr).
  destruct (deleteTrip_tables i s) as (Ht & Hm & Hg & _ & Hx).
  split; [|split].
  - split; [|split; [|split]].
    + simpl. now apply filter_keeps_keys_distinct.
    + simpl. now apply filter_keeps_keys_distinct.
    + now rewrite Hg.
    + now rewrite Hx.
  - split; [|split; [|split]].
    + intros t H. apply Ht in H. simpl. apply Kt. tauto.
    + intros m H. apply Hm in H. simpl. apply Km. tauto.
    + intros g H. simpl.
      assert (Hin : In (Group.id g) (map Group.id (Store.groups s))).
      { rewrite <- Hg. now apply in_map. }
      apply in_map_iff in Hin. destruct Hin as (g0 & <- & H0). now apply Kg.
    + intros m H. rewrite Hx in H. simpl. now apply Kx.
  - intros m H. apply Hm in H. destruct H as (H & N1 & N2).
    destruct (Hr m H) as ((t1 & H1 & E1) & (t2 & H2 & E2)).
    split; [exists t1|exists t2]; (split; [|assumption]); apply Ht;
      (split; [assumption|congruence]).
Qed.

End StatementInvariants.

Section HandlerInvariants.
Context (js : JSRuntime) (w : World).

Lemma matchingPass_db (c : TripsRoute.Created) (st : HState) :
  db (snd (TripsRoute.matchingPass js w c st)) = db st \/
  db (snd (TripsRoute.matchingPass js w c st)) =
    snd (Store.insertTripMatches (TripsRoute.insertsOf js w c st) (db st)).
Proof.
  unfold TripsRoute.matchingPass, TripsRoute.insertsOf,
    TripsRoute.candidatesOf, bind, dbCall, now, ret, Store.select.
  destruct (dbFault w (dbCalls st)); simpl; [tauto|].
  destruct (0 <? _); simpl; [|tauto].
  destruct (dbFault w (S (dbCalls st))); simpl; tauto.
Qed.

Lemma trips_POST_consistent (st : HState) :
  consistent (db st) -> consistent (db (snd (TripsRoute.POST js w st))).
Proof.
  intros Hc. pose proof (insertedTrip_outcome js w st) as H.
  destruct (TripsRoute.insertedTrip js w st) as [[c|r|e] st0] eqn:E.
  - destruct H as (_ & Hid & _ & _ & Hdb).
    destruct (POST_after_insertion js w st st0 c E) as (st2 & HP & D2 & _ & _).
    rewrite HP. simpl. rewrite D2.
    assert (C0 : consistent (db st0))
      by (rewrite Hdb; now apply insertTrip_consistent).
    assert (Hin : In (TripsRoute.createdTrip c) (Store.trips (db st0))).
    { rewrite Hdb. simpl. apply in_or_app. right. left.
      rewrite <- Hid. now destruct (TripsRoute.createdTrip c). }
    destruct (matchingPass_db c st0) as [-> | ->]; [exact C0|].
    apply insertTripMatches_consistent; [exact C0|].
    intros r Hr. unfold TripsRoute.insertsOf in Hr.
    rewrite buildMatchInserts_flat_map in Hr. apply in_flat_map in Hr.
    destruct Hr as (candidate & Hcand & Hr).
    unfold TripsRoute.candidatesOf in Hcand. apply filter_In in Hcand.
    destruct Hcand as [Hcand _].
    apply emitted_inversion in Hr. cbv zeta in Hr.
    destruct Hr as (_ & _ & _ & _ & [Hp | Hp]); unfold Spec.pairOf in Hp;
      injection Hp as -> ->; split; eauto.
  - rewrite (POST_of_Return js w _ _ _ E). simpl.
    destruct H as [-> _]. exact Hc.
  - rewrite (POST_of_Throw js w _ _ _ E). simpl.
    destruct H as [-> _]. exact Hc.
Qed.

Lemma accept_POST_consistent (st : HState) :
  consistent (db st) -> consistent (db (snd (AcceptRoute.POST js w st))).
Proof.
  apply (accept_POST_stable_accepted js w
           (fun s s' => consistent s -> consistent s')); auto.
  - intros a b s. apply setMatchStatus_consistent.
  - intros v s. apply insertGroup_consistent.
  - intros v s. apply insertGroupMember_consistent.
Qed.

Lemma DELETE_consistent (id : string) (st : HState) :
  consistent (db st) -> consistent (db (snd (TripRoute.DELETE js w id st))).
Proof.
  intros Hc. pose proof (DELETE_by_block js w id st) as Hb.
  pose proof (deleteOwnTrip_otherwise js w id st) as Ho.
  destruct (TripRoute.deleteOwnTrip js w id st) as [[v|r|e] s1] eqn:E;
    simpl in Ho.
  - rewrite Hb. simpl. apply deleteOwnTrip_Normal in E.
    destruct E as (t & _ & _ & _ & _ & _ & ->).
    now apply deleteTrip_consistent.
  - destruct Hb as [-> _]. simpl.
    destruct Ho as [[v Hv] | ->]; [discriminate|exact Hc].
  - rewrite Hb. simpl.
    destruct Ho as [[v Hv] | ->]; [discriminate|exact Hc].
Qed.

(** X22: the handlers that write keep the store consistent, whatever the
    request and whatever fails: if ids are unique in every table and at
    most the counters, and every match record refers to two trips of the
    store, the same holds after a trip creation, after an acceptance, and
    after a deletion. *)
Theorem handlers_keep_keys_and_references (st : HState) :
  consistent (db st) ->
  consistent (db (snd (TripsRoute.POST js w st))) /\
  consistent (db (snd (AcceptRoute.POST js w st))) /\
  (forall id, consistent (db (snd (TripRoute.DELETE js w id st)))).
Proof.
  intros Hc. split; [|split].
  - now apply trips_POST_consistent.
  - now apply accept_POST_consistent.
  - intros id. now apply DELETE_consistent.
Qed.

End HandlerInvariants.

(** The store of the scenario is consistent. *)
Lemma store2_consistent : consistent Scenario.store2.
Proof.
  split; [|split].
  - split; [|split; [|split]]; simpl;
      repeat (constructor; [simpl; intuition discriminate|]); constructor.
  - split; [|split; [|split]]; intros x H; simpl in H;
      repeat (destruct H as [<- | H];
              [vm_compute; repeat split; discriminate|]);
      destruct H.
  - intros m H. simpl in H.
    repeat (destruct H as [<- | H];
            [split;
             first [ exists Scenario.tripBob;
                     split; [simpl; tauto|reflexivity]
                   | exists Scenario.newTrip;
                     split; [simpl; tauto|reflexivity]
                   | exists Scenario.tripErin;
                     split; [simpl; tauto|reflexivity] ]|]);
      destruct H.
Qed.

Lemma handlers_keep_keys_and_references_witness :
  consistent Scenario.store2 /\ consistent Scenario.store3.
Proof.
  split; [exact store2_consistent|].
  destruct (handlers_keep_keys_and_references Runtime.js
              (Scenario.worldAccept (JNum 1)) (initial Scenario.store2)
              store2_consistent)
    as (_ & H & _).
  assert (E : Scenario.store3 =
              db (snd (AcceptRoute.POST Runtime.js
                         (Scenario.worldAccept (JNum 1))
                         (initial Scenario.store2))))
    by (vm_compute; reflexivity).
  rewrite E. exact H.
Defined.

(** ** Acceptance, creation and deletion give no trip a second group *)

Section GroupInvariant.
Context (js : JSRuntime) (w : World).

Lemma groupTrips_app (s : Store.t) (g : Group.t) (i : Z) :
  Group.tripId g = Some i ->
  flat_map (fun g => match Group.tripId g with
                     | Some i => [i]
                     | None => []
                     end) (Store.groups s ++ [g]) =
  (groupTrips s ++ [i])%list.
Proof.
  intros H. unfold groupTrips. rewrite flat_map_app. simpl.
  now rewrite H.
Qed.

(** A trip without a group among those the provisioning looks for. *)
Lemma no_group_of_trip (s : Store.t) (a b : Z) :
  filter (AcceptRoute.groupOfTrip a b) (Store.groups s) = [] ->
  ~ In a (groupTrips s).
Proof.
  intros Hnone Hin. unfold groupTrips in Hin. apply in_flat_map in Hin.
  destruct Hin as (g & Hg & Hi).
  assert (Hf : In g (filter (AcceptRoute.groupOfTrip a b) (Store.groups s))).
  { apply filter_In. split; [exact Hg|]. unfold AcceptRoute.groupOfTrip.
    destruct (Group.tripId g) as [j|]; [|destruct Hi].
    destruct Hi as [<- | []]. now rewrite Z.eqb_refl. }
  rewrite Hnone in Hf. destruct Hf.
Qed.

(** The second half of an acceptance leaves the groups alone or adds one,
    for the subject trip, which had none. *)
Lemma provisionGroup_groups (a : AcceptRoute.Accepted) (st : HState) :
  let s' := db (snd (AcceptRoute.provisionGroup w a st)) in
  Store.groups s' = Store.groups (db st) \/
  exists g,
    Store.groups s' = (Store.groups (db st) ++ [g])%list /\
    Group.tripId g = Some (AcceptRoute.tripId a) /\
    filter (AcceptRoute.groupOfTrip (AcceptRoute.tripId a)
              (AcceptRoute.matchedTripId a)) (Store.groups (db st)) = [].
Proof.
  unfold AcceptRoute.provisionGroup, bind, dbCall, now, Store.select,
    return_, lift.
  destruct (dbFault w (dbCalls st)); [now left|]. simpl.
  destruct (Store.limit1 (filter _ (Store.groups (db st)))) as [|g gs] eqn:Eg.
  - apply limit1_nil_inv in Eg. simpl.
    destruct (dbFault w _); [now left|]. simpl.
    right.
    match goal with
    | |- context [(Store.groups (db st) ++ [?g])%list] => exists g
    end.
    split; [|split; [reflexivity|exact Eg]].
    repeat (destruct (dbFault w _); simpl; try reflexivity).
  - simpl. left.
    destruct (dbFault w _); [reflexivity|]. simpl.
    destruct (Store.limit1 (filter _ (Store.groupMembers (db st))));
      simpl; repeat (destruct (dbFault w _); simpl; try reflexivity).
Qed.

Lemma accepted_keeps_groups :
  stable (fun s s' => Store.groups s' = Store.groups s)
    (AcceptRoute.accepted js w).
Proof.
  assert (Hrefl : forall s : Store.t, Store.groups s = Store.groups s)
    by reflexivity.
  assert (Htrans : forall s1 s2 s3 : Store.t,
            Store.groups s2 = Store.groups s1 ->
            Store.groups s3 = Store.groups s2 ->
            Store.groups s3 = Store.groups s1) by congruence.
  unfold AcceptRoute.accepted, AcceptRoute.resolveMatch,
    AcceptRoute.acceptBothDirections, AcceptRoute.findMatchedUser.
  repeat (stable_step || (apply stable_dbCall; auto)).
Qed.

Lemma accept_POST_oneGroupPerTrip (st : HState) :
  oneGroupPerTrip (db st) ->
  oneGroupPerTrip (db (snd (AcceptRoute.POST js w st))).
Proof.
  intros Hone. pose proof (accepted_keeps_groups st) as Hg.
  unfold AcceptRoute.POST, call, tryCatch, bind, return_.
  destruct (AcceptRoute.accepted js w st) as [[a|r|e] s1]; simpl in Hg.
  - pose proof (provisionGroup_groups a s1) as Hp. cbv zeta in Hp.
    assert (H1 : oneGroupPerTrip
                   (db (snd (AcceptRoute.provisionGroup w a s1)))).
    { unfold oneGroupPerTrip in *.
      destruct Hp as [Hp | (g & Hp & Ht & Hnone)]; unfold groupTrips.
      - rewrite Hp, Hg. exact Hone.
      - rewrite Hp, (groupTrips_app _ _ _ Ht).
        apply NoDup_app; [| repeat constructor; intros [] |].
        + unfold groupTrips. rewrite Hg. exact Hone.
        + intros i Hi [<- | []].
          exact (no_group_of_trip _ _ _ Hnone Hi). }
    destruct (AcceptRoute.provisionGroup w a s1) as [[r|r|e] s2]; exact H1.
  - simpl. unfold oneGroupPerTrip, groupTrips. rewrite Hg. exact Hone.
  - simpl. unfold oneGroupPerTrip, groupTrips. rewrite Hg. exact Hone.
Qed.

Lemma matchingPass_keeps_groups (c : TripsRoute.Created) :
  stable (fun s s' => Store.groups s' = Store.groups s)
    (TripsRoute.matchingPass js w c).
Proof.
  intros st. now destruct (matchingPass_store js w c st) as (_ & H & _).
Qed.

Lemma trips_POST_keeps_groups (st : HState) :
  Store.groups (db (snd (TripsRoute.POST js w st))) = Store.groups (db st).
Proof.
  apply (trips_POST_stable js w
           (fun s s' => Store.groups s' = Store.groups s)).
  - reflexivity.
  - congruence.
  - reflexivity.
  - apply matchingPass_keeps_groups.
Qed.

Lemma deleteTrip_groupTrips (i : Z) (s : Store.t) :
  groupTrips (snd (Store.deleteTrip i s)) =
  filter (fun j => negb (j =? i)) (groupTrips s).
Proof.
  unfold groupTrips. simpl.
  induction (Store.groups s) as [|g gs IH]; simpl; [reflexivity|].
  rewrite filter_app, IH. f_equal.
  destruct (Group.tripId g) as [j|] eqn:Ej; simpl; [|now rewrite Ej].
  destruct (j =? i) eqn:E; simpl; [reflexivity|]. now rewrite Ej.
Qed.

Lemma DELETE_oneGroupPerTrip (id : string) (st : HState) :
  oneGroupPerTrip (db st) ->
  oneGroupPerTrip (db (snd (TripRoute.DELETE js w id st))).
Proof.
  intros Hone. pose proof (DELETE_by_block js w id st) as Hb.
  pose proof (deleteOwnTrip_otherwise js w id st) as Ho.
  destruct (TripRoute.deleteOwnTrip js w id st) as [[v|r|e] s1] eqn:E;
    simpl in Ho.
  - rewrite Hb. simpl. apply deleteOwnTrip_Normal in E.
    destruct E as (t & _ & _ & _ & _ & _ & ->).
    unfold oneGroupPerTrip. rewrite deleteTrip_groupTrips.
    now apply NoDup_filter.
  - destruct Hb as [-> _]. simpl.
    destruct Ho as [[v Hv] | ->]; [discriminate|exact Hone].
  - rewrite Hb. simpl.
    destruct Ho as [[v Hv] | ->]; [discriminate|exact Hone].
Qed.

(** X23: the accept handler, trip creation and the deletion of a trip give no
    trip a second group: if no two groups of the store belong to the same
    trip, then, whatever the request and whatever fails, the same holds
    after an acceptance (which creates a group only for a trip that has
    none), after a trip creation and after a deletion.  This is a property
    of these three handlers, not of the store: the schema has no unique
    index on the trip of a group, and a handler that inserts a group for
    the trip id it is sent is not bound by it. *)
Theorem handlers_keep_one_group_per_trip (st : HState) :
  oneGroupPerTrip (db st) ->
  oneGroupPerTrip (db (snd (AcceptRoute.POST js w st))) /\
  oneGroupPerTrip (db (snd (TripsRoute.POST js w st))) /\
  (forall id, oneGroupPerTrip (db (snd (TripRoute.DELETE js w id st)))).
Proof.
  intros Hone. split; [|split].
  - now apply accept_POST_oneGroupPerTrip.
  - unfold oneGroupPerTrip, groupTrips. now rewrite trips_POST_keeps_groups.
  - intros id. now apply DELETE_oneGroupPerTrip.
Qed.

End GroupInvariant.

Lemma handlers_keep_one_group_per_trip_witness :
  oneGroupPerTrip Scenario.store3 /\
  groupTrips Scenario.store3 = [5] /\
  oneGroupPerTrip
    (db (snd (AcceptRoute.POST Runtime.js (Scenario.worldAccept (JStr "3"))
                (initial Scenario.store3)))).
Proof.
  assert (H : oneGroupPerTrip Scenario.store3).
  { unfold oneGroupPerTrip. vm_compute.
    constructor; [intros []|constructor]. }
  split; [exact H|]. split; [reflexivity|].
  exact (proj1 (handlers_keep_one_group_per_trip Runtime.js
                  (Scenario.worldAccept (JStr "3"))
                  (initial Scenario.store3) H)).
Defined.

(** ** Nobody is made a member of the same group twice *)

Section MembershipInvariant.
Context (js : JSRuntime) (w : World).
Import AcceptRoute.

(** What the second half of an acceptance does to the groups and the
    memberships, however far it gets. *)
Lemma provisionGroup_effect (a : Accepted) (st : HState) :
  let s := db st in
  let s' := db (snd (provisionGroup w a st)) in
  Store.trips s' = Store.trips s /\
  Store.tripMatches s' = Store.tripMatches s /\
  ((Store.seq_groups s' = Store.seq_groups s /\
    (memberships s' = memberships s \/
     exists g,
       In g (Store.groups s) /\
       ~ In (Group.id g, userId a) (memberships s) /\
       memberships s' = (memberships s ++ [(Group.id g, userId a)])%list))
   \/
   (Store.seq_groups s' = Store.seq_groups s + 1 /\
    exists added,
      memberships s' = (memberships s ++ added)%list /\
      (added = [] \/
       added = [(Store.seq_groups s + 1, userId a)] \/
       added = [(Store.seq_groups s + 1, userId a);
                (Store.seq_groups s + 1, matchedUserId a)]))).
Proof.
  cbv zeta.
  unfold provisionGroup, bind, dbCall, now, Store.select, return_, lift,
    memberships.
  destruct (dbFault w (dbCalls st)); [simpl; auto 10|]. simpl.
  destruct (Store.limit1 (filter _ (Store.groups (db st)))) as [|g gs] eqn:Eg.
  - simpl.
    destruct (dbFault w _); [simpl; auto 10|]. simpl.
    destruct (dbFault w _);
      [simpl; split; [reflexivity|]; split; [reflexivity|]; right;
       split; [reflexivity|]; exists []; rewrite app_nil_r; auto|].
    simpl.
    destruct (dbFault w _);
      [simpl; split; [reflexivity|]; split; [reflexivity|]; right;
       split; [reflexivity|]; eexists; rewrite map_app; simpl;
       split; [reflexivity|]; auto|].
    simpl.
    destruct (dbFault w _); simpl; split; try reflexivity;
      split; try reflexivity; right; (split; [reflexivity|]);
      eexists; rewrite !map_app, <- app_assoc; simpl;
      (split; [reflexivity|]); auto.
  - apply firstn1_filter_In in Eg. destruct Eg as [Hg _]. simpl.
    destruct (dbFault w _); [simpl; auto 10|]. simpl.
    destruct (Store.limit1 (filter _ (Store.groupMembers (db st))))
      as [|x xs] eqn:Em; simpl.
    + apply limit1_nil_inv in Em.
      assert (Hnot : ~ In (Group.id g, userId a)
                        (map (fun m => (GroupMember.groupId m,
                                        GroupMember.userId m))
                           (Store.groupMembers (db st)))).
      { intros Hin. apply in_map_iff in Hin.
        destruct Hin as (m & Hm & Hin). injection Hm as Hm1 Hm2.
        assert (Hf : In m (filter
                     (fun m => (GroupMember.groupId m =? Group.id g)
                               && String.eqb (GroupMember.userId m) (userId a))
                     (Store.groupMembers (db st)))).
        { apply filter_In. split; [exact Hin|].
          now rewrite Hm1, Hm2, Z.eqb_refl, String.eqb_refl. }
        rewrite Em in Hf. destruct Hf. }
      destruct (dbFault w _); [simpl; auto 10|]. simpl.
      destruct (dbFault w _); simpl; split; try reflexivity;
        split; try reflexivity; left; (split; [reflexivity|]); right;
        exists g; rewrite map_app; simpl; auto.
    + destruct (dbFault w _); simpl; auto 10.
Qed.

Lemma accepted_keeps_memberships :
  stable (fun s s' =>
            Store.trips s' = Store.trips s /\
            Store.groups s' = Store.groups s /\
            Store.groupMembers s' = Store.groupMembers s /\
            Store.seq_groups s' = Store.seq_groups s)
    (accepted js w).
Proof.
  assert (Hrefl : forall s : Store.t,
            Store.trips s = Store.trips s /\
            Store.groups s = Store.groups s /\
            Store.groupMembers s = Store.groupMembers s /\
            Store.seq_groups s = Store.seq_groups s) by (intros; auto).
  assert (Htrans : forall s1 s2 s3 : Store.t,
            Store.trips s2 = Store.trips s1 /\
            Store.groups s2 = Store.groups s1 /\
            Store.groupMembers s2 = Store.groupMembers s1 /\
            Store.seq_groups s2 = Store.seq_groups s1 ->
            Store.trips s3 = Store.trips s2 /\
            Store.groups s3 = Store.groups s2 /\
            Store.groupMembers s3 = Store.groupMembers s2 /\
            Store.seq_groups s3 = Store.seq_groups s2 ->
            Store.trips s3 = Store.trips s1 /\
            Store.groups s3 = Store.groups s1 /\
            Store.groupMembers s3 = Store.groupMembers s1 /\
            Store.seq_groups s3 = Store.seq_groups s1)
    by (intros s1 s2 s3 (A1 & A2 & A3 & A4) (B1 & B2 & B3 & B4);
        repeat split; congruence).
  unfold accepted, resolveMatch, acceptBothDirections, findMatchedUser.
  repeat (stable_step || (apply stable_dbCall; auto)).
Qed.

(** Acceptance leaves the trips and the pairs of the match records as
    they are. *)
Lemma accept_POST_keeps_pairs (st : HState) :
  Store.trips (db (snd (POST js w st))) = Store.trips (db st) /\
  map Spec.pairOf (Store.tripMatches (db (snd (POST js w st)))) =
    map Spec.pairOf (Store.tripMatches (db st)).
Proof.
  apply (accept_POST_stable_accepted js w
           (fun s s' =>
              Store.trips s' = Store.trips s /\
              map Spec.pairOf (Store.tripMatches s') =
                map Spec.pairOf (Store.tripMatches s))).
  - intros s. split; reflexivity.
  - intros s1 s2 s3 [A1 A2] [B1 B2]. split; congruence.
  - intros a b s. split; [reflexivity|]. simpl. rewrite map_map.
    apply map_ext. intros r. now destruct (_ && _).
  - intros v s. split; reflexivity.
  - intros v s. split; reflexivity.
Qed.

Lemma accept_POST_membershipsSound (st : HState) :
  membershipsSound (db st) ->
  membershipsSound (db (snd (POST js w st))).
Proof.
  intros (Hc & Hrefer & Hbetween & Hnd).
  pose proof (accept_POST_consistent js w st Hc) as Hc'.
  destruct (accept_POST_keeps_pairs st) as [Ht Hpairs].
  split; [exact Hc'|].
  assert (Hb' : matchesBetweenUsers (db (snd (POST js w st)))).
  { intros m' t1 t2 Hm' H1 H2 E1 E2. rewrite Ht in H1, H2.
    assert (Hp : In (Spec.pairOf m')
                   (map Spec.pairOf (Store.tripMatches (db st))))
      by (rewrite <- Hpairs; now apply in_map).
    apply in_map_iff in Hp. destruct Hp as (m & Hp & Hm).
    unfold Spec.pairOf in Hp. injection Hp as T1 T2.
    apply (Hbetween m t1 t2); congruence. }
  cut (membersReferToGroups (db (snd (POST js w st))) /\
       noDoubleMembership (db (snd (POST js w st)))); [tauto|].
  clear Hb' Ht Hpairs Hc'.
  pose proof (accepted_keeps_memberships st) as Hk. cbv beta in Hk.
  unfold POST, call, tryCatch, bind, return_.
  destruct (accepted js w st) as [[a|r|e] s1] eqn:Ea; simpl in Hk;
    destruct Hk as (Kt & Kg & Km & Ks).
  - assert (Hdiff : userId a <> matchedUserId a).
    { apply accepted_Normal in Ea.
      destruct Ea as ((Hin1 & Hid1 & Hu1) & (t2 & Hin2 & Hid2 & Hu2) &
                      (m & Hm & Hp) & _).
      unfold Spec.pairOf in Hp. injection Hp as Hp1 Hp2.
      rewrite <- Hu1, <- Hu2.
      apply (Hbetween m (trip a) t2); congruence. }
    pose proof (provisionGroup_effect a s1) as He. cbv zeta in He.
    assert (Hfin : membersReferToGroups
                     (db (snd (provisionGroup w a s1))) /\
                   noDoubleMembership
                     (db (snd (provisionGroup w a s1)))).
    { destruct He as (_ & _ & He).
      assert (Hrefer1 : forall p, In p (memberships (db s1)) ->
                                  fst p <= Store.seq_groups (db s1)).
      { intros p Hp. unfold memberships in Hp. rewrite Km in Hp.
        apply in_map_iff in Hp. destruct Hp as (m & <- & Hm). simpl.
        rewrite Ks. now apply Hrefer. }
      assert (Hnd1 : NoDup (memberships (db s1)))
        by (unfold memberships; rewrite Km; exact Hnd).
      assert (Hto : forall s', (forall p, In p (memberships s') ->
                                  fst p <= Store.seq_groups s') ->
                               membersReferToGroups s').
      { intros s' H m Hm. apply (H (GroupMember.groupId m,
                                    GroupMember.userId m)).
        unfold memberships. apply in_map_iff. eauto. }
      destruct He as [(Hs & [Hm | (g & Hg & Hnot & Hm)])
                     | (Hs & added & Hm & Hadd)].
      - split; [apply Hto; rewrite Hm, Hs; exact Hrefer1|].
        unfold noDoubleMembership. now rewrite Hm.
      - split.
        + apply Hto. rewrite Hm, Hs. intros p Hp.
          apply in_app_or in Hp. destruct Hp as [Hp | [<- | []]];
            [now apply Hrefer1|]. simpl.
          destruct Hc as (_ & (_ & _ & Kgr & _) & _).
          rewrite Kg in Hg. rewrite Ks. now apply Kgr.
        + unfold noDoubleMembership. rewrite Hm.
          apply NoDup_app; [exact Hnd1|repeat constructor; intros []|].
          intros p Hp [<- | []]. exact (Hnot Hp).
      - split.
        + apply Hto. rewrite Hm, Hs. intros p Hp.
          apply in_app_or in Hp. destruct Hp as [Hp | Hp].
          * specialize (Hrefer1 p Hp). lia.
          * destruct Hadd as [-> | [-> | ->]]; simpl in Hp;
              repeat (destruct Hp as [<- | Hp]; [simpl; lia|]);
              destruct Hp.
        + unfold noDoubleMembership. rewrite Hm.
          apply NoDup_app; [exact Hnd1| |].
          * destruct Hadd as [-> | [-> | ->]];
              repeat constructor; simpl; try tauto.
            intros [H | []]. injection H as H. now apply Hdiff.
          * intros p Hp Hq. specialize (Hrefer1 p Hp).
            destruct Hadd as [-> | [-> | ->]]; simpl in Hq;
              repeat (destruct Hq as [<- | Hq]; [simpl in Hrefer1; lia|]);
              destruct Hq. }
    destruct (provisionGroup w a s1) as [[r|r|e] s2]; exact Hfin.
  - simpl. split.
    + intros m Hm. rewrite Km in Hm. rewrite Ks. now apply Hrefer.
    + unfold noDoubleMembership, memberships. rewrite Km. exact Hnd.
  - simpl. split.
    + intros m Hm. rewrite Km in Hm. rewrite Ks. now apply Hrefer.
    + unfold noDoubleMembership, memberships. rewrite Km. exact Hnd.
Qed.

Lemma insertedTrip_session_user (st st0 : HState)
    (c : TripsRoute.Created) :
  TripsRoute.insertedTrip js w st = (Normal c, st0) ->
  TripsRoute.sessionUserId c = Trip.userId (TripsRoute.createdTrip c).
Proof.
  intros E. unfold TripsRoute.insertedTrip, bind in E.
  destruct (TripsRoute.authenticate js w st) as [[[u b]|r|e] s1];
    try discriminate E.
  simpl in E.
  destruct (TripsRoute.sanitize js b s1) as [[sd|r|e] s2];
    try discriminate E.
  apply createTrip_Normal in E.
  destruct E as (_ & _ & _ & _ & _ & E1 & E2 & _). congruence.
Qed.

Lemma insertTrip_matchesBetweenUsers (v : Trip.t) (s : Store.t) :
  keysWithinCounters s -> matchesBetweenUsers s ->
  matchesBetweenUsers (snd (Store.insertTrip v s)).
Proof.
  intros (_ & Km & _) Hb m t1 t2 Hm H1 H2 E1 E2. simpl in *.
  destruct (Km m Hm) as (_ & B1 & B2).
  apply in_app_or in H1, H2.
  destruct H1 as [H1 | [<- | []]]; [|simpl in E1; lia].
  destruct H2 as [H2 | [<- | []]]; [|simpl in E2; lia].
  now apply (Hb m t1 t2).
Qed.

(** The records of the matching pass relate the new trip to trips of other
    users. *)
Lemma matchingPass_matchesBetweenUsers (c : TripsRoute.Created)
    (st : HState) :
  consistent (db st) -> matchesBetweenUsers (db st) ->
  In (TripsRoute.createdTrip c) (Store.trips (db st)) ->
  TripsRoute.sessionUserId c = Trip.userId (TripsRoute.createdTrip c) ->
  matchesBetweenUsers (db (snd (TripsRoute.matchingPass js w c st))).
Proof.
  intros ((Nt & _) & _) Hb Hnew Hu.
  destruct (matchingPass_db js w c st) as [-> | ->]; [exact Hb|].
  intros m t1 t2 Hm H1 H2 E1 E2. simpl in Hm, H1, H2.
  apply in_app_or in Hm. destruct Hm as [Hm | Hm];
    [now apply (Hb m t1 t2)|].
  apply in_number_matches in Hm. destruct Hm as (r0 & i & Hr & ->).
  simpl in E1, E2.
  unfold TripsRoute.insertsOf in Hr.
  rewrite buildMatchInserts_flat_map in Hr. apply in_flat_map in Hr.
  destruct Hr as (cand & Hcand & Hr).
  unfold TripsRoute.candidatesOf in Hcand. apply filter_In in Hcand.
  destruct Hcand as [Hcin Hp]. unfold TripsRoute.isPotentialMatch in Hp.
  apply andb_true_iff in Hp. destruct Hp as [_ Hp].
  apply negb_true_iff, String.eqb_neq in Hp. rewrite Hu in Hp.
  apply emitted_inversion in Hr. cbv zeta in Hr.
  destruct Hr as (_ & _ & _ & _ & [Hpair | Hpair]);
    unfold Spec.pairOf in Hpair; injection Hpair as P1 P2.
  - rewrite (NoDup_map_eq Trip.id _ t1 (TripsRoute.createdTrip c) Nt H1 Hnew)
      by congruence.
    rewrite (NoDup_map_eq Trip.id _ t2 cand Nt H2 Hcin) by congruence.
    congruence.
  - rewrite (NoDup_map_eq Trip.id _ t2 (TripsRoute.createdTrip c) Nt H2 Hnew)
      by congruence.
    rewrite (NoDup_map_eq Trip.id _ t1 cand Nt H1 Hcin) by congruence.
    exact Hp.
Qed.

Lemma trips_POST_keeps_members (st : HState) :
  Store.groupMembers (db (snd (TripsRoute.POST js w st))) =
    Store.groupMembers (db st) /\
  Store.seq_groups (db (snd (TripsRoute.POST js w st))) =
    Store.seq_groups (db st).
Proof.
  apply (trips_POST_stable js w
           (fun s s' => Store.groupMembers s' = Store.groupMembers s /\
                        Store.seq_groups s' = Store.seq_groups s)).
  - intros s. split; reflexivity.
  - intros s1 s2 s3 [A1 A2] [B1 B2]. split; congruence.
  - intros v s. split; reflexivity.
  - intros c st0. destruct (matchingPass_db js w c st0) as [-> | ->];
      split; reflexivity.
Qed.

Lemma trips_POST_membershipsSound (st : HState) :
  membershipsSound (db st) ->
  membershipsSound (db (snd (TripsRoute.POST js w st))).
Proof.
  intros (Hc & Hrefer & Hbetween & Hnd).
  destruct (trips_POST_keeps_members st) as [Km Ks].
  split; [now apply trips_POST_consistent|]. split; [|split].
  - intros m Hm. rewrite Km in Hm. rewrite Ks. now apply Hrefer.
  - pose proof (insertedTrip_outcome js w st) as H.
    destruct (TripsRoute.insertedTrip js w st) as [[c|r|e] st0] eqn:E.
    + destruct H as (_ & Hid & _ & _ & Hdb).
      destruct (POST_after_insertion js w st st0 c E)
        as (st2 & HP & D2 & _ & _).
      rewrite HP. simpl. rewrite D2.
      apply matchingPass_matchesBetweenUsers.
      * rewrite Hdb. now apply insertTrip_consistent.
      * rewrite Hdb. apply insertTrip_matchesBetweenUsers; [|exact Hbetween].
        now destruct Hc as (_ & K & _).
      * rewrite Hdb. simpl. apply in_or_app. right. left.
        rewrite <- Hid. now destruct (TripsRoute.createdTrip c).
      * exact (insertedTrip_session_user st st0 c E).
    + rewrite (POST_of_Return js w _ _ _ E). simpl.
      destruct H as [-> _]. exact Hbetween.
    + rewrite (POST_of_Throw js w _ _ _ E). simpl.
      destruct H as [-> _]. exact Hbetween.
  - unfold noDoubleMembership, memberships. rewrite Km. exact Hnd.
Qed.

Lemma deleteTrip_membershipsSound (i : Z) (s : Store.t) :
  membershipsSound s -> membershipsSound (snd (Store.deleteTrip i s)).
Proof.
  intros (Hc & Hrefer & Hbetween & Hnd).
  destruct (deleteTrip_tables i s) as (Ht & Hm & _ & _ & Hx).
  split; [now apply deleteTrip_consistent|]. split; [|split].
  - intros m H. rewrite Hx in H. simpl. now apply Hrefer.
  - intros m t1 t2 H0 H1 H2 E1 E2.
    apply Hm in H0. apply Ht in H1, H2.
    apply (Hbetween m t1 t2); tauto.
  - unfold noDoubleMembership, memberships. rewrite Hx. exact Hnd.
Qed.

Lemma DELETE_membershipsSound (id : string) (st : HState) :
  membershipsSound (db st) ->
  membershipsSound (db (snd (TripRoute.DELETE js w id st))).
Proof.
  intros Hs. pose proof (DELETE_by_block js w id st) as Hb.
  pose proof (deleteOwnTrip_otherwise js w id st) as Ho.
  destruct (TripRoute.deleteOwnTrip js w id st) as [[v|r|e] s1] eqn:E;
    simpl in Ho.
  - rewrite Hb. simpl. apply deleteOwnTrip_Normal in E.
    destruct E as (t & _ & _ & _ & _ & _ & ->).
    now apply deleteTrip_membershipsSound.
  - destruct Hb as [-> _]. simpl.
    destruct Ho as [[v Hv] | ->]; [discriminate|exact Hs].
  - rewrite Hb. simpl.
    destruct Ho as [[v Hv] | ->]; [discriminate|exact Hs].
Qed.

(** X24: nobody is made a member of the same group twice.  Suppose the store
    is consistent, every membership has the id of a group that exists or
    existed, every match record relates trips of two different users, and
    no user is twice in one group.  Then, whatever the request and whatever
    fails, all of this holds again after an acceptance, after a trip
    creation and after a deletion. *)
Theorem handlers_keep_memberships_sound (st : HState) :
  membershipsSound (db st) ->
  membershipsSound (db (snd (POST js w st))) /\
  membershipsSound (db (snd (TripsRoute.POST js w st))) /\
  (forall id, membershipsSound (db (snd (TripRoute.DELETE js w id st)))).
Proof.
  intros Hs. split; [|split].
  - now apply accept_POST_membershipsSound.
  - now apply trips_POST_membershipsSound.
  - intros id. now apply DELETE_membershipsSound.
Qed.

End MembershipInvariant.

Lemma handlers_keep_memberships_sound_witness :
  membershipsSound Scenario.store2 /\
  memberships Scenario.store3 = [(1, "dave"); (1, "bob")] /\
  membershipsSound Scenario.store3.
Proof.
  assert (S2 : membershipsSound Scenario.store2).
  { split; [exact store2_consistent|]. split; [|split].
    - intros m [].
    - intros m t1 t2 Hm H1 H2 E1 E2. simpl in Hm, H1, H2.
      repeat (destruct Hm as [<- | Hm]; [|]); try (now destruct Hm);
        repeat (destruct H1 as [<- | H1]; [|]); try (now destruct H1);
        try discriminate E1;
        repeat (destruct H2 as [<- | H2]; [|]); try (now destruct H2);
        try discriminate E2; vm_compute; discriminate.
    - constructor. }
  split; [exact S2|]. split; [reflexivity|].
  destruct (handlers_keep_memberships_sound Runtime.js
              (Scenario.worldAccept (JNum 1)) (initial Scenario.store2) S2)
    as (H & _).
  assert (E : Scenario.store3 =
              db (snd (AcceptRoute.POST Runtime.js
                         (Scenario.worldAccept (JNum 1))
                         (initial Scenario.store2))))
    by (vm_compute; reflexivity).
  rewrite E. exact H.
Defined.

(** ** Route cost and the route handler *)

Section CostFacts.
Import RouteRoute.
Local Open Scope float_scope.

(** X25: whatever the mode, the cost is the distance times a rate that is
    0.5, 0.15, 0.25, 0.8 or the fallback 0.3, or not a number (for a mode
    that names an inherited property); the rate is never zero, so that no
    mode is free of charge. *)
Theorem estimateCost_rate_is_never_zero (distanceKm : float) (mode : string) :
  exists rate,
    estimateCost distanceKm mode = distanceKm * rate /\
    (rate =? 0) = false /\
    (In rate [0.5; 0.15; 0.25; 0.8; 0.3] \/ is_nan rate = true) /\
    (costPerKm mode = Missing -> rate = 0.3).
Proof.
  unfold estimateCost, costPerKm.
  repeat match goal with
         | |- context [String.eqb mode ?s] => destruct (String.eqb mode s)
         end;
    try (eexists; split; [reflexivity|]; split; [reflexivity|];
         split; [simpl; tauto|discriminate]).
  destruct (existsb _ _).
  - exists nan. split; [reflexivity|]. split; [reflexivity|].
    split; [now right|discriminate].
  - exists 0.3. split; [reflexivity|]. split; [reflexivity|].
    split; [simpl; tauto|reflexivity].
Qed.

End CostFacts.

Section RouteFacts.
Import RouteRoute.
Context (w : RouteWorld).

Lemma additionalRoutes_acc (destCoords : lonLat) (transportMode : option string)
    (points : list string) :
  forall geocodeCalls routeCalls routes,
    additionalRoutes w destCoords transportMode points geocodeCalls
      routeCalls routes =
    (routes ++
     additionalRoutes w destCoords transportMode points geocodeCalls
       routeCalls [])%list.
Proof.
  induction points as [|p points IH]; intros g rc routes; simpl.
  - now rewrite app_nil_r.
  - destruct (geocodeAt w g p) as [pc|]; [|apply IH].
    destruct (calculateRouteAt w rc pc destCoords transportMode) as [r|];
      [|apply IH].
    rewrite IH. rewrite (IH _ _ [_]). now rewrite <- app_assoc.
Qed.

(** The routes of the other boarding points: at most one per point, in the
    request's mode, at the undiscounted cost. *)
Lemma additionalRoutes_each (destCoords : lonLat)
    (transportMode : option string) (points : list string) :
  forall geocodeCalls routeCalls,
    let extra :=
      additionalRoutes w destCoords transportMode points geocodeCalls
        routeCalls [] in
    (List.length extra <= List.length points)%nat /\
    forall rd, In rd extra ->
      mode rd = transportMode /\
      cost rd = estimateCost (distance (route rd) / 1000)%float
                  (propertyKey transportMode).
Proof.
  induction points as [|p points IH]; intros g rc; simpl.
  - split; [lia|intros rd []].
  - destruct (geocodeAt w g p) as [pc|].
    + destruct (calculateRouteAt w rc pc destCoords transportMode) as [r|].
      * rewrite additionalRoutes_acc. destruct (IH (S g) (S rc)) as [Hl He].
        split; [simpl; lia|].
        intros rd [<- | Hin]; [split; reflexivity|now apply He].
      * destruct (IH (S g) (S rc)) as [Hl He]. split; [lia|exact He].
    + destruct (IH (S g) rc) as [Hl He]. split; [lia|exact He].
Qed.

Lemma mainRoutes_each (startCoords destCoords : lonLat)
    (transportMode optimizationMode : option string) :
  let main :=
    mainRoutes w startCoords destCoords transportMode optimizationMode in
  (List.length main <= 1)%nat /\
  forall rd, In rd main ->
    mode rd = transportMode /\
    cost rd =
      if match optimizationMode with
         | Some s => String.eqb s "cheapest"
         | None => false
         end
      then (estimateCost (distance (route rd) / 1000)
              (propertyKey transportMode) * 0.8)%float
      else estimateCost (distance (route rd) / 1000)%float
             (propertyKey transportMode).
Proof.
  unfold mainRoutes.
  destruct (calculateRouteAt w 0 startCoords destCoords transportMode)
    as [r|]; simpl; [|split; [lia|intros rd []]].
  split; [lia|]. intros rd [<- | []]. split; [reflexivity|]. simpl.
  unfold mainRouteCost. now destruct optimizationMode.
Qed.

(** How the handler answers a request whose body has been read. *)
Lemma POST_of_body (body : RouteRequest) :
  routeRequest w = Ok body ->
  (exists r, POST w = Failure r /\ status r = 400) \/
  exists first others dest startCoords destCoords,
    boardingPoints body = Some (first :: others) /\
    destination body = Some dest /\ truthy_string dest = true /\
    geocodeAt w 0 first = Some startCoords /\
    geocodeAt w 1 dest = Some destCoords /\
    let routes :=
      (mainRoutes w startCoords destCoords (transportMode body)
         (optimizationMode body) ++
       additionalRoutes w destCoords (transportMode body) others 2 1 [])%list
    in
    routes <> [] /\ POST w = Success 200 routes.
Proof.
  intros Hb. unfold POST. rewrite Hb.
  destruct (boardingPoints body) as [[|first others]|];
    try (left; eexists; split; reflexivity).
  destruct (destination body) as [dest|];
    [|left; eexists; split; reflexivity].
  destruct (truthy_string dest) eqn:Ed; simpl;
    [|left; eexists; split; reflexivity].
  destruct (geocodeAt w 0 first) as [sc|] eqn:Es;
    [|left; eexists; split; reflexivity].
  destruct (geocodeAt w 1 dest) as [dc|] eqn:Ed2;
    [|left; eexists; split; reflexivity].
  rewrite additionalRoutes_acc.
  destruct (mainRoutes w sc dc (transportMode body) (optimizationMode body)
            ++ additionalRoutes w dc (transportMode body) others 2 1 [])%list
    as [|rd routes] eqn:Er.
  - left; eexists; split; reflexivity.
  - right. exists first, others, dest, sc, dc. rewrite Er.
    repeat split; auto; discriminate.
Qed.

(** X26: the route handler always answers: with status 500 exactly when the
    body cannot be read, with status 400, or with status 200 and a list of
    routes that is not empty, has at most one route per boarding point, and
    whose routes all carry the transport mode of the request. *)
Theorem route_POST_answers :
  match POST w with
  | Success st routes =>
      st = 200 /\ routes <> [] /\
      exists body points,
        routeRequest w = Ok body /\ boardingPoints body = Some points /\
        (List.length routes <= List.length points)%nat /\
        forall rd, In rd routes -> mode rd = transportMode body
  | Failure r =>
      (status r = 400 \/ status r = 500) /\
      (status r = 500 <-> exists e, routeRequest w = Err e)
  end.
Proof.
  destruct (routeRequest w) as [body|e] eqn:Hb.
  - destruct (POST_of_body body Hb) as [(r & -> & Hr) | H].
    + split; [now left|]. split; [intros H; congruence|].
      intros (e & He). discriminate He.
    + destruct H as (first & others & dest & sc & dc & Hp & _ & _ & _ & _ & H).
      cbv zeta in H. destruct H as [Hn ->].
      split; [reflexivity|]. split; [exact Hn|].
      exists body, (first :: others). split; [reflexivity|].
      split; [exact Hp|].
      destruct (mainRoutes_each sc dc (transportMode body)
                  (optimizationMode body)) as [Lm Em].
      destruct (additionalRoutes_each dc (transportMode body) others 2 1)
        as [La Ea].
      split.
      * rewrite length_app. simpl. lia.
      * intros rd Hin. apply in_app_or in Hin.
        destruct Hin as [Hin | Hin]; [now apply Em|now apply Ea].
  - unfold POST. rewrite Hb. simpl. split; [now right|].
    split; [eauto|reflexivity].
Qed.

(** Where the routes of the other boarding points come from: each is the
    route the routing service gave, in a call after the first, from the
    place the geocoder gave, in a call after the first two, for one of the
    points, priced at the undiscounted cost. *)
Lemma additionalRoutes_origin (destCoords : lonLat)
    (transportMode : option string) (points : list string) :
  forall geocodeCalls routeCalls rd,
    In rd (additionalRoutes w destCoords transportMode points geocodeCalls
             routeCalls []) ->
    exists point g n pointCoords r,
      In point points /\ (geocodeCalls <= g)%nat /\ (routeCalls <= n)%nat /\
      geocodeAt w g point = Some pointCoords /\
      calculateRouteAt w n pointCoords destCoords transportMode = Some r /\
      rd = {| route := geometry r;
              cost := estimateCost (distance (geometry r) / 1000)%float
                        (propertyKey transportMode);
              mode := transportMode;
              routeInstructions := instructions r |}.
Proof.
  induction points as [|p points IH]; intros g rc rd; simpl; [intros []|].
  assert (Hrest : forall g' rc',
            (g <= g')%nat -> (rc <= rc')%nat ->
            In rd (additionalRoutes w destCoords transportMode points g' rc'
                     []) ->
            exists point g0 n pointCoords r,
              In (A:=string) point (p :: points) /\
              (g <= g0)%nat /\ (rc <= n)%nat /\
              geocodeAt w g0 point = Some pointCoords /\
              calculateRouteAt w n pointCoords destCoords transportMode
                = Some r /\
              rd = {| route := geometry r;
                      cost := estimateCost (distance (geometry r) / 1000)%float
                                (propertyKey transportMode);
                      mode := transportMode;
                      routeInstructions := instructions r |}).
  { intros g' rc' Hg Hrc Hin.
    destruct (IH g' rc' rd Hin) as (pt & g0 & n & pc & r & H1 & H2 & H3 & H).
    exists pt, g0, n, pc, r. split; [now right|].
    split; [lia|]. split; [lia|exact H]. }
  destruct (geocodeAt w g p) as [pc|] eqn:Eg.
  - destruct (calculateRouteAt w rc pc destCoords transportMode) as [r|] eqn:Er.
    + rewrite additionalRoutes_acc. intros [<- | Hin].
      * exists p, g, rc, pc, r. split; [now left|].
        split; [lia|]. split; [lia|]. split; [exact Eg|].
        split; [exact Er|reflexivity].
      * apply (Hrest (S g) (S rc)); [lia|lia|exact Hin].
    + apply (Hrest (S g) (S rc)); lia.
  - apply (Hrest (S g) rc); lia.
Qed.

(** X27: with the optimization mode "cheapest", the discount of 20 percent is
    applied to the route from the first boarding point and to no other: in
    a 200 answer, the route that the routing service gave from the first
    boarding point to the destination, if it gave one, comes first and is
    priced at 0.8 times the estimate; the routes that follow are routes from
    the other boarding points, at most one for each, priced at the full
    estimate. *)
Theorem route_POST_discounts_main_route_only
    (body : RouteRequest) (routes : list RouteData) :
  routeRequest w = Ok body ->
  optimizationMode body = Some "cheapest"%string ->
  POST w = Success 200 routes ->
  exists first others dest startCoords destCoords extra,
    boardingPoints body = Some (first :: others) /\
    destination body = Some dest /\
    geocodeAt w 0 first = Some startCoords /\
    geocodeAt w 1 dest = Some destCoords /\
    routes =
      (match calculateRouteAt w 0 startCoords destCoords (transportMode body)
       with
       | Some mainRoute =>
           [ {| route := geometry mainRoute;
                cost :=
                  (estimateCost (distance (geometry mainRoute) / 1000)
                     (propertyKey (transportMode body)) * 0.8)%float;
                mode := transportMode body;
                routeInstructions := instructions mainRoute |} ]
       | None => []
       end ++ extra)%list /\
    (List.length extra <= List.length others)%nat /\
    forall rd, In rd extra ->
      cost rd = estimateCost (distance (route rd) / 1000)%float
                  (propertyKey (transportMode body)) /\
      exists point g n pointCoords r,
        In point others /\ (2 <= g)%nat /\ (1 <= n)%nat /\
        geocodeAt w g point = Some pointCoords /\
        calculateRouteAt w n pointCoords destCoords (transportMode body)
          = Some r /\
        route rd = geometry r.
Proof.
  intros Hb Ho HP.
  destruct (POST_of_body body Hb) as [(r & E & _) | H];
    [rewrite E in HP; discriminate HP|].
  destruct H as (first & others & dest & sc & dc & Hp & Hd & _ & Hs & Hdc & H).
  cbv zeta in H. destruct H as [_ E]. rewrite E in HP. injection HP as <-.
  destruct (additionalRoutes_each dc (transportMode body) others 2 1)
    as [La Ea].
  exists first, others, dest, sc, dc,
    (additionalRoutes w dc (transportMode body) others 2 1 []).
  split; [exact Hp|]. split; [exact Hd|]. split; [exact Hs|].
  split; [exact Hdc|]. split; [|split; [exact La|]].
  - unfold mainRoutes, mainRouteCost. rewrite Ho.
    destruct (calculateRouteAt w 0 sc dc (transportMode body)); reflexivity.
  - intros rd Hin. split; [now apply Ea|].
    destruct (additionalRoutes_origin dc (transportMode body) others 2 1 rd
                Hin) as (pt & g & n & pc & r & H1 & H2 & H3 & H4 & H5 & ->).
    exists pt, g, n, pc, r. repeat split; assumption.
Qed.

End RouteFacts.

(** Bangalore, Atlantis and Hosur to Chennai, cheapest: the route from
    Bangalore (300 km by car, 150) comes first at 120; Atlantis is unknown;
    the route from Hosur (260 km) follows at the full 130. *)
Lemma route_POST_discounts_main_route_only_witness :
  exists routes extra,
    RouteRoute.POST Scenario.routeWorld = Success 200 routes /\
    map RouteRoute.cost routes = [120; 130]%float /\
    routes =
      ({| RouteRoute.route :=
            {| coordinates := Scenario.road; distance := 300000;
               duration := 18000 |};
          RouteRoute.cost :=
            (RouteRoute.estimateCost (300000 / 1000) "car" * 0.8)%float;
          RouteRoute.mode := Some "car"%string;
          RouteRoute.routeInstructions := JArr [] |} :: extra) /\
    forall rd, In rd extra ->
      RouteRoute.cost rd =
        RouteRoute.estimateCost (distance (RouteRoute.route rd) / 1000)%float
          "car".
Proof.
  assert (E : exists routes,
            RouteRoute.POST Scenario.routeWorld = Success 200 routes /\
            map RouteRoute.cost routes = [120; 130]%float)
    by (vm_compute; eexists; split; reflexivity).
  destruct E as (routes & E & Hc).
  destruct (route_POST_discounts_main_route_only Scenario.routeWorld _ routes
              eq_refl eq_refl E)
    as (first & others & dest & sc & dc & extra & Hp & Hd & Hs & Hdc & Hr
        & _ & He).
  injection Hp as <- <-. injection Hd as <-.
  injection Hs as <-. injection Hdc as <-.
  exists routes, extra. split; [exact E|]. split; [exact Hc|].
  split; [exact Hr|]. intros rd Hin. exact (proj1 (He rd Hin)).
Defined.

(** ** Creating a group directly *)

Section GroupsPost.
Context (js : JSRuntime) (w : World).
Import GroupsRoute.

(** X28: [POST /api/groups] creates a group for whatever trip the body names,
    whether or not that trip has a group: for an authenticated user, a name
    that is a string with something left after trimming, and a truthy
    [tripId] that parses to [i], when the driver does not throw, the answer
    is 201 with a new group of trip [i], created by the user, which is
    appended to the groups, and the user is appended to the memberships as
    its admin.  So when trip [i] had a group, it now has two. *)
Theorem groups_POST_adds_group_for_named_trip
    (st : HState) (u name : string) (body : json) (i : Z) :
  getSession w = Ok (Some {| session_user := Some u |}) ->
  requestJson w = Ok body ->
  getField "name" body = JStr name ->
  name <> ""%string -> trim js name <> ""%string ->
  truthy (getField "tripId" body) = true ->
  parseInt js (getField "tripId" body) = Some i ->
  dbFault w (dbCalls st) = None ->
  dbFault w (S (dbCalls st)) = None ->
  let g :=
    {| Group.id := Store.seq_groups (db st) + 1;
       Group.name := trim js name;
       Group.tripId := Some i;
       Group.createdBy := u;
       Group.status := "active";
       Group.createdAt := clock w (clockTicks st);
       Group.updatedAt := clock w (clockTicks st) |} in
  exists st',
    POST js w st = (Normal (Success 201 g), st') /\
    Store.groups (db st') = (Store.groups (db st) ++ [g])%list /\
    Store.groupMembers (db st') =
      (Store.groupMembers (db st) ++
       [ {| GroupMember.id := Store.seq_groupMembers (db st) + 1;
            GroupMember.groupId := Group.id g;
            GroupMember.userId := u;
            GroupMember.role := "admin";
            GroupMember.joinedAt := clock w (clockTicks st) |} ])%list /\
    (In i (groupTrips (db st)) -> ~ oneGroupPerTrip (db st')).
Proof.
  intros Hs Hb Hn Hne Htrim Ht Hp F0 F1 g.
  assert (Hobj : AcceptRoute.destructure "name" body = Ok (JStr name)).
  { destruct body; simpl in Hn; try discriminate. simpl. now rewrite Hn. }
  assert (Hname : invalidName js (JStr name) = false).
  { unfold invalidName. simpl.
    destruct (String.eqb_spec name ""); [contradiction|].
    destruct (String.eqb_spec (trim js name) ""); [contradiction|].
    reflexivity. }
  assert (Htid : invalidTripId js (getField "tripId" body) = false).
  { unfold invalidTripId. rewrite Hp.
    now destruct (getField "tripId" body). }
  unfold POST, answer, tryCatch, createGroup, bind, lift, returnIf, ret,
    return_, now, dbCall.
  rewrite Hs, Hb, Hobj, Hname, Htid. simpl.
  rewrite F0. simpl. rewrite F1. simpl.
  unfold groupTripId. rewrite Ht, Hp.
  eexists. split; [reflexivity|]. simpl.
  split; [reflexivity|]. split; [reflexivity|].
  intros Hin Hone. unfold oneGroupPerTrip, groupTrips in Hone.
  simpl in Hone. rewrite flat_map_app in Hone. simpl in Hone.
  apply NoDup_remove_2 in Hone. rewrite app_nil_r in Hone.
  exact (Hone Hin).
Qed.

End GroupsPost.

(** After Dave's acceptance trip 5 has a group; a second one is created for
    it on request. *)
Lemma groups_POST_adds_group_for_named_trip_witness :
  groupTrips Scenario.store3 = [5] /\
  exists st',
    GroupsRoute.POST Runtime.js Scenario.worldSecondGroup
      (initial Scenario.store3) =
      (Normal (Success 201
         {| Group.id := 2; Group.name := "Second group";
            Group.tripId := Some 5; Group.createdBy := "dave";
            Group.status := "active";
            Group.createdAt := Scenario.clockAt 0;
            Group.updatedAt := Scenario.clockAt 0 |}), st') /\
    groupTrips (db st') = [5; 5] /\
    ~ oneGroupPerTrip (db st').
Proof.
  split; [reflexivity|].
  assert (H1 : " Second group "%string <> ""%string) by discriminate.
  assert (H2 : trim Runtime.js " Second group " <> ""%string)
    by (vm_compute; discriminate).
  destruct (groups_POST_adds_group_for_named_trip Runtime.js
              Scenario.worldSecondGroup (initial Scenario.store3)
              "dave" " Second group "
              (JObj [ ("name", JStr " Second group ");
                      ("tripId", JNum 5) ]%string) 5
              eq_refl eq_refl eq_refl H1 H2 eq_refl eq_refl eq_refl eq_refl)
    as (st' & HP & Hg & _ & Htwo).
  exists st'. split; [|split].
  - rewrite HP. f_equal.
  - unfold groupTrips. rewrite Hg. reflexivity.
  - apply Htwo. now left.
Defined.
